(** * The Brainfuck parser and evaluator of [src/html/interpreter/interpreter.js]

    A shallow embedding of the two exported functions, [parse] and [eval],
    together with the properties of them that the specification states.

    Conventions of the embedding.
    - A source text ([blob]) is a [string]; [blob[i]] is [char_at blob i],
      which is [None] (JavaScript's [undefined]) outside the string.
    - JavaScript numbers holding integers are modelled in [Z].  The only
      arithmetic of the program is [x++] and [x--]; on doubles these are
      exact up to 2^53 in absolute value and stay put there, which
      [js_incr] and [js_decr] write out.
    - [parse] always returns: its [for] loop is a recursive function on the
      index and its [do ... while] loop a recursive function of its own,
      both bounded by a fuel argument that the length of the blob is
      enough for.
    - [eval] may run for ever: it is a transition function [step] on the
      variables of the function, iterated by [run] for as many steps as
      the fuel allows.
    - In both, [None] means that the fuel ran out, never that the program
      returned. *)

From Stdlib Require Import ZArith String Ascii Lia.
From stdpp Require Import base list gmap.

Local Open Scope string_scope.
Local Open Scope Z_scope.

(** ** Tokens (lines 8-15) *)

Definition TOKEN_INCR : ascii := "+"%char.
Definition TOKEN_DECR : ascii := "-"%char.
Definition TOKEN_LEFT : ascii := "<"%char.
Definition TOKEN_RIGHT : ascii := ">"%char.
Definition TOKEN_LOOP_START : ascii := "["%char.
Definition TOKEN_LOOP_STOP : ascii := "]"%char.
Definition TOKEN_INPUT : ascii := ","%char.
Definition TOKEN_PRINT : ascii := "."%char.

(** ** JavaScript primitives used by the program *)

(** [blob.length] *)
Definition blob_length (blob : string) : Z := Z.of_nat (String.length blob).

(** [blob[i]]: [None] stands for [undefined]. *)
Definition char_at (blob : string) (i : Z) : option ascii :=
  if i <? 0 then None else String.get (Z.to_nat i) blob.

(** [blob[i] == tok]: [undefined] is equal to no token. *)
Definition is_token (c : option ascii) (tok : ascii) : bool :=
  match c with
  | Some a => Ascii.eqb a tok
  | None => false
  end.

(** [s += c] for a string [s] and a character [c] of the source. *)
Definition append_char (s : string) (c : option ascii) : string :=
  match c with
  | Some a => s ++ String a EmptyString
  | None => s ++ "undefined"
  end.

Definition two_53 : Z := 2 ^ 53.

(** [x++] and [x--] on a double that holds an integer. *)
Definition js_incr (x : Z) : Z := if two_53 <=? x then x else x + 1.
Definition js_decr (x : Z) : Z := if x <=? - two_53 then x else x - 1.

(** The occurrences of the character [c] in the blob. *)
Fixpoint count_char (c : ascii) (blob : string) : nat :=
  match blob with
  | EmptyString => O
  | String a rest => ((if Ascii.eqb a c then 1 else 0) + count_char c rest)%nat
  end.

(** ** The parser (lines 23-64) *)

Module Parser.

(** An element of the array [res]: what [blob[i]] gave (a character of the
    source; [None] stands for [undefined]), or the array that the
    recursive call returned. *)
#[warnings="-register-all"]
Inductive node : Type :=
| Leaf (c : option ascii)
| Seq (l : list node).

(** The object [parse] returns: [{'res': res, 'error': ''}] or
    [{'error': 'unterminated loop'}], where the field [res] is absent. *)
Record parse_result : Type := mk_parse_result {
  res : option (list node);
  error : string
}.

Definition unterminated : parse_result :=
  {| res := None; error := "unterminated loop" |}.

(** The state of the [do ... while] loop of lines 30-48. *)
Record scan : Type := mk_scan {
  scan_i : Z;
  scan_balance : Z;
  scan_inner : string
}.

(** The value [innerParsed.res] that line 57 pushes: the array of the inner
    parse, or [undefined] were the field absent. *)
Definition inner_node (innerParsed : parse_result) : node :=
  match res innerParsed with
  | Some r => Seq r
  | None => Leaf None
  end.

(** One run of the body of the [do ... while] loop (lines 34-47). *)
Definition scan_body (blob : string) (s : scan) : scan :=
  let c := char_at blob (scan_i s) in
  if is_token c TOKEN_LOOP_START then
    let balance := js_incr (scan_balance s) in
    {| scan_i := js_incr (scan_i s);
       scan_balance := balance;
       scan_inner := if 1 <? balance then append_char (scan_inner s) c
                     else scan_inner s |}
  else if is_token c TOKEN_LOOP_STOP then
    let balance := js_decr (scan_balance s) in
    {| scan_i := js_incr (scan_i s);
       scan_balance := balance;
       scan_inner := if 0 <? balance then append_char (scan_inner s) c
                     else scan_inner s |}
  else
    {| scan_i := js_incr (scan_i s);
       scan_balance := scan_balance s;
       scan_inner := append_char (scan_inner s) c |}.

(** The [do ... while] loop: the body runs, then the test
    [balance != 0 && i < blob.length] decides whether it runs again. *)
Fixpoint do_while (fuel : nat) (blob : string) (s : scan) : option scan :=
  match fuel with
  | O => None
  | S fuel' =>
      let s' := scan_body blob s in
      if negb (scan_balance s' =? 0) && (scan_i s' <? blob_length blob)
      then do_while fuel' blob s'
      else Some s'
  end.

(** The [for] loop of lines 26-61 from index [i] on, with the array [res]
    built so far; the recursive call of line 53 is [for_loop] on the inner
    blob from index 0 with an empty array. *)
Fixpoint for_loop (fuel : nat) (blob : string) (i : Z) (acc : list node)
  : option parse_result :=
  match fuel with
  | O => None
  | S fuel' =>
      if i <? blob_length blob then
        if is_token (char_at blob i) TOKEN_LOOP_START then
          match do_while fuel' blob
                  {| scan_i := i; scan_balance := 0; scan_inner := "" |} with
          | None => None
          | Some s =>
              if negb (scan_balance s =? 0) then Some unterminated
              else
                match for_loop fuel' (scan_inner s) 0 [] with
                | None => None
                | Some innerParsed =>
                    if negb (String.eqb (error innerParsed) "")
                    then Some innerParsed
                    else for_loop fuel' blob (js_incr (scan_i s))
                           (acc ++ [inner_node innerParsed])
                end
          end
        else for_loop fuel' blob (js_incr i) (acc ++ [Leaf (char_at blob i)])
      else Some {| res := Some acc; error := "" |}
  end.

(** [parse(blob)], with the fuel as an argument. *)
Definition parse_fuel (fuel : nat) (blob : string) : option parse_result :=
  for_loop fuel blob 0 [].

(** [parse(blob)]: the length of the blob plus one is fuel enough, as the
    termination theorem of the parser shows. *)
Definition parse (blob : string) : option parse_result :=
  parse_fuel (S (String.length blob)) blob.

(** [parse] returns one of two shapes of object. *)
Definition well_formed (r : parse_result) : Prop :=
  r = unterminated \/ exists l, r = {| res := Some l; error := "" |}.

(** *** The source as the specification reads it

    The nesting depth is counted along the source: a loop-start is at the
    top level when the depth before it is 0, any other character but a
    loop-stop when the depth at it is 0. *)

(** Every loop-stop closes a loop-start, and every loop-start is closed. *)
Fixpoint balanced_from (depth : nat) (blob : string) : bool :=
  match blob with
  | EmptyString => Nat.eqb depth 0
  | String c rest =>
      if Ascii.eqb c TOKEN_LOOP_START then balanced_from (S depth) rest
      else if Ascii.eqb c TOKEN_LOOP_STOP then
        match depth with
        | O => false
        | S d => balanced_from d rest
        end
      else balanced_from depth rest
  end.

Definition balanced (blob : string) : bool := balanced_from 0 blob.

(** Every loop-start of the blob is closed in it; loop-stops that close
    nothing in it may occur. *)
Definition closable (blob : string) : Prop :=
  exists depth, balanced_from depth blob = true.

(** The blob from index [n] on. *)
Fixpoint drop_chars (n : nat) (blob : string) : string :=
  match n, blob with
  | O, _ => blob
  | S n', String _ rest => drop_chars n' rest
  | S _, EmptyString => EmptyString
  end.

(** The top-level characters that are no loop delimiters, plus one for
    each top-level loop-start. *)
Fixpoint top_level_from (depth : nat) (blob : string) : nat :=
  match blob with
  | EmptyString => 0
  | String c rest =>
      if Ascii.eqb c TOKEN_LOOP_START then
        ((if Nat.eqb depth 0 then 1 else 0) + top_level_from (S depth) rest)%nat
      else if Ascii.eqb c TOKEN_LOOP_STOP then
        top_level_from (Nat.pred depth) rest
      else
        ((if Nat.eqb depth 0 then 1 else 0) + top_level_from depth rest)%nat
  end.

Definition top_level_count (blob : string) : nat := top_level_from 0 blob.

(** The characters of the source that a tree accounts for: one for a leaf,
    and for a nested sequence its two delimiters and its elements. *)
Fixpoint node_chars (n : node) : nat :=
  match n with
  | Leaf _ => 1
  | Seq l => (2 + foldr (fun m k => node_chars m + k) 0 l)%nat
  end.

Definition tree_chars (l : list node) : nat :=
  foldr (fun m k => (node_chars m + k)%nat) 0%nat l.

(** The characters of the blob, each as a leaf. *)
Definition leaves_of (blob : string) : list node :=
  map (fun c => Leaf (Some c)) (list_ascii_of_string blob).

(** The result [r] with the elements [acc] put before its own. *)
Definition prepend (acc : list node) (r : parse_result) : parse_result :=
  {| res := option_map (app acc) (res r); error := error r |}.

(** No leaf of the tree, at any depth, is a loop-start or [undefined]. *)
Fixpoint leaf_ok (n : node) : bool :=
  match n with
  | Leaf (Some c) => negb (Ascii.eqb c TOKEN_LOOP_START)
  | Leaf None => false
  | Seq l => forallb leaf_ok l
  end.

(** The characters of the blob as [blob[i]] gives them. *)
Definition source_text (blob : string) : list (option ascii) :=
  map Some (list_ascii_of_string blob).

(** The tree written back as text: a leaf is its character, and a nested
    sequence is its elements between a loop-start and a loop-stop. *)
Fixpoint node_text (n : node) : list (option ascii) :=
  match n with
  | Leaf c => [c]
  | Seq l =>
      Some TOKEN_LOOP_START
      :: (foldr (fun m k => node_text m ++ k)%list [] l
          ++ [Some TOKEN_LOOP_STOP])%list
  end.

Definition tree_text (l : list node) : list (option ascii) :=
  foldr (fun m k => node_text m ++ k)%list [] l.

(** The leaves of the tree, at every depth, from left to right. *)
Fixpoint node_leaves (n : node) : list (option ascii) :=
  match n with
  | Leaf c => [c]
  | Seq l => foldr (fun m k => node_leaves m ++ k)%list [] l
  end.

Definition tree_leaves (l : list node) : list (option ascii) :=
  foldr (fun m k => node_leaves m ++ k)%list [] l.

End Parser.

(** ** The evaluator (lines 74-142) *)

Module Evaluator.

(** A number stored in a cell: an integer or [NaN]. *)
Inductive jsnum : Type :=
| Num (z : Z)
| NaN.

(** The array [mem].  [elems] are the elements at the indices below
    [mem.length] ([None] is a hole, read as [undefined]); [props] are the
    properties whose key is not an array index (a negative number, or one
    from 2^32 - 1 on), which an assignment [mem[k] = v] creates on the
    array object without changing its length. *)
Record jsarray : Type := mk_jsarray {
  elems : list (option jsnum);
  props : gmap Z jsnum
}.

Definition is_array_index (k : Z) : bool := (0 <=? k) && (k <? 2 ^ 32 - 1).

(** [mem[k]]: [None] stands for [undefined]. *)
Definition array_get (a : jsarray) (k : Z) : option jsnum :=
  if is_array_index k then mjoin (elems a !! Z.to_nat k)
  else props a !! k.

(** [mem[k] = v]: in range the element is replaced; from the length on the
    array grows to length [k + 1], with holes in between. *)
Definition array_set (a : jsarray) (k : Z) (v : jsnum) : jsarray :=
  if is_array_index k then
    let n := Z.to_nat k in
    if (n <? length (elems a))%nat
    then {| elems := <[n := Some v]> (elems a); props := props a |}
    else {| elems := elems a ++ replicate (n - length (elems a)) None ++ [Some v];
            props := props a |}
  else {| elems := elems a; props := <[k := v]> (props a) |}.

(** The value [x + 1] and [x - 1] of [x++] and [x--]: [undefined] converts
    to [NaN]. *)
Definition num_incr (v : option jsnum) : jsnum :=
  match v with
  | Some (Num z) => Num (js_incr z)
  | _ => NaN
  end.

Definition num_decr (v : option jsnum) : jsnum :=
  match v with
  | Some (Num z) => Num (js_decr z)
  | _ => NaN
  end.

(** [v == 0] and [v > 0]: both are false for [NaN] and for [undefined]. *)
Definition num_is_zero (v : option jsnum) : bool :=
  match v with
  | Some (Num z) => z =? 0
  | _ => false
  end.

Definition num_is_pos (v : option jsnum) : bool :=
  match v with
  | Some (Num z) => 0 <? z
  | _ => false
  end.

(** [String.fromCharCode(v)], as the UTF-16 code unit of the one character
    it returns: the number modulo 2^16, and 0 for [NaN] and [undefined]. *)
Definition fromCharCode (v : option jsnum) : Z :=
  match v with
  | Some (Num z) => z mod 65536
  | _ => 0
  end.

(** The number of cells that line 76 generates. *)
Definition tape_length : nat := Z.to_nat 30000.

(** [Array(...Array(30000)).map(Number.prototype.valueOf, 0)] *)
Definition fresh_mem : jsarray :=
  {| elems := replicate tape_length (Some (Num 0)); props := ∅ |}.

(** The object [eval] returns: on success all four fields, on failure
    [{'error': 'unterminated loop'}] only.  [res_mem] is the field [mem]. *)
Record eval_result : Type := mk_eval_result {
  ptrPos : option Z;
  stdout : option (list Z);
  res_mem : option jsarray;
  error : string
}.

Definition unterminated : eval_result :=
  {| ptrPos := None; stdout := None; res_mem := None;
     error := "unterminated loop" |}.

(** The object of line 141. *)
Definition returned (p : Z) (out : list Z) (m : jsarray) : eval_result :=
  {| ptrPos := Some p; stdout := Some out; res_mem := Some m; error := "" |}.

(** Where control is: at the test of the [for] loop (line 83), at the body
    of the forward [do ... while] (line 110) or at the body of the backward
    one (line 126). *)
Inductive loc : Type :=
| ForTest
| ScanForward
| ScanBackward.

(** The variables of [eval].  [balance] is declared without a value and is
    assigned 0 before it is read; it starts at 0 here. *)
Record state : Type := mk_state {
  pc : loc;
  i : Z;
  balance : Z;
  datPtr : Z;
  mem : jsarray;
  programOutput : list Z
}.

Definition init : state :=
  {| pc := ForTest; i := 0; balance := 0; datPtr := 0; mem := fresh_mem;
     programOutput := [] |}.

Inductive outcome : Type :=
| Continue (s : state)
| Return (r : eval_result).

(** [break] out of the [switch], then the [i++] of the [for] loop. *)
Definition next_iteration (s : state) : state :=
  {| pc := ForTest; i := js_incr (i s); balance := balance s;
     datPtr := datPtr s; mem := mem s; programOutput := programOutput s |}.

Definition set_mem (s : state) (m : jsarray) : state :=
  {| pc := pc s; i := i s; balance := balance s; datPtr := datPtr s;
     mem := m; programOutput := programOutput s |}.

Definition set_datPtr (s : state) (p : Z) : state :=
  {| pc := pc s; i := i s; balance := balance s; datPtr := p;
     mem := mem s; programOutput := programOutput s |}.

Definition push_output (s : state) (c : Z) : state :=
  {| pc := pc s; i := i s; balance := balance s; datPtr := datPtr s;
     mem := mem s; programOutput := programOutput s ++ [c] |}.

(** [balance = 0], then control moves to [l]. *)
Definition reset_balance (s : state) (l : loc) : state :=
  {| pc := l; i := i s; balance := 0; datPtr := datPtr s;
     mem := mem s; programOutput := programOutput s |}.

(** The [if ... else if] on [blob[i]] of both [do ... while] loops
    (lines 111-115 and 127-131). *)
Definition scan_balance (blob : string) (s : state) : Z :=
  let c := char_at blob (i s) in
  if is_token c TOKEN_LOOP_START then js_incr (balance s)
  else if is_token c TOKEN_LOOP_STOP then js_decr (balance s)
  else balance s.

(** After the body of a [do ... while] with the new [i] and [balance]: the
    test [balance != 0 && i < blob.length] (lines 117 and 133), and after
    the loop the [if (balance != 0)] (lines 118 and 134). *)
Definition scan_test (blob : string) (s : state) (i' balance' : Z) : outcome :=
  let s' := {| pc := pc s; i := i'; balance := balance'; datPtr := datPtr s;
               mem := mem s; programOutput := programOutput s |} in
  if negb (balance' =? 0) && (i' <? blob_length blob) then Continue s'
  else if negb (balance' =? 0) then Return unterminated
  else Continue (next_iteration s').

(** One step of [eval]: one test of the [for] loop with the [switch] that
    follows it, or one run of the body of a [do ... while] with its test. *)
Definition step (blob : string) (s : state) : outcome :=
  match pc s with
  | ForTest =>
      if i s <? blob_length blob then
        let c := char_at blob (i s) in
        if is_token c TOKEN_INCR then
          Continue (next_iteration
            (set_mem s (array_set (mem s) (datPtr s)
                          (num_incr (array_get (mem s) (datPtr s))))))
        else if is_token c TOKEN_DECR then
          Continue (next_iteration
            (set_mem s (array_set (mem s) (datPtr s)
                          (num_decr (array_get (mem s) (datPtr s))))))
        else if is_token c TOKEN_RIGHT then
          Continue (next_iteration (set_datPtr s (js_incr (datPtr s))))
        else if is_token c TOKEN_LEFT then
          Continue (next_iteration (set_datPtr s (js_decr (datPtr s))))
        else if is_token c TOKEN_INPUT then
          Continue (next_iteration s)
        else if is_token c TOKEN_PRINT then
          Continue (next_iteration
            (push_output s (fromCharCode (array_get (mem s) (datPtr s)))))
        else if is_token c TOKEN_LOOP_START then
          if num_is_zero (array_get (mem s) (datPtr s))
          then Continue (reset_balance s ScanForward)
          else Continue (next_iteration (reset_balance s ForTest))
        else if is_token c TOKEN_LOOP_STOP then
          if num_is_pos (array_get (mem s) (datPtr s))
          then Continue (reset_balance s ScanBackward)
          else Continue (next_iteration (reset_balance s ForTest))
        else Continue (next_iteration s)
      else
        Return (returned (datPtr s) (programOutput s) (mem s))
  | ScanForward =>
      scan_test blob s (js_incr (i s)) (scan_balance blob s)
  | ScanBackward =>
      scan_test blob s (js_decr (i s)) (scan_balance blob s)
  end.

(** [eval(blob)] from state [s] on, for at most [fuel] steps. *)
Fixpoint run (fuel : nat) (blob : string) (s : state) : option eval_result :=
  match fuel with
  | O => None
  | S fuel' =>
      match step blob s with
      | Return r => Some r
      | Continue s' => run fuel' blob s'
      end
  end.

(** [eval(blob)], with the fuel as an argument. *)
Definition eval (fuel : nat) (blob : string) : option eval_result :=
  run fuel blob init.

(** [eval(blob)] returns [r]. *)
Definition evaluates (blob : string) (r : eval_result) : Prop :=
  exists fuel, eval fuel blob = Some r.

(** [eval(blob)] never returns. *)
Definition diverges (blob : string) : Prop :=
  forall fuel, eval fuel blob = None.

(** The states [eval] goes through from [s] on, in at most [fuel] steps. *)
Fixpoint trace (fuel : nat) (blob : string) (s : state) : list state :=
  match fuel with
  | O => []
  | S fuel' =>
      s :: match step blob s with
           | Return _ => []
           | Continue s' => trace fuel' blob s'
           end
  end.

(** The state after [n] steps from [s], when [eval] has not returned
    before. *)
Fixpoint steps (n : nat) (blob : string) (s : state) : option state :=
  match n with
  | O => Some s
  | S n' =>
      match step blob s with
      | Return _ => None
      | Continue s' => steps n' blob s'
      end
  end.

(** State [s] is about to run [mem[datPtr]++] or [mem[datPtr]--]. *)
Definition writes_cell (blob : string) (s : state) : bool :=
  match pc s with
  | ForTest =>
      (i s <? blob_length blob)
      && (is_token (char_at blob (i s)) TOKEN_INCR
          || is_token (char_at blob (i s)) TOKEN_DECR)
  | _ => false
  end.

(** The character is one of the eight tokens. *)
Definition is_command (a : ascii) : bool :=
  existsb (Ascii.eqb a)
    [TOKEN_INCR; TOKEN_DECR; TOKEN_LEFT; TOKEN_RIGHT;
     TOKEN_LOOP_START; TOKEN_LOOP_STOP; TOKEN_INPUT; TOKEN_PRINT].

(** State [s] is about to write cell [k]. *)
Definition touches (blob : string) (k : Z) (s : state) : bool :=
  writes_cell blob s && (datPtr s =? k).

(** Cell [k] is written at some step of the run. *)
Definition touched (fuel : nat) (blob : string) (k : Z) : bool :=
  existsb (touches blob k) (trace fuel blob init).

(** At every write of the run the data pointer is below the length of the
    fresh tape. *)
Definition writes_below_tape (fuel : nat) (blob : string) : bool :=
  forallb (fun s => implb (writes_cell blob s) (datPtr s <? 30000))
          (trace fuel blob init).

(** An array of 30000 cells that all hold integers. *)
Definition tape_shape (a : jsarray) : Prop :=
  length (elems a) = tape_length
  /\ Forall (fun c => exists z, c = Some (Num z)) (elems a).

(** [n] times the character [c]. *)
Fixpoint repeat_char (n : nat) (c : ascii) : string :=
  match n with
  | O => EmptyString
  | S n' => String c (repeat_char n' c)
  end.

(** The fresh tape with the integer [z] in cell [k]. *)
Definition tape_with (k : nat) (z : Z) : jsarray :=
  {| elems := <[k := Some (Num z)]> (replicate tape_length (Some (Num 0)));
     props := ∅ |}.

(** The move-rights of the blob less its move-lefts. *)
Definition pointer_shift (blob : string) : Z :=
  Z.of_nat (count_char TOKEN_RIGHT blob) - Z.of_nat (count_char TOKEN_LEFT blob).

(** The increments of the blob less its decrements. *)
Definition cell_shift (blob : string) : Z :=
  Z.of_nat (count_char TOKEN_INCR blob) - Z.of_nat (count_char TOKEN_DECR blob).

(** The character leaves the tape, the data pointer and the control flow
    as they are: it is none of [+ - < > [ ]]. *)
Definition idle (a : ascii) : bool :=
  negb (existsb (Ascii.eqb a)
          [TOKEN_INCR; TOKEN_DECR; TOKEN_LEFT; TOKEN_RIGHT;
           TOKEN_LOOP_START; TOKEN_LOOP_STOP]).

Fixpoint all_idle (blob : string) : bool :=
  match blob with
  | EmptyString => true
  | String a rest => idle a && all_idle rest
  end.

(** 30000 move-rights and one increment. *)
Definition overrun_source : string :=
  repeat_char tape_length TOKEN_RIGHT ++ "+".

(** The array that [overrun_source] leaves: the fresh tape and one more
    element that holds [NaN]. *)
Definition overrun_mem : jsarray :=
  {| elems := replicate tape_length (Some (Num 0)) ++ [Some NaN];
     props := ∅ |}.

End Evaluator.



(** * Properties *)

(** ** Strings and numbers *)

Lemma length_append (s t : string) :
  String.length (s ++ t) = (String.length s + String.length t)%nat.
Proof. induction s as [|a s IH]; simpl; [reflexivity | now rewrite IH]. Qed.

Lemma get_in_range (s : string) (n : nat) :
  (n < String.length s)%nat -> exists a, String.get n s = Some a.
Proof.
  revert n; induction s as [|a s IH]; intros n Hn; simpl in *; [lia|].
  destruct n as [|n]; [eauto | apply IH; lia].
Qed.

Lemma char_at_in_range (blob : string) (i : Z) :
  0 <= i < blob_length blob -> exists a, char_at blob i = Some a.
Proof.
  intros [H0 H1]. unfold char_at, blob_length in *.
  destruct (Z.ltb_spec i 0); [lia|]. apply get_in_range. lia.
Qed.

Lemma js_incr_exact (x : Z) : x < two_53 -> js_incr x = x + 1.
Proof. intros H. unfold js_incr. destruct (Z.leb_spec two_53 x); [lia | easy]. Qed.

Lemma js_decr_le (x : Z) : js_decr x <= x.
Proof. unfold js_decr. destruct (Z.leb_spec x (- two_53)); lia. Qed.

Lemma two_53_pos : 0 < two_53.
Proof. reflexivity. Qed.

Lemma append_char_length (s : string) (a : ascii) :
  String.length (append_char s (Some a)) = S (String.length s).
Proof. unfold append_char. rewrite length_append. simpl. lia. Qed.

(** ** The parser *)

Module ParserSpec.
Import Parser.

(** *** The [do ... while] loop of the parser *)

Section Scan.
Variable blob : string.
Hypothesis blob_is_js_string : blob_length blob < two_53.

Lemma scan_body_i (s : scan) :
  scan_i s < two_53 -> scan_i (scan_body blob s) = scan_i s + 1.
Proof.
  intros H. unfold scan_body.
  repeat (destruct (is_token _ _)); simpl; now apply js_incr_exact.
Qed.

Lemma scan_body_inner (s : scan) :
  0 <= scan_i s < blob_length blob ->
  (String.length (scan_inner (scan_body blob s))
   <= S (String.length (scan_inner s)))%nat.
Proof.
  intros Hi. destruct (char_at_in_range blob (scan_i s) Hi) as [a Ha].
  unfold scan_body. rewrite Ha.
  repeat (destruct (is_token _ _)); cbn [scan_inner];
    repeat (destruct (_ <? _)); rewrite ?append_char_length; lia.
Qed.

(** The iteration that brings the balance to zero appends nothing: the
    closing delimiter stays out of the inner blob. *)
Lemma scan_body_close (s : scan) :
  scan_balance s <> 0 -> scan_balance (scan_body blob s) = 0 ->
  scan_inner (scan_body blob s) = scan_inner s.
Proof.
  intros Hb. unfold scan_body.
  repeat (destruct (is_token _ _)); simpl; intros H0; try rewrite H0;
    try reflexivity; contradiction.
Qed.

Lemma do_while_returns (fuel : nat) (s : scan) :
  0 <= scan_i s < blob_length blob ->
  blob_length blob - scan_i s <= Z.of_nat fuel ->
  exists s', do_while fuel blob s = Some s'
    /\ scan_i s < scan_i s' <= blob_length blob
    /\ Z.of_nat (String.length (scan_inner s'))
       <= Z.of_nat (String.length (scan_inner s)) + (scan_i s' - scan_i s)
    /\ (scan_balance s <> 0 -> scan_balance s' = 0 ->
        Z.of_nat (String.length (scan_inner s')) + 1
        <= Z.of_nat (String.length (scan_inner s)) + (scan_i s' - scan_i s)).
Proof.
  revert s; induction fuel as [|fuel IH]; intros s Hi Hf; [lia|].
  cbn [do_while].
  pose proof (scan_body_i s ltac:(lia)) as Hi'.
  pose proof (scan_body_inner s Hi) as Hin.
  pose proof (scan_body_close s) as Hcl.
  destruct (Z.eqb_spec (scan_balance (scan_body blob s)) 0) as [Hz|Hz];
    cbn [negb andb].
  - eexists; split; [reflexivity|].
    split; [lia|]. split; [lia|].
    intros Hb _. rewrite (Hcl Hb Hz). lia.
  - destruct (Z.ltb_spec (scan_i (scan_body blob s)) (blob_length blob)) as [Hlt|Hge].
    + destruct (IH (scan_body blob s) ltac:(lia) ltac:(lia))
        as (s' & Hs' & Hrange & Hlen & Hclose).
      exists s'. split; [exact Hs'|].
      split; [lia|]. split; [lia|].
      intros _ Hz'. specialize (Hclose Hz Hz'). lia.
    + eexists; split; [reflexivity|].
      split; [lia|]. split; [lia|].
      intros _ Hz'. contradiction.
Qed.

(** The loop started on a loop-start: it returns, the index has moved
    forward, and when the balance is back at zero the inner blob misses
    at least the two outermost delimiters. *)
Lemma do_while_open (fuel : nat) (i : Z) :
  0 <= i < blob_length blob ->
  is_token (char_at blob i) TOKEN_LOOP_START = true ->
  blob_length blob - i <= Z.of_nat fuel ->
  exists s', do_while fuel blob
               {| scan_i := i; scan_balance := 0; scan_inner := "" |} = Some s'
    /\ i < scan_i s' <= blob_length blob
    /\ (scan_balance s' = 0 ->
        Z.of_nat (String.length (scan_inner s')) + 2 <= scan_i s' - i).
Proof.
  intros Hi Htok Hf. destruct fuel as [|fuel]; [lia|].
  assert (Hbody : scan_body blob
            {| scan_i := i; scan_balance := 0; scan_inner := "" |}
          = {| scan_i := i + 1; scan_balance := 1; scan_inner := "" |}).
  { unfold scan_body. cbn [scan_i scan_balance scan_inner]. rewrite Htok.
    rewrite (js_incr_exact i) by lia. reflexivity. }
  cbn [do_while]. rewrite Hbody. cbn [scan_i scan_balance scan_inner].
  change (negb (1 =? 0)) with true. cbn [andb].
  destruct (Z.ltb_spec (i + 1) (blob_length blob)) as [Hlt|Hge].
  - destruct (do_while_returns fuel
                {| scan_i := i + 1; scan_balance := 1; scan_inner := "" |})
      as (s' & Hs' & Hrange & _ & Hclose); simpl in *; try lia.
    exists s'. split; [exact Hs'|]. split; [lia|].
    intros Hz. specialize (Hclose ltac:(lia) Hz). lia.
  - eexists; split; [reflexivity|]. cbn [scan_i scan_balance scan_inner].
    split; [lia|]. discriminate.
Qed.

End Scan.

(** *** Fuel *)

Lemma do_while_mono (fuel fuel' : nat) (blob : string) (s r : scan) :
  do_while fuel blob s = Some r -> (fuel <= fuel')%nat ->
  do_while fuel' blob s = Some r.
Proof.
  revert fuel' s; induction fuel as [|fuel IH]; intros fuel' s H Hle;
    [discriminate|].
  destruct fuel' as [|fuel']; [lia|]. cbn [do_while] in *.
  destruct (_ && _); [apply IH; [exact H | lia] | exact H].
Qed.

Lemma for_loop_mono (fuel : nat) :
  forall (fuel' : nat) (blob : string) (i : Z) (acc : list node) (r : parse_result),
  for_loop fuel blob i acc = Some r -> (fuel <= fuel')%nat ->
  for_loop fuel' blob i acc = Some r.
Proof.
  induction fuel as [|fuel IH]; intros fuel' blob i acc r H Hle;
    [discriminate|].
  destruct fuel' as [|fuel']; [lia|]. cbn [for_loop] in *.
  destruct (i <? blob_length blob); [|exact H].
  destruct (is_token _ _); [|apply IH; [exact H | lia]].
  destruct (do_while fuel blob _) as [s|] eqn:Hs; [|discriminate].
  rewrite (do_while_mono _ fuel' _ _ _ Hs) by lia.
  destruct (negb (scan_balance s =? 0)); [exact H|].
  destruct (for_loop fuel (scan_inner s) 0 []) as [inner|] eqn:Hin;
    [|discriminate].
  rewrite (IH fuel' _ _ _ _ Hin) by lia.
  destruct (negb _); [exact H|].
  apply IH; [exact H | lia].
Qed.

Lemma for_loop_returns (fuel : nat) :
  forall (blob : string) (i : Z) (acc : list node),
  blob_length blob < two_53 -> 0 <= i ->
  blob_length blob - i + 1 <= Z.of_nat fuel -> 1 <= Z.of_nat fuel ->
  exists r, for_loop fuel blob i acc = Some r /\ well_formed r.
Proof.
  induction fuel as [|fuel IH]; intros blob i acc Hjs Hi Hf H1; [lia|].
  cbn [for_loop].
  destruct (Z.ltb_spec i (blob_length blob)) as [Hlt|Hge].
  - destruct (is_token (char_at blob i) TOKEN_LOOP_START) eqn:Htok.
    + destruct (do_while_open blob Hjs fuel i ltac:(lia) Htok ltac:(lia))
        as (s & Hs & Hrange & Hinner).
      rewrite Hs.
      destruct (Z.eqb_spec (scan_balance s) 0) as [Hz|Hz]; cbn [negb].
      * specialize (Hinner Hz).
        destruct (IH (scan_inner s) 0 [])
          as (inner & Hin & Hwf); unfold blob_length in *; try lia.
        rewrite Hin. destruct Hwf as [->|[l ->]]; cbn.
        -- eexists; split; [reflexivity | now left].
        -- rewrite (js_incr_exact (scan_i s)) by lia.
           apply IH; lia.
      * eexists; split; [reflexivity | now left].
    + rewrite (js_incr_exact i) by lia. apply IH; lia.
  - eexists; split; [reflexivity|]. right. eauto.
Qed.

(** *** Sources whose loop-starts are all closed *)

Lemma append_assoc (a b c : string) : ((a ++ b) ++ c = a ++ (b ++ c))%string.
Proof.
  induction a as [|x a IH]; [reflexivity|].
  change (String x ((a ++ b) ++ c) = String x (a ++ (b ++ c)))%string.
  now rewrite IH.
Qed.

Lemma append_empty_r (a : string) : (a ++ "")%string = a.
Proof.
  induction a as [|x a IH]; [reflexivity|].
  change (String x (a ++ "") = String x a)%string. now rewrite IH.
Qed.

Lemma append_char_append (inner rest : string) (c : ascii) :
  (append_char inner (Some c) ++ rest)%string = (inner ++ String c rest)%string.
Proof. unfold append_char. now rewrite append_assoc. Qed.

Lemma get_drop_chars (n : nat) (s : string) :
  String.get n s = match drop_chars n s with
                   | String c _ => Some c
                   | EmptyString => None
                   end.
Proof.
  revert s; induction n as [|n IH]; intros [|a s]; cbn; try reflexivity.
  apply IH.
Qed.

Lemma drop_chars_S (n : nat) (s : string) (c : ascii) (r : string) :
  drop_chars n s = String c r -> drop_chars (S n) s = r.
Proof.
  revert s; induction n as [|n IH]; intros [|a s] H; cbn in *;
    try discriminate.
  - now inversion H.
  - now apply IH.
Qed.

Lemma drop_chars_S_empty (n : nat) (s : string) :
  drop_chars n s = "" -> drop_chars (S n) s = "".
Proof.
  revert s; induction n as [|n IH]; intros [|a s] H; cbn in *;
    try reflexivity; try discriminate.
  now apply IH.
Qed.

Lemma length_drop_chars (n : nat) (s : string) :
  String.length (drop_chars n s) = (String.length s - n)%nat.
Proof.
  revert s; induction n as [|n IH]; intros [|a s];
    cbn [drop_chars String.length]; try lia.
  rewrite IH. lia.
Qed.

Lemma char_at_drop_chars (blob : string) (i : Z) (c : ascii) (r : string) :
  0 <= i -> drop_chars (Z.to_nat i) blob = String c r ->
  char_at blob i = Some c.
Proof.
  intros Hi H. unfold char_at. destruct (Z.ltb_spec i 0); [lia|].
  now rewrite get_drop_chars, H.
Qed.

Lemma balanced_from_length (d : nat) (s : string) :
  balanced_from d s = true -> (d <= String.length s)%nat.
Proof.
  revert d; induction s as [|a s IH]; intros d H; cbn in *.
  - apply Nat.eqb_eq in H. lia.
  - destruct (Ascii.eqb a TOKEN_LOOP_START).
    + apply IH in H. lia.
    + destruct (Ascii.eqb a TOKEN_LOOP_STOP).
      * destruct d as [|d]; [discriminate|]. apply IH in H. lia.
      * apply IH in H. lia.
Qed.

Lemma closable_drop_S (n : nat) (s : string) :
  closable (drop_chars n s) -> closable (drop_chars (S n) s).
Proof.
  intros [d Hd]. destruct (drop_chars n s) as [|c r] eqn:Hr.
  - rewrite (drop_chars_S_empty _ _ Hr). now exists d.
  - rewrite (drop_chars_S _ _ _ _ Hr). cbn in Hd.
    destruct (Ascii.eqb c TOKEN_LOOP_START); [now exists (S d)|].
    destruct (Ascii.eqb c TOKEN_LOOP_STOP); [|now exists d].
    destruct d as [|d]; [discriminate | now exists d].
Qed.

(** The scan of a loop whose loop-starts are all closed ends with the
    balance at zero, on an inner blob that is balanced, and leaves a rest
    whose loop-starts are all closed. *)
Lemma do_while_balanced (blob : string) (fuel : nat) :
  forall (s : scan) (b d : nat),
  blob_length blob < two_53 -> 0 <= scan_i s ->
  scan_balance s = Z.of_nat b -> (1 <= b)%nat ->
  balanced_from (d + b) (drop_chars (Z.to_nat (scan_i s)) blob) = true ->
  blob_length blob - scan_i s <= Z.of_nat fuel ->
  exists s' inner1,
    do_while fuel blob s = Some s'
    /\ scan_balance s' = 0
    /\ scan_inner s' = (scan_inner s ++ inner1)%string
    /\ balanced_from (b - 1) inner1 = true
    /\ balanced_from d (drop_chars (Z.to_nat (scan_i s')) blob) = true
    /\ 0 <= scan_i s'.
Proof.
  induction fuel as [|fuel IH]; intros s b d Hjs Hi Hb Hb1 Hbal Hf.
  - apply balanced_from_length in Hbal. rewrite length_drop_chars in Hbal.
    unfold blob_length in *. lia.
  - destruct (drop_chars (Z.to_nat (scan_i s)) blob) as [|c r] eqn:Hrest.
    { cbn in Hbal. apply Nat.eqb_eq in Hbal. lia. }
    pose proof (length_drop_chars (Z.to_nat (scan_i s)) blob) as Hlen.
    rewrite Hrest in Hlen. cbn [String.length] in Hlen.
    pose proof (balanced_from_length _ _ Hbal) as Hdepth.
    cbn [String.length] in Hdepth.
    pose proof (drop_chars_S _ _ _ _ Hrest) as Hnext.
    replace (S (Z.to_nat (scan_i s))) with (Z.to_nat (scan_i s + 1)) in Hnext
      by lia.
    assert (Hi53 : js_incr (scan_i s) = scan_i s + 1)
      by (apply js_incr_exact; unfold blob_length in *; lia).
    assert (Hrnonempty : (1 <= String.length r)%nat ->
                         scan_i s + 1 < blob_length blob)
      by (unfold blob_length; lia).
    cbn [do_while]. unfold scan_body.
    rewrite (char_at_drop_chars blob (scan_i s) c r Hi Hrest).
    cbn [is_token]. cbn [balanced_from] in Hbal. rewrite Hi53, Hb.
    destruct (Ascii.eqb c TOKEN_LOOP_START) eqn:Hopen.
    + (* a nested loop-start *)
      rewrite (js_incr_exact (Z.of_nat b)) by (unfold blob_length in *; lia).
      cbn [scan_i scan_balance scan_inner].
      destruct (Z.ltb_spec 1 (Z.of_nat b + 1)) as [_|]; [|lia].
      destruct (Z.eqb_spec (Z.of_nat b + 1) 0) as [|_]; [lia|].
      pose proof (balanced_from_length _ _ Hbal) as Hr.
      destruct (Z.ltb_spec (scan_i s + 1) (blob_length blob)) as [_|];
        [|lia]. cbn [negb andb].
      destruct (IH {| scan_i := scan_i s + 1; scan_balance := Z.of_nat b + 1;
                      scan_inner := append_char (scan_inner s) (Some c) |}
                   (S b) d Hjs) as (s' & inner2 & Hs' & Hz & Hin & Hbin & Hrest' & Hi');
        cbn [scan_i scan_balance scan_inner]; try lia.
      { rewrite Hnext. now rewrite Nat.add_succ_r. }
      exists s', (String c inner2). split; [exact Hs'|]. split; [exact Hz|].
      split; [cbn [scan_inner] in Hin; now rewrite Hin, append_char_append|].
      split; [|now split].
      cbn [balanced_from]. rewrite Hopen.
      now replace (S (b - 1)) with (S b - 1)%nat by lia.
    + destruct (Ascii.eqb c TOKEN_LOOP_STOP) eqn:Hclose.
      * (* a loop-stop *)
        unfold js_decr. destruct (Z.leb_spec (Z.of_nat b) (- two_53)) as [|_];
          [pose proof two_53_pos; lia|].
        cbn [scan_i scan_balance scan_inner].
        destruct (d + b)%nat as [|k] eqn:Hk; [discriminate|].
        destruct (Nat.eq_dec b 1%nat) as [->|Hb2].
        -- (* the matching one *)
           change (Z.of_nat 1 - 1) with 0. cbn [Z.eqb Z.ltb Z.compare negb andb].
           eexists _, "". split; [reflexivity|].
           cbn [scan_i scan_balance scan_inner].
           split; [reflexivity|]. split; [now rewrite append_empty_r|].
           split; [reflexivity|]. split; [|lia].
           rewrite Hnext. now replace d with k by lia.
        -- destruct (Z.ltb_spec 0 (Z.of_nat b - 1)) as [_|]; [|lia].
           destruct (Z.eqb_spec (Z.of_nat b - 1) 0) as [|_]; [lia|].
           pose proof (balanced_from_length _ _ Hbal) as Hr.
           destruct (Z.ltb_spec (scan_i s + 1) (blob_length blob)) as [_|];
             [|lia]. cbn [negb andb].
           destruct (IH {| scan_i := scan_i s + 1;
                           scan_balance := Z.of_nat b - 1;
                           scan_inner := append_char (scan_inner s) (Some c) |}
                        (b - 1)%nat d Hjs)
             as (s' & inner2 & Hs' & Hz & Hin & Hbin & Hrest' & Hi');
             cbn [scan_i scan_balance scan_inner]; try lia.
           { rewrite Hnext. now replace (d + (b - 1))%nat with k by lia. }
           exists s', (String c inner2). split; [exact Hs'|]. split; [exact Hz|].
           split; [cbn [scan_inner] in Hin; now rewrite Hin, append_char_append|].
           split; [|now split].
           cbn [balanced_from]. rewrite Hopen, Hclose.
           destruct (b - 1)%nat as [|b'] eqn:Hb'; [lia|].
           now replace b' with (S b' - 1)%nat by lia.
      * (* any other character *)
        cbn [scan_i scan_balance scan_inner].
        destruct (Z.eqb_spec (Z.of_nat b) 0) as [|_]; [lia|].
        pose proof (balanced_from_length _ _ Hbal) as Hr.
        destruct (Z.ltb_spec (scan_i s + 1) (blob_length blob)) as [_|];
          [|lia]. cbn [negb andb].
        destruct (IH {| scan_i := scan_i s + 1; scan_balance := Z.of_nat b;
                        scan_inner := append_char (scan_inner s) (Some c) |}
                     b d Hjs)
          as (s' & inner2 & Hs' & Hz & Hin & Hbin & Hrest' & Hi');
          cbn [scan_i scan_balance scan_inner]; try lia.
        { now rewrite Hnext. }
        exists s', (String c inner2). split; [exact Hs'|]. split; [exact Hz|].
        split; [cbn [scan_inner] in Hin; now rewrite Hin, append_char_append|].
        split; [|now split].
        cbn [balanced_from]. now rewrite Hopen, Hclose.
Qed.

(** The scan started on a loop-start that is closed. *)
Lemma do_while_open_balanced (blob : string) (fuel : nat) (i : Z) (d : nat) :
  blob_length blob < two_53 -> 0 <= i < blob_length blob ->
  is_token (char_at blob i) TOKEN_LOOP_START = true ->
  balanced_from (S d) (drop_chars (Z.to_nat (i + 1)) blob) = true ->
  blob_length blob - i <= Z.of_nat fuel ->
  exists s, do_while fuel blob
              {| scan_i := i; scan_balance := 0; scan_inner := "" |} = Some s
    /\ scan_balance s = 0
    /\ balanced (scan_inner s) = true
    /\ balanced_from d (drop_chars (Z.to_nat (scan_i s)) blob) = true
    /\ i < scan_i s <= blob_length blob
    /\ Z.of_nat (String.length (scan_inner s)) + 2 <= scan_i s - i.
Proof.
  intros Hjs Hi Htok Hbal Hf.
  destruct (do_while_open blob Hjs fuel i Hi Htok Hf)
    as (s & Hs & Hrange & Hinner).
  exists s. split; [exact Hs|].
  destruct fuel as [|fuel]; [lia|]. cbn [do_while] in Hs.
  assert (Hbody : scan_body blob
            {| scan_i := i; scan_balance := 0; scan_inner := "" |}
          = {| scan_i := i + 1; scan_balance := 1; scan_inner := "" |}).
  { unfold scan_body. cbn [scan_i scan_balance scan_inner]. rewrite Htok.
    rewrite (js_incr_exact i) by lia. reflexivity. }
  rewrite Hbody in Hs. cbn [scan_i scan_balance scan_inner] in Hs.
  change (negb (1 =? 0)) with true in Hs. cbn [andb] in Hs.
  pose proof (balanced_from_length _ _ Hbal) as Hr.
  rewrite length_drop_chars in Hr.
  destruct (Z.ltb_spec (i + 1) (blob_length blob)) as [_|];
    [|unfold blob_length in *; lia].
  destruct (do_while_balanced blob fuel
              {| scan_i := i + 1; scan_balance := 1; scan_inner := "" |}
              1%nat d Hjs)
    as (s' & inner1 & Hs' & Hz & Hin & Hbin & Hrest & _);
    cbn [scan_i scan_balance scan_inner]; try lia; try reflexivity.
  { now rewrite Nat.add_1_r. }
  assert (s' = s) as -> by congruence.
  cbn [scan_inner] in Hin. change ("" ++ inner1)%string with inner1 in Hin.
  split; [exact Hz|]. split; [now rewrite Hin|]. split; [exact Hrest|].
  split; [exact Hrange | now apply Hinner].
Qed.

(** [parse] succeeds on every source whose loop-starts are all closed,
    whatever loop-stops it has besides. *)
Lemma for_loop_closable (fuel : nat) :
  forall (blob : string) (i : Z) (acc : list node),
  blob_length blob < two_53 -> 0 <= i ->
  blob_length blob - i + 1 <= Z.of_nat fuel -> 1 <= Z.of_nat fuel ->
  closable (drop_chars (Z.to_nat i) blob) ->
  exists l, for_loop fuel blob i acc = Some {| res := Some l; error := "" |}.
Proof.
  induction fuel as [|fuel IH]; intros blob i acc Hjs Hi Hf H1 Hclos; [lia|].
  cbn [for_loop].
  destruct (Z.ltb_spec i (blob_length blob)) as [Hlt|Hge]; [|eauto].
  pose proof (closable_drop_S _ _ Hclos) as Hclos'.
  replace (S (Z.to_nat i)) with (Z.to_nat (i + 1)) in Hclos' by lia.
  destruct (is_token (char_at blob i) TOKEN_LOOP_START) eqn:Htok.
  - destruct Hclos as [d Hd].
    destruct (drop_chars (Z.to_nat i) blob) as [|c r] eqn:Hrest.
    { pose proof (length_drop_chars (Z.to_nat i) blob) as Hl.
      rewrite Hrest in Hl. cbn in Hl. unfold blob_length in *. lia. }
    rewrite (char_at_drop_chars blob i c r Hi Hrest) in Htok.
    cbn [is_token] in Htok. cbn [balanced_from] in Hd. rewrite Htok in Hd.
    pose proof (drop_chars_S _ _ _ _ Hrest) as Hnext.
    replace (S (Z.to_nat i)) with (Z.to_nat (i + 1)) in Hnext by lia.
    rewrite <- Hnext in Hd.
    destruct (do_while_open_balanced blob fuel i d Hjs) as
      (s & Hs & Hz & Hinner & Hafter & Hrange & Hshort); try lia; try easy.
    { now rewrite (char_at_drop_chars blob i c r Hi Hrest). }
    rewrite Hs, Hz. cbn [Z.eqb negb].
    destruct (IH (scan_inner s) 0 []) as [l Hl];
      unfold blob_length in *; try lia.
    { now exists 0%nat. }
    rewrite Hl. cbn [error res inner_node String.eqb negb].
    rewrite (js_incr_exact (scan_i s)) by lia.
    apply IH; try lia.
    replace (Z.to_nat (scan_i s + 1)) with (S (Z.to_nat (scan_i s))) by lia.
    apply closable_drop_S. now exists d.
  - rewrite (js_incr_exact i) by lia. apply IH; try lia. exact Hclos'.
Qed.

Lemma parse_closable_succeeds (blob : string) :
  blob_length blob < two_53 -> closable blob ->
  exists l, parse blob = Some {| res := Some l; error := "" |}.
Proof.
  intros Hjs Hclos. apply for_loop_closable; unfold blob_length in *;
    try lia. exact Hclos.
Qed.

(** In particular [parse] succeeds on every balanced source. *)
Lemma parse_balanced_succeeds (blob : string) :
  blob_length blob < two_53 -> balanced blob = true ->
  exists l, parse blob = Some {| res := Some l; error := "" |}.
Proof.
  intros Hjs Hbal. apply parse_closable_succeeds; [exact Hjs|].
  now exists 0%nat.
Qed.

(** *** Claims *)

(** C9.  [parse] terminates on every input string (a JavaScript string is
    shorter than 2^53): with the length of the blob plus one as fuel it
    returns one of its two shapes of object, and any fuel that gives a
    result gives that one.  The measure: the index of the main scan goes
    up at every iteration ([i < js_incr i], and past a loop
    [i < scan_i s < js_incr (scan_i s)]), and the inner blob handed to the
    recursive call is shorter than the caller's blob by the two outermost
    delimiters at least. *)
Theorem parse_terminates (blob : string) :
  blob_length blob < two_53 ->
  (exists r, parse blob = Some r /\ well_formed r
     /\ forall fuel r', parse_fuel fuel blob = Some r' -> r' = r)
  /\ (forall i, 0 <= i < blob_length blob -> i < js_incr i)
  /\ (forall fuel i s,
       0 <= i < blob_length blob ->
       is_token (char_at blob i) TOKEN_LOOP_START = true ->
       do_while fuel blob
         {| scan_i := i; scan_balance := 0; scan_inner := "" |} = Some s ->
       i < scan_i s < js_incr (scan_i s)
       /\ (scan_balance s = 0 ->
           (String.length (scan_inner s) + 2 <= String.length blob)%nat)).
Proof.
  intros Hjs. split; [|split].
  - destruct (for_loop_returns (S (String.length blob)) blob 0 [] Hjs)
      as (r & Hr & Hwf); unfold blob_length in *; try lia.
    exists r. split; [exact Hr|]. split; [exact Hwf|].
    intros fuel r' Hr'. unfold parse_fuel in Hr'.
    apply (for_loop_mono _ (max fuel (S (String.length blob)))) in Hr'; [|lia].
    apply (for_loop_mono _ (max fuel (S (String.length blob)))) in Hr; [|lia].
    congruence.
  - intros i Hi. rewrite js_incr_exact by lia. lia.
  - intros fuel i s Hi Htok Hs.
    set (big := max fuel (Z.to_nat (blob_length blob - i))).
    destruct (do_while_open blob Hjs big i Hi Htok ltac:(lia))
      as (s' & Hs' & Hrange & Hinner).
    apply (do_while_mono _ big) in Hs; [|lia].
    assert (s' = s) as -> by congruence.
    rewrite js_incr_exact by lia. split; [lia|].
    intros Hz. specialize (Hinner Hz). unfold blob_length in *. lia.
Qed.

Lemma parse_terminates_witness :
  (exists r, parse "+[-]" = Some r /\ well_formed r
     /\ forall fuel r', parse_fuel fuel "+[-]" = Some r' -> r' = r)
  /\ (forall i, 0 <= i < blob_length "+[-]" -> i < js_incr i)
  /\ (forall fuel i s,
       0 <= i < blob_length "+[-]" ->
       is_token (char_at "+[-]" i) TOKEN_LOOP_START = true ->
       do_while fuel "+[-]"
         {| scan_i := i; scan_balance := 0; scan_inner := "" |} = Some s ->
       i < scan_i s < js_incr (scan_i s)
       /\ (scan_balance s = 0 ->
           (String.length (scan_inner s) + 2 <= String.length "+[-]")%nat)).
Proof. apply (parse_terminates "+[-]"). reflexivity. Defined.

(** C5.  [parse("[")], [parse("[[]")] and [parse("++[--")] return the
    unterminated-loop error; [parse("[]")] and [parse("[[][]]")] return a
    result with an empty [error]. *)
Theorem parse_unterminated_detection :
  parse "[" = Some unterminated
  /\ parse "[[]" = Some unterminated
  /\ parse "++[--" = Some unterminated
  /\ error unterminated = "unterminated loop"
  /\ parse "[]" = Some {| res := Some [Seq []]; error := "" |}
  /\ parse "[[][]]"
     = Some {| res := Some [Seq [Seq []; Leaf (Some TOKEN_LOOP_STOP)]];
               error := "" |}.
Proof. repeat split; reflexivity. Qed.

(** C1 (the code departs from the claim).  The claim: on a balanced source
    [parse] succeeds and the elements of its result are as many as the
    top-level characters that are no loop delimiters plus the top-level
    loop-starts, no character being dropped.  The code on ["[]+"], which
    is balanced: the scan of the loop ends with [i] one past the loop-stop
    and the [i++] of the [for] loop moves it once more, so the [+] is
    dropped; the result has 1 element where the source has 2 top-level
    units, and accounts for 2 of the 3 characters. *)
Theorem parse_drops_char_after_loop :
  balanced "[]+" = true
  /\ exists l,
       parse "[]+" = Some {| res := Some l; error := "" |}
       /\ l = [Seq []]
       /\ length l = 1%nat /\ top_level_count "[]+" = 2%nat
       /\ tree_chars l = 2%nat /\ String.length "[]+" = 3%nat.
Proof. split; [reflexivity|]. exists [Seq []]. repeat split; reflexivity. Qed.

(** C8 (the code departs from the claim).  The claim: every loop-stop
    outside a loop-start scan becomes a leaf of the current sequence.  The
    code on ["[]]"]: the scan of the loop ends at index 2, on the stray
    loop-stop, and the [i++] of the [for] loop steps over it; [parse]
    succeeds, but the result holds the loop only and no leaf. *)
Theorem parse_drops_stop_after_loop :
  parse "[]]" = Some {| res := Some [Seq []]; error := "" |}
  /\ parse "]" = Some {| res := Some [Leaf (Some TOKEN_LOOP_STOP)]; error := "" |}.
Proof. split; reflexivity. Qed.

End ParserSpec.

(** ** The evaluator *)

Module EvaluatorSpec.
Import Evaluator.

(** Closes a goal [x = y] between closed terms by evaluating [x]. *)
Ltac by_evaluation :=
  lazymatch goal with
  | |- @eq ?A _ ?y => vm_cast_no_check (@eq_refl A y)
  end.

(** *** Runs *)

Lemma run_mono (fuel : nat) :
  forall (fuel' : nat) (blob : string) (s : state) (r : eval_result),
  run fuel blob s = Some r -> (fuel <= fuel')%nat -> run fuel' blob s = Some r.
Proof.
  induction fuel as [|fuel IH]; intros fuel' blob s r H Hle; [discriminate|].
  destruct fuel' as [|fuel']; [lia|]. cbn [run] in *.
  destruct (step blob s); [apply IH; [exact H | lia] | exact H].
Qed.

(** [eval] returns at most one result. *)
Lemma evaluates_unique (blob : string) (r1 r2 : eval_result) :
  evaluates blob r1 -> evaluates blob r2 -> r1 = r2.
Proof.
  intros [f1 H1] [f2 H2]. unfold eval in *.
  apply (run_mono _ (max f1 f2)) in H1; [|lia].
  apply (run_mono _ (max f1 f2)) in H2; [|lia].
  congruence.
Qed.

Lemma run_steps (n : nat) :
  forall (fuel : nat) (blob : string) (s s' : state),
  steps n blob s = Some s' -> run (n + fuel) blob s = run fuel blob s'.
Proof.
  induction n as [|n IH]; intros fuel blob s s' H; cbn [steps] in H.
  - now inversion H.
  - cbn [Nat.add run]. destruct (step blob s); [now apply IH | discriminate].
Qed.

Lemma run_before_steps (n : nat) :
  forall (fuel : nat) (blob : string) (s s' : state),
  steps n blob s = Some s' -> (fuel <= n)%nat -> run fuel blob s = None.
Proof.
  induction n as [|n IH]; intros fuel blob s s' H Hle.
  - now replace fuel with O by lia.
  - destruct fuel as [|fuel]; [reflexivity|]. cbn [steps run] in *.
    destruct (step blob s); [|discriminate]. apply (IH _ _ _ _ H). lia.
Qed.

(** From [s] on [eval] never returns when [n] steps lead to a state from
    which it never returns. *)
Lemma run_diverges_after (n : nat) (blob : string) (s s' : state) :
  steps n blob s = Some s' -> (forall fuel, run fuel blob s' = None) ->
  forall fuel, run fuel blob s = None.
Proof.
  intros H Hdiv fuel. destruct (Nat.le_gt_cases fuel n) as [Hle|Hgt].
  - now apply (run_before_steps n _ _ _ s').
  - replace fuel with (n + (fuel - n))%nat by lia.
    rewrite (run_steps n _ _ _ _ H). apply Hdiv.
Qed.

(** *** The backward scan *)

(** A backward scan that has a loop-stop behind it and no loop-start at or
    before its index goes on for ever: the balance stays negative, and
    the index, which only goes down, stays below [blob.length]. *)
Lemma scan_backward_diverges (blob : string) (fuel : nat) :
  forall s : state,
  pc s = ScanBackward -> balance s < 0 -> i s < blob_length blob ->
  (forall j, j <= i s -> is_token (char_at blob j) TOKEN_LOOP_START = false) ->
  run fuel blob s = None.
Proof.
  induction fuel as [|fuel IH]; intros s Hpc Hbal Hi Hno; [reflexivity|].
  cbn [run]. unfold step. rewrite Hpc. unfold scan_test, scan_balance.
  rewrite (Hno (i s)) by lia.
  pose proof (js_decr_le (i s)) as Hdec.
  pose proof (js_decr_le (balance s)) as Hdecb.
  set (b' := if is_token (char_at blob (i s)) TOKEN_LOOP_STOP
             then js_decr (balance s) else balance s).
  assert (Hb' : b' < 0) by (unfold b'; destruct (is_token _ _); lia).
  destruct (Z.eqb_spec b' 0) as [E|_]; [lia|]. cbn [negb andb].
  destruct (Z.ltb_spec (js_decr (i s)) (blob_length blob)) as [_|Hge]; [|lia].
  apply IH; cbn [pc balance i]; try easy; try lia.
  intros j Hj. apply Hno. lia.
Qed.

(** *** Single steps *)

(** A character that is no token only moves the [for] loop on. *)
Lemma step_other_char (blob : string) (s : state) (a : ascii) :
  pc s = ForTest -> i s < blob_length blob ->
  char_at blob (i s) = Some a -> is_command a = false ->
  step blob s = Continue (next_iteration s).
Proof.
  intros Hpc Hi Hc Hcmd. unfold step. rewrite Hpc, Hc.
  destruct (Z.ltb_spec (i s) (blob_length blob)) as [_|]; [|lia].
  unfold is_command in Hcmd. cbn [existsb] in Hcmd.
  repeat (apply orb_false_iff in Hcmd; destruct Hcmd as [?E Hcmd]).
  cbn [is_token]. now rewrite E, E0, E1, E2, E3, E4, E5, E6.
Qed.

(** A loop-stop met while the current cell is not above zero resets the
    balance and moves the [for] loop on: no scan, no error. *)
Lemma step_loop_stop_falls_through (blob : string) (s : state) :
  pc s = ForTest -> i s < blob_length blob ->
  char_at blob (i s) = Some TOKEN_LOOP_STOP ->
  num_is_pos (array_get (mem s) (datPtr s)) = false ->
  step blob s = Continue (next_iteration (reset_balance s ForTest)).
Proof.
  intros Hpc Hi Hc Hpos. unfold step. rewrite Hpc, Hc, Hpos.
  destruct (Z.ltb_spec (i s) (blob_length blob)) as [_|]; [|lia].
  reflexivity.
Qed.

(** A loop-start met while the current cell is not zero moves the [for]
    loop on to the first character of the body. *)
Lemma step_loop_start_falls_through (blob : string) (s : state) :
  pc s = ForTest -> i s < blob_length blob ->
  char_at blob (i s) = Some TOKEN_LOOP_START ->
  num_is_zero (array_get (mem s) (datPtr s)) = false ->
  step blob s = Continue (next_iteration (reset_balance s ForTest)).
Proof.
  intros Hpc Hi Hc Hz. unfold step. rewrite Hpc, Hc, Hz.
  destruct (Z.ltb_spec (i s) (blob_length blob)) as [_|]; [|lia].
  reflexivity.
Qed.

(** *** The tape *)

Lemma tape_length_eq : Z.of_nat tape_length = 30000.
Proof. reflexivity. Qed.

Lemma is_array_index_tape (k : Z) : 0 <= k < 30000 -> is_array_index k = true.
Proof.
  intros H. unfold is_array_index. change (2 ^ 32 - 1) with 4294967295.
  destruct (Z.leb_spec 0 k); [|lia]. destruct (Z.ltb_spec k 4294967295); [easy|lia].
Qed.

Lemma is_array_index_nonneg (k : Z) : is_array_index k = true -> 0 <= k.
Proof.
  unfold is_array_index. destruct (Z.leb_spec 0 k); [easy | discriminate].
Qed.

Lemma fresh_mem_shape : tape_shape fresh_mem.
Proof.
  split; cbn [fresh_mem elems].
  - apply length_replicate.
  - apply Forall_replicate. eauto.
Qed.

Lemma fresh_mem_get (k : Z) :
  0 <= k < 30000 -> array_get fresh_mem k = Some (Num 0).
Proof.
  intros H. unfold array_get. rewrite is_array_index_tape by exact H.
  cbn [fresh_mem elems]. rewrite lookup_replicate_2; [reflexivity|].
  pose proof tape_length_eq. lia.
Qed.

Lemma tape_shape_get (a : jsarray) (k : Z) :
  tape_shape a -> 0 <= k < 30000 -> exists z, array_get a k = Some (Num z).
Proof.
  intros [Hlen Hall] Hk. unfold array_get.
  rewrite is_array_index_tape by exact Hk.
  pose proof tape_length_eq as Ht.
  destruct (lookup_lt_is_Some_2 (elems a) (Z.to_nat k) ltac:(lia)) as [c Hc].
  rewrite Hc. cbn.
  rewrite Forall_lookup in Hall. destruct (Hall _ _ Hc) as [z ->]. eauto.
Qed.

(** A write below the length of the tape keeps the 30000 integer cells:
    an index in range replaces an integer by an integer, and a negative
    one is no array index and leaves the elements alone. *)
Lemma array_set_shape (a : jsarray) (k : Z) (f : option jsnum -> jsnum) :
  (forall z, exists z', f (Some (Num z)) = Num z') ->
  tape_shape a -> k < 30000 ->
  tape_shape (array_set a k (f (array_get a k))).
Proof.
  intros Hf Hshape Hk. unfold array_set.
  destruct (is_array_index k) eqn:Hidx; [|exact Hshape].
  apply is_array_index_nonneg in Hidx.
  destruct (tape_shape_get a k Hshape ltac:(lia)) as [z ->].
  destruct (Hf z) as [z' ->].
  destruct Hshape as [Hlen Hall]. pose proof tape_length_eq as Ht.
  destruct (Nat.ltb_spec (Z.to_nat k) (length (elems a))) as [_|]; [|lia].
  split; cbn [elems].
  - now rewrite length_insert.
  - apply Forall_insert; eauto.
Qed.

(** A write to another key leaves an existing cell as it is. *)
Lemma array_get_set_other (a : jsarray) (k j : Z) (v : jsnum) :
  j <> k -> 0 <= j -> (Z.to_nat j < length (elems a))%nat ->
  array_get (array_set a k v) j = array_get a j.
Proof.
  intros Hne Hj Hlt. unfold array_get, array_set.
  destruct (is_array_index k) eqn:Hk; destruct (is_array_index j) eqn:Hjx;
    cbn [elems props]; try reflexivity.
  - apply is_array_index_nonneg in Hk.
    destruct (Nat.ltb_spec (Z.to_nat k) (length (elems a))); cbn [elems].
    + rewrite list_lookup_insert_ne by lia. reflexivity.
    + rewrite lookup_app_l by exact Hlt. reflexivity.
  - destruct (Z.to_nat k <? length (elems a))%nat; reflexivity.
  - rewrite lookup_insert_ne by congruence. reflexivity.
Qed.

(** A write never shortens the array. *)
Lemma array_set_length (a : jsarray) (k : Z) (v : jsnum) :
  (length (elems a) <= length (elems (array_set a k v)))%nat.
Proof.
  unfold array_set. destruct (is_array_index k); [|reflexivity].
  destruct (Z.to_nat k <? length (elems a))%nat; cbn [elems].
  - now rewrite length_insert.
  - rewrite length_app. lia.
Qed.

(** After a write at an array index the array reaches past that index. *)
Lemma array_set_index_length (a : jsarray) (k : Z) (v : jsnum) :
  is_array_index k = true ->
  k < Z.of_nat (length (elems (array_set a k v))).
Proof.
  intros Hk. unfold array_set. rewrite Hk.
  apply is_array_index_nonneg in Hk.
  destruct (Nat.ltb_spec (Z.to_nat k) (length (elems a))); cbn [elems].
  - rewrite length_insert. lia.
  - rewrite !length_app, length_replicate. cbn [length]. lia.
Qed.

(** *** The tape along a run *)

Section Tape.
Variable blob : string.

Lemma num_incr_int (z : Z) : exists z', num_incr (Some (Num z)) = Num z'.
Proof. cbn. eauto. Qed.

Lemma num_decr_int (z : Z) : exists z', num_decr (Some (Num z)) = Num z'.
Proof. cbn. eauto. Qed.

(** Every step but an increment or a decrement leaves [mem] as it is. *)
Lemma step_keeps_mem (s s' : state) :
  step blob s = Continue s' -> writes_cell blob s = false -> mem s' = mem s.
Proof.
  unfold step, writes_cell, scan_test. intros H Hw.
  destruct (pc s).
  - destruct (i s <? blob_length blob); [|discriminate]. cbn [andb] in Hw.
    apply orb_false_iff in Hw as [Hw1 Hw2]. rewrite Hw1, Hw2 in H.
    repeat match type of H with
           | (if ?b then _ else _) = _ => destruct b
           end; inversion H; reflexivity.
  - repeat match type of H with
           | (if ?b then _ else _) = _ => destruct b
           end; inversion H; reflexivity.
  - repeat match type of H with
           | (if ?b then _ else _) = _ => destruct b
           end; inversion H; reflexivity.
Qed.

(** An increment or a decrement writes the cell under the data pointer. *)
Lemma step_writes_mem (s s' : state) :
  step blob s = Continue s' -> writes_cell blob s = true ->
  mem s' = array_set (mem s) (datPtr s) (num_incr (array_get (mem s) (datPtr s)))
  \/ mem s' = array_set (mem s) (datPtr s) (num_decr (array_get (mem s) (datPtr s))).
Proof.
  unfold step, writes_cell. intros H Hw.
  destruct (pc s); try discriminate.
  destruct (i s <? blob_length blob); [|discriminate]. cbn [andb] in Hw.
  destruct (is_token (char_at blob (i s)) TOKEN_INCR).
  - inversion H. now left.
  - cbn [orb] in Hw. rewrite Hw in H. inversion H. now right.
Qed.

Lemma step_return_mem (s : state) (r : eval_result) (m : jsarray) :
  step blob s = Return r -> res_mem r = Some m -> m = mem s.
Proof.
  unfold step, scan_test. intros H Hm.
  destruct (pc s);
    repeat match type of H with
           | (if ?b then _ else _) = _ => destruct b
           end; inversion H; subst r; cbn in Hm; congruence.
Qed.

Lemma step_shape (s s' : state) :
  step blob s = Continue s' ->
  implb (writes_cell blob s) (datPtr s <? 30000) = true ->
  tape_shape (mem s) -> tape_shape (mem s').
Proof.
  intros H Hb Hshape. destruct (writes_cell blob s) eqn:Hw.
  - cbn [implb] in Hb. apply Z.ltb_lt in Hb.
    destruct (step_writes_mem s s' H Hw) as [-> | ->].
    + now apply array_set_shape; [apply num_incr_int | |].
    + now apply array_set_shape; [apply num_decr_int | |].
  - now rewrite (step_keeps_mem s s' H Hw).
Qed.

Lemma step_untouched (s s' : state) (k : Z) :
  step blob s = Continue s' -> touches blob k s = false ->
  0 <= k -> (Z.to_nat k < length (elems (mem s)))%nat ->
  array_get (mem s') k = array_get (mem s) k.
Proof.
  intros H Ht Hk Hlt. unfold touches in Ht.
  destruct (writes_cell blob s) eqn:Hw.
  - cbn [andb] in Ht. apply Z.eqb_neq in Ht.
    destruct (step_writes_mem s s' H Hw) as [-> | ->];
      now apply array_get_set_other.
  - now rewrite (step_keeps_mem s s' H Hw).
Qed.

(** Along a run whose writes are all below the length of the tape, the
    array keeps its 30000 integer cells, and a cell that no step writes
    keeps its value. *)
Lemma run_tape (fuel : nat) :
  forall (s : state) (r : eval_result) (m : jsarray),
  run fuel blob s = Some r -> res_mem r = Some m ->
  forallb (fun s => implb (writes_cell blob s) (datPtr s <? 30000))
          (trace fuel blob s) = true ->
  tape_shape (mem s) ->
  tape_shape m
  /\ (forall k, 0 <= k < 30000 ->
       existsb (touches blob k) (trace fuel blob s) = false ->
       array_get m k = array_get (mem s) k).
Proof.
  induction fuel as [|fuel IH]; intros s r m Hrun Hm Hall Hshape;
    [discriminate|].
  cbn [run trace forallb] in *.
  apply andb_true_iff in Hall as [Hhere Hrest].
  destruct (step blob s) as [s'|r'] eqn:Hstep.
  - destruct (IH s' r m Hrun Hm Hrest (step_shape s s' Hstep Hhere Hshape))
      as [Hm' Hcells].
    split; [exact Hm'|]. intros k Hk Hex. cbn [existsb] in Hex.
    apply orb_false_iff in Hex as [Hex1 Hex2].
    rewrite (Hcells k Hk Hex2).
    apply step_untouched; try easy; try lia.
    destruct Hshape as [Hlen _]. pose proof tape_length_eq. lia.
  - inversion Hrun; subst r'.
    rewrite (step_return_mem s r m Hstep Hm). now split.
Qed.

(** No step shortens the array. *)
Lemma step_length (s s' : state) :
  step blob s = Continue s' ->
  (length (elems (mem s)) <= length (elems (mem s')))%nat.
Proof.
  intros H. destruct (writes_cell blob s) eqn:Hw.
  - destruct (step_writes_mem s s' H Hw) as [-> | ->];
      apply array_set_length.
  - now rewrite (step_keeps_mem s s' H Hw).
Qed.

Lemma run_length (fuel : nat) :
  forall (s : state) (r : eval_result) (m : jsarray),
  run fuel blob s = Some r -> res_mem r = Some m ->
  (length (elems (mem s)) <= length (elems m))%nat.
Proof.
  induction fuel as [|fuel IH]; intros s r m Hrun Hm; [discriminate|].
  cbn [run] in Hrun. destruct (step blob s) as [s'|r'] eqn:Hstep.
  - etransitivity; [exact (step_length s s' Hstep) | exact (IH _ _ _ Hrun Hm)].
  - inversion Hrun; subst r'. now rewrite (step_return_mem s r m Hstep Hm).
Qed.

(** A run that returns goes on from every state it reaches. *)
Lemma run_reached (n : nat) :
  forall (fuel : nat) (s0 s : state) (r : eval_result),
  steps n blob s0 = Some s -> run fuel blob s0 = Some r ->
  run (fuel - n) blob s = Some r.
Proof.
  induction n as [|n IH]; intros fuel s0 s r Hs Hrun; cbn [steps] in Hs.
  - inversion Hs; subst. now rewrite Nat.sub_0_r.
  - destruct fuel as [|fuel]; [discriminate|]. cbn [run] in Hrun.
    cbn [Nat.sub].
    destruct (step blob s0); [exact (IH _ _ _ _ Hs Hrun) | discriminate].
Qed.

(** The array that a run returns reaches past every array index at which
    a step of the run has written. *)
Lemma run_write_length (n fuel : nat) (s : state) (r : eval_result)
    (m : jsarray) :
  steps n blob init = Some s -> run fuel blob init = Some r ->
  res_mem r = Some m -> writes_cell blob s = true ->
  is_array_index (datPtr s) = true ->
  datPtr s < Z.of_nat (length (elems m)).
Proof.
  intros Hs Hrun Hm Hw Hidx.
  pose proof (run_reached n fuel init s r Hs Hrun) as Hrun'.
  destruct (fuel - n)%nat as [|f]; [discriminate|]. cbn [run] in Hrun'.
  destruct (step blob s) as [s'|r'] eqn:Hstep.
  - pose proof (run_length f s' r m Hrun' Hm) as Hlen.
    assert (Hp : datPtr s < Z.of_nat (length (elems (mem s')))).
    { destruct (step_writes_mem s s' Hstep Hw) as [-> | ->];
        now apply array_set_index_length. }
    lia.
  - unfold step, writes_cell in *. destruct (pc s); try discriminate.
    destruct (i s <? blob_length blob); [|discriminate].
    repeat match type of Hstep with
           | (if ?b then _ else _) = _ => destruct b
           end; discriminate.
Qed.

End Tape.

(** *** A row of move-rights *)

Lemma get_repeat_char (n : nat) (c : ascii) (rest : string) (k : nat) :
  (k < n)%nat -> String.get k (repeat_char n c ++ rest) = Some c.
Proof.
  revert k; induction n as [|n IH]; intros k Hk; [lia|].
  destruct k as [|k]; cbn; [reflexivity | apply IH; lia].
Qed.

Lemma length_repeat_char (n : nat) (c : ascii) :
  String.length (repeat_char n c) = n.
Proof. induction n as [|n IH]; cbn; [reflexivity | now rewrite IH]. Qed.

(** [d] move-rights in a row take the index and the data pointer [d]
    further and leave the rest of the state alone. *)
Lemma steps_move_right (n : nat) (rest : string) (d : nat) :
  forall (k p b : Z) (m : jsarray) (out : list Z),
  0 <= k -> k + Z.of_nat d <= Z.of_nat n -> Z.of_nat n < two_53 ->
  p + Z.of_nat d <= two_53 ->
  steps d (repeat_char n TOKEN_RIGHT ++ rest)
    {| pc := ForTest; i := k; balance := b; datPtr := p; mem := m;
       programOutput := out |}
  = Some {| pc := ForTest; i := k + Z.of_nat d; balance := b;
            datPtr := p + Z.of_nat d; mem := m; programOutput := out |}.
Proof.
  induction d as [|d IH]; intros k p b m out Hk Hd Hn Hp; cbn [steps].
  - now rewrite !Z.add_0_r.
  - unfold step. cbn [pc i].
    unfold blob_length. rewrite length_append, length_repeat_char.
    destruct (Z.ltb_spec k (Z.of_nat (n + String.length rest))); [|lia].
    unfold char_at. destruct (Z.ltb_spec k 0); [lia|].
    rewrite get_repeat_char by lia. cbn [is_token].
    change (Ascii.eqb TOKEN_RIGHT TOKEN_INCR) with false.
    change (Ascii.eqb TOKEN_RIGHT TOKEN_DECR) with false.
    change (Ascii.eqb TOKEN_RIGHT TOKEN_RIGHT) with true.
    cbn iota. unfold next_iteration, set_datPtr.
    cbn [pc i balance datPtr mem programOutput].
    rewrite (js_incr_exact k), (js_incr_exact p) by lia.
    rewrite IH; [|lia..]. do 2 f_equal; lia.
Qed.

(** The 30000 move-rights of [overrun_source] take the data pointer to the
    end of the tape. *)
Lemma overrun_reaches_end :
  steps tape_length overrun_source init
  = Some {| pc := ForTest; i := 30000; balance := 0; datPtr := 30000;
            mem := fresh_mem; programOutput := [] |}.
Proof.
  pose proof tape_length_eq as Ht. unfold overrun_source, init.
  assert (H53 : two_53 = 9007199254740992) by reflexivity.
  rewrite steps_move_right; [|lia..].
  rewrite Ht. reflexivity.
Qed.

Lemma overrun_returns :
  eval (tape_length + 2) overrun_source
  = Some (returned 30000 [] overrun_mem).
Proof.
  unfold eval. rewrite (run_steps _ _ _ _ _ overrun_reaches_end).
  by_evaluation.
Qed.

(** *** Claims *)

(** C2 (the code departs from the claim).  The claim: on [+]] the
    backward scan runs off the start of the source and [eval] returns the
    unterminated-loop error.  The code: the test of the backward
    [do ... while] is [i < blob.length], which stays true while [i] goes
    down, so the scan never ends and [eval] returns nothing at all. *)
Theorem eval_stray_stop_never_returns :
  diverges "+]" /\ (forall r, ~ evaluates "+]" r).
Proof.
  assert (Hdiv : diverges "+]").
  { intros fuel. unfold eval.
    apply (run_diverges_after 3 "+]" init
             {| pc := ScanBackward; i := 0; balance := -1; datPtr := 0;
                mem := array_set fresh_mem 0 (Num 1); programOutput := [] |}).
    - by_evaluation.
    - intros f. apply scan_backward_diverges; cbn [pc balance i];
        try reflexivity.
      intros j Hj. unfold char_at.
      destruct (Z.ltb_spec j 0); [reflexivity|].
      now replace j with 0 by lia. }
  split; [exact Hdiv|].
  intros r [fuel H]. now rewrite Hdiv in H.
Qed.

(** C3 (the code departs from the claim).  The claim: after the skip of a
    loop whose cell is 0 the character right after the matching loop-stop
    runs next, so that [eval("[]+")] leaves 1 in cell 0.  The code: the
    forward scan ends with [i] one past the loop-stop and the [i++] of
    the [for] loop moves it once more; three steps after the start the
    index is 3, the [+] at index 2 has not run, and cell 0 is 0 in the
    result. *)
Theorem eval_skips_char_after_loop :
  steps 3 "[]+" init
  = Some {| pc := ForTest; i := 3; balance := 0; datPtr := 0;
            mem := fresh_mem; programOutput := [] |}
  /\ evaluates "[]+" (returned 0 [] fresh_mem)
  /\ array_get fresh_mem 0 = Some (Num 0).
Proof.
  split; [by_evaluation|]. split; [exists 10%nat; by_evaluation | by_evaluation].
Qed.

(** C4, as amended.  When [eval] returns a result and the data pointer is
    below 30000 at every increment and decrement of the run, the returned
    [mem] has exactly 30000 cells, each cell holds an integer, and each
    cell that no step of the run writes holds 0.  (A negative data pointer
    is no array index: such a write adds a property to the array object
    and leaves its 30000 elements alone.)  And when an increment or a
    decrement of the run executes with the data pointer at [p], with
    [30000 <= p < 2^32 - 1], the returned [mem] has more than [p]
    elements, so more than 30000. *)
Theorem eval_memory_shape (blob : string) (fuel : nat)
    (r : eval_result) (m : jsarray) :
  eval fuel blob = Some r -> res_mem r = Some m ->
  (writes_below_tape fuel blob = true ->
   length (elems m) = tape_length
   /\ Forall (fun c => exists z, c = Some (Num z)) (elems m)
   /\ (forall k, 0 <= k < 30000 -> touched fuel blob k = false ->
        array_get m k = Some (Num 0)))
  /\ (forall (n : nat) (s : state),
       steps n blob init = Some s -> writes_cell blob s = true ->
       30000 <= datPtr s < 2 ^ 32 - 1 ->
       datPtr s < Z.of_nat (length (elems m))
       /\ (tape_length < length (elems m))%nat).
Proof.
  intros Hrun Hm. split.
  - intros Hbelow.
    destruct (run_tape blob fuel init r m Hrun Hm Hbelow fresh_mem_shape)
      as [[Hlen Hall] Hcells].
    split; [exact Hlen|]. split; [exact Hall|].
    intros k Hk Hk'. rewrite (Hcells k Hk Hk'). now apply fresh_mem_get.
  - intros n s Hs Hw Hp.
    assert (Hidx : is_array_index (datPtr s) = true).
    { unfold is_array_index. apply andb_true_iff.
      split; [apply Z.leb_le | apply Z.ltb_lt]; lia. }
    pose proof (run_write_length blob n fuel s r m Hs Hrun Hm Hw Hidx) as Hlen.
    pose proof tape_length_eq. split; [exact Hlen | lia].
Qed.

Lemma eval_memory_shape_witness :
  (length (elems (tape_with 1 3)) = tape_length
   /\ Forall (fun c => exists z, c = Some (Num z)) (elems (tape_with 1 3))
   /\ (forall k, 0 <= k < 30000 -> touched 100 "+++[>+<-]" k = false ->
        array_get (tape_with 1 3) k = Some (Num 0)))
  /\ (30000 < Z.of_nat (length (elems overrun_mem))
      /\ (tape_length < length (elems overrun_mem))%nat).
Proof.
  split.
  - apply (eval_memory_shape "+++[>+<-]" 100
             (returned 0 [] (tape_with 1 3)) (tape_with 1 3));
      first [by_evaluation | reflexivity].
  - apply (proj2 (eval_memory_shape overrun_source (tape_length + 2)
                    (returned 30000 [] overrun_mem) overrun_mem
                    overrun_returns eq_refl)
             tape_length
             {| pc := ForTest; i := 30000; balance := 0; datPtr := 30000;
                mem := fresh_mem; programOutput := [] |}
             overrun_reaches_end).
    + by_evaluation.
    + split; [discriminate | reflexivity].
Defined.

(** C4, the claim as stated fails: 30000 move-rights take the data pointer
    to 30000, and the increment there makes [mem] 30001 cells long, the
    last one holding [NaN]; [eval] returns that array with an empty
    [error]. *)
Lemma eval_extends_tape :
  exists m,
    evaluates overrun_source (returned 30000 [] m)
    /\ length (elems m) = S tape_length
    /\ array_get m 30000 = Some NaN.
Proof.
  exists {| elems := replicate tape_length (Some (Num 0)) ++ [Some NaN];
            props := ∅ |}.
  split; [|split].
  - exists (tape_length + 2)%nat. unfold eval.
    rewrite (run_steps _ _ _ _ _ overrun_reaches_end).
    by_evaluation.
  - cbn [elems]. rewrite length_app, length_replicate. cbn [length]. lia.
  - by_evaluation.
Qed.

(** C6.  [eval("+++[>+<-]")] returns with an empty [error], the data
    pointer at 0, no output, 0 in cell 0, 3 in cell 1 and 0 in every
    other cell of the 30000. *)
Theorem eval_copy_loop :
  exists m,
    evaluates "+++[>+<-]" (returned 0 [] m)
    /\ length (elems m) = tape_length
    /\ array_get m 0 = Some (Num 0)
    /\ array_get m 1 = Some (Num 3)
    /\ (forall k, 2 <= k < 30000 -> array_get m k = Some (Num 0)).
Proof.
  exists (tape_with 1 3).
  split; [exists 100%nat; by_evaluation|].
  split; [cbn [tape_with elems]; now rewrite length_insert, length_replicate|].
  split; [by_evaluation|]. split; [by_evaluation|].
  intros k Hk. unfold array_get. rewrite is_array_index_tape by lia.
  cbn [tape_with elems]. pose proof tape_length_eq.
  rewrite list_lookup_insert_ne by lia.
  rewrite lookup_replicate_2 by lia. reflexivity.
Qed.

(** C7.  [eval("+a+b+.")] and [eval("+++.")] return the same object:
    pointer 0, cell 0 at 3 and the other cells at 0, the character of code
    3 as output, and an empty [error].  A character outside the eight
    tokens is a no-op: met by the [for] loop it only moves the index on,
    and met by a [do ... while] scan it leaves the balance as it is. *)
Theorem eval_ignores_other_chars :
  (exists r, evaluates "+a+b+." r /\ evaluates "+++." r
     /\ r = returned 0 [3] (tape_with 0 3))
  /\ (forall blob s a,
       char_at blob (i s) = Some a -> is_command a = false ->
       scan_balance blob s = balance s
       /\ (pc s = ForTest -> i s < blob_length blob ->
           step blob s = Continue (next_iteration s))).
Proof.
  split.
  - eexists. split; [|split; [|reflexivity]]; exists 10%nat; by_evaluation.
  - intros blob s a Hc Hcmd. split.
    + unfold scan_balance. rewrite Hc. cbn [is_token].
      unfold is_command in Hcmd. cbn [existsb] in Hcmd.
      repeat (apply orb_false_iff in Hcmd; destruct Hcmd as [?E Hcmd]).
      now rewrite E3, E4.
    + intros Hpc Hi. now apply (step_other_char blob s a).
Qed.

Lemma eval_ignores_other_chars_witness :
  scan_balance "a" init = balance init
  /\ step "a" init = Continue (next_iteration init).
Proof.
  destruct (proj2 eval_ignores_other_chars "a" init "a"%char eq_refl eq_refl)
    as [Hscan Hstep].
  split; [exact Hscan | apply Hstep; reflexivity].
Defined.

(** C10.  A loop-stop met while the current cell is not above 0 is passed
    over without a scan and without an error; [eval("]")] returns with an
    empty [error], the data pointer at 0, the 30000 cells at 0 and no
    output. *)
Theorem eval_stray_stop_zero_cell :
  evaluates "]" (returned 0 [] fresh_mem)
  /\ (forall blob s,
       pc s = ForTest -> i s < blob_length blob ->
       char_at blob (i s) = Some TOKEN_LOOP_STOP ->
       num_is_pos (array_get (mem s) (datPtr s)) = false ->
       step blob s = Continue (next_iteration (reset_balance s ForTest))).
Proof.
  split; [exists 10%nat; by_evaluation|].
  intros blob s. apply step_loop_stop_falls_through.
Qed.

Lemma eval_stray_stop_zero_cell_witness :
  step "]" init = Continue (next_iteration (reset_balance init ForTest)).
Proof.
  apply (proj2 eval_stray_stop_zero_cell "]" init);
    first [by_evaluation | reflexivity].
Defined.

End EvaluatorSpec.

(** * Further properties of the parser *)

Module ParserMore.
Import Parser ParserSpec.

(** *** Characters and counts *)

Lemma js_incr_ge (x : Z) : x <= js_incr x.
Proof. unfold js_incr. destruct (two_53 <=? x); lia. Qed.

Lemma drop_chars_all (n : nat) (s : string) :
  (String.length s <= n)%nat -> drop_chars n s = "".
Proof.
  intros H. pose proof (length_drop_chars n s) as Hl.
  destruct (drop_chars n s); [reflexivity|]. cbn [String.length] in Hl. lia.
Qed.

Lemma drop_chars_cons (blob : string) (i : Z) :
  0 <= i < blob_length blob ->
  exists c r, drop_chars (Z.to_nat i) blob = String c r
    /\ char_at blob i = Some c
    /\ drop_chars (Z.to_nat (i + 1)) blob = r.
Proof.
  intros Hi. pose proof (length_drop_chars (Z.to_nat i) blob) as Hl.
  destruct (drop_chars (Z.to_nat i) blob) as [|c r] eqn:Hrest.
  - cbn [String.length] in Hl. unfold blob_length in *. lia.
  - exists c, r. split; [reflexivity|].
    split; [now apply (char_at_drop_chars blob i c r)|].
    replace (Z.to_nat (i + 1)) with (S (Z.to_nat i)) by lia.
    now apply (drop_chars_S _ _ c).
Qed.

(** A character that does not occur from index [n] on is not met at any
    index from [n] on. *)
Lemma get_count_zero (c : ascii) (s : string) :
  forall n m : nat,
  count_char c (drop_chars n s) = O -> (n <= m)%nat ->
  match String.get m s with
  | Some a => Ascii.eqb a c
  | None => false
  end = false.
Proof.
  induction s as [|a s IH]; intros n m Hc Hle; [now destruct m|].
  destruct n as [|n].
  - cbn [drop_chars count_char] in Hc.
    destruct (Ascii.eqb a c) eqn:Ha; [discriminate|].
    destruct m as [|m]; cbn [String.get]; [exact Ha|].
    apply (IH O); [exact Hc | lia].
  - destruct m as [|m]; [lia|]. cbn [String.get drop_chars] in *.
    apply (IH n); [exact Hc | lia].
Qed.

Lemma char_at_count_zero (c : ascii) (blob : string) (i j : Z) :
  0 <= i -> count_char c (drop_chars (Z.to_nat i) blob) = O -> i <= j ->
  is_token (char_at blob j) c = false.
Proof.
  intros Hi Hc Hj. unfold char_at. destruct (Z.ltb_spec j 0); [lia|].
  unfold is_token. apply (get_count_zero c blob (Z.to_nat i)); [exact Hc | lia].
Qed.

Lemma drop_chars_app (a r : string) :
  forall (n : nat) (blob : string),
  Parser.drop_chars n blob = (a ++ r)%string ->
  Parser.drop_chars (n + String.length a) blob = r.
Proof.
  induction a as [|c a IH]; intros n blob H.
  - now rewrite Nat.add_0_r.
  - cbn [String.length].
    replace (n + S (String.length a))%nat with (S n + String.length a)%nat
      by lia.
    apply IH. now apply (ParserSpec.drop_chars_S n blob c).
Qed.

Lemma drop_chars_bound (n : nat) (blob a r : string) :
  Parser.drop_chars n blob = (a ++ r)%string ->
  (1 <= String.length a + String.length r)%nat ->
  Z.of_nat n + Z.of_nat (String.length a) + Z.of_nat (String.length r)
  = blob_length blob.
Proof.
  intros H Hne. pose proof (ParserSpec.length_drop_chars n blob) as Hl.
  rewrite H, length_append in Hl. unfold blob_length. lia.
Qed.

(** *** The loop scan *)

(** The first run of the body, on the loop-start itself. *)
Lemma do_while_first (blob : string) (fuel : nat) (i : Z) :
  i < two_53 -> is_token (char_at blob i) TOKEN_LOOP_START = true ->
  do_while (S fuel) blob {| scan_i := i; scan_balance := 0; scan_inner := "" |}
  = if i + 1 <? blob_length blob
    then do_while fuel blob
           {| scan_i := i + 1; scan_balance := 1; scan_inner := "" |}
    else Some {| scan_i := i + 1; scan_balance := 1; scan_inner := "" |}.
Proof.
  intros Hi Htok. cbn [do_while].
  assert (Hbody : scan_body blob
            {| scan_i := i; scan_balance := 0; scan_inner := "" |}
          = {| scan_i := i + 1; scan_balance := 1; scan_inner := "" |}).
  { unfold scan_body. cbn [scan_i scan_balance scan_inner]. rewrite Htok.
    rewrite (js_incr_exact i) by lia. reflexivity. }
  rewrite Hbody. cbn [scan_i scan_balance scan_inner]. reflexivity.
Qed.

(** What the scan of a loop returns, whatever the fuel that made it
    return. *)
Lemma do_while_open_bounds (blob : string) (fuel : nat) (i : Z) (s : scan) :
  blob_length blob < two_53 -> 0 <= i < blob_length blob ->
  is_token (char_at blob i) TOKEN_LOOP_START = true ->
  do_while fuel blob {| scan_i := i; scan_balance := 0; scan_inner := "" |}
  = Some s ->
  i < scan_i s <= blob_length blob
  /\ (scan_balance s = 0 ->
      Z.of_nat (String.length (scan_inner s)) + 2 <= scan_i s - i).
Proof.
  intros Hjs Hi Htok Hs.
  set (big := max fuel (Z.to_nat (blob_length blob - i))).
  destruct (do_while_open blob Hjs big i Hi Htok ltac:(lia))
    as (s' & Hs' & Hrange & Hinner).
  apply (do_while_mono _ big) in Hs; [|lia].
  assert (s' = s) as -> by congruence. now split.
Qed.

(** Where no loop-stop follows, the balance of the scan never goes down. *)
Lemma do_while_balance_grows (blob : string) (fuel : nat) :
  forall s s' : scan,
  (forall j, scan_i s <= j ->
             is_token (char_at blob j) TOKEN_LOOP_STOP = false) ->
  do_while fuel blob s = Some s' -> scan_balance s <= scan_balance s'.
Proof.
  induction fuel as [|fuel IH]; intros s s' Hno Hs; [discriminate|].
  cbn [do_while] in Hs.
  assert (Hstep : scan_balance s <= scan_balance (scan_body blob s)
                  /\ scan_i s <= scan_i (scan_body blob s)).
  { unfold scan_body. rewrite (Hno (scan_i s)) by lia.
    pose proof (js_incr_ge (scan_balance s)).
    pose proof (js_incr_ge (scan_i s)).
    destruct (is_token _ TOKEN_LOOP_START); cbn [scan_balance scan_i]; lia. }
  destruct (_ && _).
  - apply IH in Hs; [lia|]. intros j Hj. apply Hno. lia.
  - inversion Hs; subst s'. lia.
Qed.

(** *** Sources without a loop-start *)

Lemma for_loop_leaves (fuel : nat) :
  forall (blob : string) (i : Z) (acc : list node),
  blob_length blob < two_53 -> 0 <= i ->
  blob_length blob - i + 1 <= Z.of_nat fuel -> 1 <= Z.of_nat fuel ->
  count_char TOKEN_LOOP_START (drop_chars (Z.to_nat i) blob) = O ->
  for_loop fuel blob i acc
  = Some {| res := Some (acc ++ leaves_of (drop_chars (Z.to_nat i) blob))%list;
            error := "" |}.
Proof.
  induction fuel as [|fuel IH]; intros blob i acc Hjs Hi Hf H1 Hc; [lia|].
  cbn [for_loop].
  destruct (Z.ltb_spec i (blob_length blob)) as [Hlt|Hge].
  - destruct (drop_chars_cons blob i ltac:(lia)) as (c & r & Hrest & Hch & Hnext).
    rewrite Hrest in *. cbn [count_char] in Hc. rewrite Hch. cbn [is_token].
    destruct (Ascii.eqb c TOKEN_LOOP_START); [discriminate|].
    rewrite (js_incr_exact i) by lia.
    rewrite IH by (try lia; now rewrite Hnext).
    rewrite Hnext. unfold leaves_of. cbn [list_ascii_of_string map].
    now rewrite <- app_assoc.
  - rewrite drop_chars_all by (unfold blob_length in *; lia).
    unfold leaves_of. cbn [list_ascii_of_string map]. now rewrite app_nil_r.
Qed.

(** X2.  A source without a loop-start parses to its characters, one leaf
    each, in order: nothing is dropped, and loop-stops are leaves like any
    other character. *)
Theorem parse_without_loop_start (blob : string) :
  blob_length blob < two_53 -> count_char TOKEN_LOOP_START blob = O ->
  parse blob = Some {| res := Some (leaves_of blob); error := "" |}.
Proof.
  intros Hjs Hc. unfold parse, parse_fuel.
  rewrite for_loop_leaves; unfold blob_length in *; try lia; [reflexivity|].
  exact Hc.
Qed.

Lemma parse_without_loop_start_witness :
  parse "+]>]." = Some {| res := Some (leaves_of "+]>]."); error := "" |}.
Proof. apply (parse_without_loop_start "+]>]."); reflexivity. Defined.

(** *** Sources without a loop-stop *)

Lemma for_loop_no_stop (fuel : nat) :
  forall (blob : string) (i : Z) (acc : list node),
  blob_length blob < two_53 -> 0 <= i ->
  blob_length blob - i + 1 <= Z.of_nat fuel ->
  count_char TOKEN_LOOP_STOP (drop_chars (Z.to_nat i) blob) = O ->
  (1 <= count_char TOKEN_LOOP_START (drop_chars (Z.to_nat i) blob))%nat ->
  for_loop fuel blob i acc = Some unterminated.
Proof.
  induction fuel as [|fuel IH]; intros blob i acc Hjs Hi Hf Hstop Hstart.
  { destruct (Z.ltb_spec i (blob_length blob)); [lia|].
    rewrite drop_chars_all in Hstart by (unfold blob_length in *; lia).
    cbn in Hstart. lia. }
  cbn [for_loop].
  destruct (Z.ltb_spec i (blob_length blob)) as [Hlt|Hge].
  2:{ rewrite drop_chars_all in Hstart by (unfold blob_length in *; lia).
      cbn in Hstart. lia. }
  destruct (drop_chars_cons blob i ltac:(lia)) as (c & r & Hrest & Hch & Hnext).
  destruct (is_token (char_at blob i) TOKEN_LOOP_START) eqn:Htok.
  - destruct (do_while_open blob Hjs fuel i ltac:(lia) Htok ltac:(lia))
      as (s & Hs & _ & _).
    rewrite Hs. destruct fuel as [|fuel]; [discriminate|].
    rewrite do_while_first in Hs by (try lia; exact Htok).
    assert (Hone : 1 <= scan_balance s).
    { destruct (i + 1 <? blob_length blob).
      - apply do_while_balance_grows in Hs; [exact Hs|].
        cbn [scan_i]. intros j Hj.
        apply (char_at_count_zero _ blob i j); [lia | exact Hstop | lia].
      - inversion Hs. cbn. lia. }
    destruct (Z.eqb_spec (scan_balance s) 0); [lia | reflexivity].
  - rewrite Hrest in *. rewrite Hch in Htok. cbn [is_token] in Htok.
    cbn [count_char] in Hstop, Hstart. rewrite Htok in Hstart.
    rewrite (js_incr_exact i) by lia.
    apply IH; rewrite ?Hnext; lia.
Qed.

(** X3.  A source with a loop-start and no loop-stop at all fails with the
    unterminated-loop error, whatever else it holds. *)
Theorem parse_without_loop_stop (blob : string) :
  blob_length blob < two_53 ->
  count_char TOKEN_LOOP_STOP blob = O ->
  (1 <= count_char TOKEN_LOOP_START blob)%nat ->
  parse blob = Some unterminated.
Proof.
  intros Hjs Hstop Hstart. unfold parse, parse_fuel.
  apply for_loop_no_stop; unfold blob_length in *; try lia; assumption.
Qed.

Lemma parse_without_loop_stop_witness : parse "+>[-[." = Some unterminated.
Proof.
  apply (parse_without_loop_stop "+>[-[."); [reflexivity.. | cbn; lia].
Defined.

(** *** Sources whose loop-starts are all closed *)

(** X1.  [parse] succeeds on every source in which each loop-start is
    closed, however many loop-stops that close nothing it has besides. *)
Theorem parse_accepts_closed_loops (blob : string) :
  blob_length blob < two_53 -> closable blob ->
  exists l, parse blob = Some {| res := Some l; error := "" |}.
Proof.
  intros Hjs Hclos. apply for_loop_closable; unfold blob_length in *;
    try lia. exact Hclos.
Qed.

Lemma parse_accepts_closed_loops_witness :
  exists l, parse "]+[-]]" = Some {| res := Some l; error := "" |}.
Proof.
  apply (parse_accepts_closed_loops "]+[-]]");
    [reflexivity | exists 2%nat; reflexivity].
Defined.

(** *** The inner blob of a loop *)

Lemma do_while_inner_balanced (blob : string) (fuel : nat) :
  forall (s s' : scan) (b : nat),
  blob_length blob < two_53 -> 0 <= scan_i s < blob_length blob ->
  scan_balance s = Z.of_nat b -> (1 <= b)%nat ->
  Z.of_nat b + (blob_length blob - scan_i s) < two_53 ->
  do_while fuel blob s = Some s' -> scan_balance s' = 0 ->
  exists inner1,
    scan_inner s' = (scan_inner s ++ inner1)%string
    /\ balanced_from (b - 1) inner1 = true.
Proof.
  induction fuel as [|fuel IH]; intros s s' b Hjs Hi Hb Hb1 Hsmall Hs Hz;
    [discriminate|].
  cbn [do_while] in Hs.
  destruct (char_at_in_range blob (scan_i s) Hi) as [c Hc].
  unfold scan_body in Hs. rewrite Hc in Hs. cbn [is_token] in Hs.
  rewrite (js_incr_exact (scan_i s)), Hb in Hs by lia.
  destruct (Ascii.eqb c TOKEN_LOOP_START) eqn:Hopen.
  - rewrite (js_incr_exact (Z.of_nat b)) in Hs by lia.
    cbn [scan_i scan_balance scan_inner] in Hs.
    destruct (Z.ltb_spec 1 (Z.of_nat b + 1)) as [_|]; [|lia].
    destruct (Z.eqb_spec (Z.of_nat b + 1) 0) as [|_]; [lia|].
    cbn [negb andb] in Hs.
    destruct (Z.ltb_spec (scan_i s + 1) (blob_length blob)) as [Hlt|_].
    2:{ inversion Hs; subst s'. cbn [scan_balance] in Hz. lia. }
    destruct (IH {| scan_i := scan_i s + 1; scan_balance := Z.of_nat b + 1;
                       scan_inner := append_char (scan_inner s) (Some c) |}
                  s' (S b) Hjs ltac:(cbn [scan_i]; lia)
                ltac:(cbn [scan_balance]; lia) ltac:(lia)
                ltac:(cbn [scan_i]; lia) Hs Hz) as (inner2 & Hin & Hbin).
    cbn [scan_inner] in Hin.
    exists (String c inner2). split; [now rewrite Hin, append_char_append|].
    cbn [balanced_from]. rewrite Hopen.
    now replace (S (b - 1)) with (S b - 1)%nat by lia.
  - destruct (Ascii.eqb c TOKEN_LOOP_STOP) eqn:Hclose.
    + unfold js_decr in Hs.
      destruct (Z.leb_spec (Z.of_nat b) (- two_53)) as [|_];
        [pose proof two_53_pos; lia|].
      cbn [scan_i scan_balance scan_inner] in Hs.
      destruct (Nat.eq_dec b 1%nat) as [->|Hb2].
      * change (Z.of_nat 1 - 1) with 0 in Hs.
        cbn [Z.eqb Z.ltb Z.compare negb andb] in Hs.
        inversion Hs; subst s'. cbn [scan_inner].
        exists "". now rewrite append_empty_r.
      * destruct (Z.ltb_spec 0 (Z.of_nat b - 1)) as [_|]; [|lia].
        destruct (Z.eqb_spec (Z.of_nat b - 1) 0) as [|_]; [lia|].
        cbn [negb andb] in Hs.
        destruct (Z.ltb_spec (scan_i s + 1) (blob_length blob)) as [Hlt|_].
        2:{ inversion Hs; subst s'. cbn [scan_balance] in Hz. lia. }
        destruct (IH {| scan_i := scan_i s + 1; scan_balance := Z.of_nat b - 1;
                       scan_inner := append_char (scan_inner s) (Some c) |}
                  s' (b - 1)%nat Hjs ltac:(cbn [scan_i]; lia)
                    ltac:(cbn [scan_balance]; lia) ltac:(lia)
                    ltac:(cbn [scan_i]; lia) Hs Hz) as (inner2 & Hin & Hbin).
        cbn [scan_inner] in Hin.
        exists (String c inner2).
        split; [now rewrite Hin, append_char_append|].
        cbn [balanced_from]. rewrite Hopen, Hclose.
        destruct (b - 1)%nat as [|b'] eqn:Hb'; [lia|].
        now replace b' with (S b' - 1)%nat by lia.
    + cbn [scan_i scan_balance scan_inner] in Hs.
      destruct (Z.eqb_spec (Z.of_nat b) 0) as [|_]; [lia|].
      cbn [negb andb] in Hs.
      destruct (Z.ltb_spec (scan_i s + 1) (blob_length blob)) as [Hlt|_].
      2:{ inversion Hs; subst s'. cbn [scan_balance] in Hz. lia. }
      destruct (IH {| scan_i := scan_i s + 1; scan_balance := Z.of_nat b;
                       scan_inner := append_char (scan_inner s) (Some c) |}
                  s' b Hjs ltac:(cbn [scan_i]; lia)
                  ltac:(cbn [scan_balance]; lia) ltac:(lia)
                  ltac:(cbn [scan_i]; lia) Hs Hz) as (inner2 & Hin & Hbin).
      cbn [scan_inner] in Hin.
      exists (String c inner2).
      split; [now rewrite Hin, append_char_append|].
      cbn [balanced_from]. now rewrite Hopen, Hclose.
Qed.

(** X4.  Whenever the scan of a loop ends with the balance at zero, the
    inner blob it collected is balanced, and the recursive call on it
    succeeds: the error check on the inner parse (lines 54-56) never
    fires, and only a loop-start met by the top-level scan can fail a
    parse. *)
Theorem parse_inner_blob_balanced (blob : string) (fuel : nat) (i : Z)
    (s : scan) :
  blob_length blob < two_53 -> 0 <= i < blob_length blob ->
  is_token (char_at blob i) TOKEN_LOOP_START = true ->
  do_while fuel blob {| scan_i := i; scan_balance := 0; scan_inner := "" |}
  = Some s ->
  scan_balance s = 0 ->
  balanced (scan_inner s) = true
  /\ exists l, parse (scan_inner s) = Some {| res := Some l; error := "" |}.
Proof.
  intros Hjs Hi Htok Hs Hz.
  destruct (do_while_open_bounds blob fuel i s Hjs Hi Htok Hs) as [Hrange Hshort].
  specialize (Hshort Hz).
  assert (Hbal : balanced (scan_inner s) = true).
  { destruct fuel as [|fuel]; [discriminate|].
    rewrite do_while_first in Hs by (try lia; exact Htok).
    destruct (Z.ltb_spec (i + 1) (blob_length blob)) as [Hlt|_].
    2:{ inversion Hs; subst s. cbn [scan_balance] in Hz. lia. }
    destruct (do_while_inner_balanced blob fuel
                {| scan_i := i + 1; scan_balance := 1; scan_inner := "" |}
                s 1%nat Hjs
                ltac:(cbn [scan_i]; lia) ltac:(reflexivity) ltac:(lia)
                ltac:(cbn [scan_i]; lia) Hs Hz) as (inner1 & Hin & Hbin).
    cbn [scan_inner] in Hin. change ("" ++ inner1)%string with inner1 in Hin.
    now rewrite Hin. }
  split; [exact Hbal|].
  apply parse_balanced_succeeds; [unfold blob_length in *; lia | exact Hbal].
Qed.

Lemma parse_inner_blob_balanced_witness :
  balanced "-[+]" = true
  /\ exists l, parse "-[+]" = Some {| res := Some l; error := "" |}.
Proof.
  apply (parse_inner_blob_balanced ">[-[+]]<" 10 1
           {| scan_i := 7; scan_balance := 0; scan_inner := "-[+]" |});
    first [reflexivity | split; [discriminate | reflexivity]].
Defined.

(** *** The size and the leaves of the tree *)


Lemma for_loop_well_formed (fuel : nat) :
  forall (blob : string) (i : Z) (acc : list node) (r : parse_result),
  for_loop fuel blob i acc = Some r -> well_formed r.
Proof.
  induction fuel as [|fuel IH]; intros blob i acc r H; [discriminate|].
  cbn [for_loop] in H.
  destruct (i <? blob_length blob).
  2:{ inversion H. right. eauto. }
  destruct (is_token _ _); [|now apply IH in H].
  destruct (do_while fuel blob _) as [s|]; [|discriminate].
  destruct (negb (scan_balance s =? 0)); [inversion H; now left|].
  destruct (for_loop fuel (scan_inner s) 0 []) as [inner|] eqn:Hin;
    [|discriminate].
  destruct (negb _); [inversion H; subst; now apply IH in Hin|].
  now apply IH in H.
Qed.


Lemma for_loop_leaf_ok (fuel : nat) :
  forall (blob : string) (i : Z) (acc : list node) (r : parse_result)
         (l : list node),
  blob_length blob < two_53 -> 0 <= i ->
  for_loop fuel blob i acc = Some r -> res r = Some l ->
  forallb leaf_ok acc = true -> forallb leaf_ok l = true.
Proof.
  induction fuel as [|fuel IH]; intros blob i acc r l Hjs Hi H Hl Hacc;
    [discriminate|].
  cbn [for_loop] in H.
  destruct (Z.ltb_spec i (blob_length blob)) as [Hlt|Hge].
  2:{ inversion H; subst r. cbn in Hl. now inversion Hl; subst. }
  destruct (is_token (char_at blob i) TOKEN_LOOP_START) eqn:Htok.
  - destruct (do_while fuel blob _) as [s|] eqn:Hs; [|discriminate].
    destruct (do_while_open_bounds blob fuel i s Hjs ltac:(lia) Htok Hs)
      as [Hrange Hshort].
    destruct (Z.eqb_spec (scan_balance s) 0) as [Hz|Hz]; cbn [negb] in H.
    2:{ inversion H; subst r. discriminate. }
    specialize (Hshort Hz).
    destruct (for_loop fuel (scan_inner s) 0 []) as [inner|] eqn:Hin;
      [|discriminate].
    destruct (for_loop_well_formed _ _ _ _ _ Hin) as [->|[l_in ->]];
      cbn [error res inner_node String.eqb negb] in H.
    { inversion H; subst r. discriminate. }
    change (negb (String.eqb "" "")) with false in H. cbn iota in H.
    apply (IH _ _ _ _ l_in) in Hin;
      [|unfold blob_length in *; lia | lia | reflexivity | reflexivity].
    apply (IH _ _ _ _ l Hjs) in H; [exact H | | exact Hl |].
    + pose proof (js_incr_ge (scan_i s)). lia.
    + rewrite forallb_app, Hacc. cbn [forallb leaf_ok]. now rewrite Hin.
  - destruct (char_at_in_range blob i ltac:(lia)) as [c Hc].
    apply (IH _ _ _ _ l Hjs) in H; [exact H | | exact Hl |].
    + pose proof (js_incr_ge i). lia.
    + rewrite forallb_app, Hacc, Hc. rewrite Hc in Htok.
      cbn [is_token] in Htok. cbn [forallb leaf_ok]. now rewrite Htok.
Qed.

(** *** The tree against the text of the source *)

Lemma source_text_app (a b : string) :
  source_text (a ++ b) = (source_text a ++ source_text b)%list.
Proof.
  unfold source_text. induction a as [|c a IH]; [reflexivity|].
  change (String c a ++ b)%string with (String c (a ++ b)%string).
  cbn [list_ascii_of_string map app]. now rewrite IH.
Qed.

Lemma source_text_drop (n : nat) (blob : string) :
  source_text (drop_chars (S n) blob)
  `sublist_of` source_text (drop_chars n blob).
Proof.
  destruct (drop_chars n blob) as [|c r] eqn:H.
  - now rewrite (drop_chars_S_empty _ _ H).
  - rewrite (drop_chars_S _ _ _ _ H). now apply sublist_cons.
Qed.

Lemma sublist_In (l1 l2 : list (option ascii)) (x : option ascii) :
  l1 `sublist_of` l2 -> In x l1 -> In x l2.
Proof.
  induction 1 as [|y l1 l2 _ IH|y l1 l2 _ IH]; intros Hin.
  - exact Hin.
  - destruct Hin as [->|Hin]; [now left | right; now apply IH].
  - right. now apply IH.
Qed.

(** A scan that ends with the balance at zero has read the source up to a
    loop-stop, and what it has added to the inner blob is the text before
    that loop-stop. *)
Lemma do_while_text (blob : string) (fuel : nat) :
  forall (s s' : scan) (b : nat),
  blob_length blob < two_53 -> 0 <= scan_i s < blob_length blob ->
  scan_balance s = Z.of_nat b -> (1 <= b)%nat ->
  Z.of_nat b + (blob_length blob - scan_i s) < two_53 ->
  do_while fuel blob s = Some s' -> scan_balance s' = 0 ->
  exists inner1,
    scan_inner s' = (scan_inner s ++ inner1)%string
    /\ drop_chars (Z.to_nat (scan_i s)) blob
       = (inner1 ++ String TOKEN_LOOP_STOP
                      (drop_chars (Z.to_nat (scan_i s')) blob))%string.
Proof.
  induction fuel as [|fuel IH]; intros s s' b Hjs Hi Hb Hb1 Hsmall Hs Hz;
    [discriminate|].
  cbn [do_while] in Hs.
  destruct (drop_chars_cons blob (scan_i s) Hi) as (c & rest & Hdrop & Hc & Hnext).
  unfold scan_body in Hs. rewrite Hc in Hs. cbn [is_token] in Hs.
  rewrite (js_incr_exact (scan_i s)), Hb in Hs by lia.
  rewrite Hdrop.
  destruct (Ascii.eqb c TOKEN_LOOP_START) eqn:Hopen.
  - rewrite (js_incr_exact (Z.of_nat b)) in Hs by lia.
    cbn [scan_i scan_balance scan_inner] in Hs.
    destruct (Z.ltb_spec 1 (Z.of_nat b + 1)) as [_|]; [|lia].
    destruct (Z.eqb_spec (Z.of_nat b + 1) 0) as [|_]; [lia|].
    cbn [negb andb] in Hs.
    destruct (Z.ltb_spec (scan_i s + 1) (blob_length blob)) as [Hlt|_].
    2:{ inversion Hs; subst s'. cbn [scan_balance] in Hz. lia. }
    destruct (IH {| scan_i := scan_i s + 1; scan_balance := Z.of_nat b + 1;
                    scan_inner := append_char (scan_inner s) (Some c) |}
                s' (S b) Hjs ltac:(cbn [scan_i]; lia)
                ltac:(cbn [scan_balance]; lia) ltac:(lia)
                ltac:(cbn [scan_i]; lia) Hs Hz) as (inner2 & Hin & Htext).
    cbn [scan_i scan_inner] in Hin, Htext. rewrite Hnext in Htext.
    exists (String c inner2). split; [now rewrite Hin, append_char_append|].
    now rewrite Htext.
  - destruct (Ascii.eqb c TOKEN_LOOP_STOP) eqn:Hclose.
    + unfold js_decr in Hs.
      destruct (Z.leb_spec (Z.of_nat b) (- two_53)) as [|_];
        [pose proof two_53_pos; lia|].
      cbn [scan_i scan_balance scan_inner] in Hs.
      destruct (Nat.eq_dec b 1%nat) as [->|Hb2].
      * change (Z.of_nat 1 - 1) with 0 in Hs.
        cbn [Z.eqb Z.ltb Z.compare negb andb] in Hs.
        inversion Hs; subst s'. cbn [scan_i scan_inner].
        exists "". split; [now rewrite append_empty_r|].
        apply Ascii.eqb_eq in Hclose. subst c. now rewrite Hnext.
      * destruct (Z.ltb_spec 0 (Z.of_nat b - 1)) as [_|]; [|lia].
        destruct (Z.eqb_spec (Z.of_nat b - 1) 0) as [|_]; [lia|].
        cbn [negb andb] in Hs.
        destruct (Z.ltb_spec (scan_i s + 1) (blob_length blob)) as [Hlt|_].
        2:{ inversion Hs; subst s'. cbn [scan_balance] in Hz. lia. }
        destruct (IH {| scan_i := scan_i s + 1; scan_balance := Z.of_nat b - 1;
                        scan_inner := append_char (scan_inner s) (Some c) |}
                    s' (b - 1)%nat Hjs ltac:(cbn [scan_i]; lia)
                    ltac:(cbn [scan_balance]; lia) ltac:(lia)
                    ltac:(cbn [scan_i]; lia) Hs Hz) as (inner2 & Hin & Htext).
        cbn [scan_i scan_inner] in Hin, Htext. rewrite Hnext in Htext.
        exists (String c inner2).
        split; [now rewrite Hin, append_char_append|]. now rewrite Htext.
    + cbn [scan_i scan_balance scan_inner] in Hs.
      destruct (Z.eqb_spec (Z.of_nat b) 0) as [|_]; [lia|].
      cbn [negb andb] in Hs.
      destruct (Z.ltb_spec (scan_i s + 1) (blob_length blob)) as [Hlt|_].
      2:{ inversion Hs; subst s'. cbn [scan_balance] in Hz. lia. }
      destruct (IH {| scan_i := scan_i s + 1; scan_balance := Z.of_nat b;
                      scan_inner := append_char (scan_inner s) (Some c) |}
                  s' b Hjs ltac:(cbn [scan_i]; lia)
                  ltac:(cbn [scan_balance]; lia) ltac:(lia)
                  ltac:(cbn [scan_i]; lia) Hs Hz) as (inner2 & Hin & Htext).
      cbn [scan_i scan_inner] in Hin, Htext. rewrite Hnext in Htext.
      exists (String c inner2).
      split; [now rewrite Hin, append_char_append|]. now rewrite Htext.
Qed.

(** What the [for] loop adds to [res] from index [i] on, written back as
    text, is a subsequence of the source from [i] on, and so are its
    leaves, none of which is a loop-start. *)
Lemma for_loop_text (fuel : nat) :
  forall (blob : string) (i : Z) (acc : list node) (r : parse_result)
         (l : list node),
  blob_length blob < two_53 -> 0 <= i ->
  for_loop fuel blob i acc = Some r -> res r = Some l ->
  exists l',
    l = (acc ++ l')%list
    /\ tree_text l' `sublist_of` source_text (drop_chars (Z.to_nat i) blob)
    /\ tree_leaves l' `sublist_of` source_text (drop_chars (Z.to_nat i) blob)
    /\ ~ In (Some TOKEN_LOOP_START) (tree_leaves l').
Proof.
  induction fuel as [|fuel IH]; intros blob i acc r l Hjs Hi H Hl;
    [discriminate|].
  cbn [for_loop] in H.
  destruct (Z.ltb_spec i (blob_length blob)) as [Hlt|Hge].
  2:{ inversion H; subst r. cbn in Hl. inversion Hl; subst.
      exists []. rewrite app_nil_r. split; [reflexivity|].
      split; [apply sublist_nil_l|]. split; [apply sublist_nil_l|].
      intros []. }
  destruct (drop_chars_cons blob i ltac:(lia))
    as (c & rest & Hdrop & Hc & Hnext).
  assert (Htok' : is_token (char_at blob i) TOKEN_LOOP_START
                  = Ascii.eqb c TOKEN_LOOP_START) by now rewrite Hc.
  rewrite Hc in H. cbn [is_token] in H. rewrite Hdrop.
  destruct (Ascii.eqb c TOKEN_LOOP_START) eqn:Htok.
  - destruct (do_while fuel blob _) as [s|] eqn:Hs; [|discriminate].
    destruct (do_while_open_bounds blob fuel i s Hjs ltac:(lia) Htok' Hs)
      as [Hrange Hshort].
    destruct (Z.eqb_spec (scan_balance s) 0) as [Hz|Hz]; cbn [negb] in H.
    2:{ inversion H; subst r. discriminate. }
    specialize (Hshort Hz).
    assert (Hscan : exists inner1,
              scan_inner s = inner1
              /\ rest = (inner1 ++ String TOKEN_LOOP_STOP
                           (drop_chars (Z.to_nat (scan_i s)) blob))%string).
    { destruct fuel as [|fuel']; [discriminate|].
      rewrite (do_while_first blob fuel' i ltac:(lia) Htok') in Hs.
      destruct (Z.ltb_spec (i + 1) (blob_length blob)) as [Hlt1|Hge1].
      2:{ inversion Hs; subst s. cbn [scan_balance] in Hz. lia. }
      destruct (do_while_text blob fuel'
                  {| scan_i := i + 1; scan_balance := 1; scan_inner := "" |}
                  s 1%nat Hjs ltac:(cbn [scan_i]; lia) ltac:(reflexivity)
                  ltac:(lia) ltac:(cbn [scan_i]; lia) Hs Hz)
        as (inner1 & Hin1 & Htext).
      cbn [scan_i scan_inner] in Hin1, Htext.
      change ("" ++ inner1)%string with inner1 in Hin1.
      rewrite Hnext in Htext. exists inner1. now split. }
    destruct Hscan as (inner1 & Hin1 & Hrest).
    destruct (for_loop fuel (scan_inner s) 0 []) as [inner|] eqn:Hin;
      [|discriminate].
    destruct (for_loop_well_formed _ _ _ _ _ Hin) as [->|[l_in ->]];
      cbn [error res inner_node String.eqb negb] in H.
    { inversion H; subst r. discriminate. }
    change (negb (String.eqb "" "")) with false in H. cbn iota in H.
    rewrite (js_incr_exact (scan_i s)) in H by lia.
    destruct (IH (scan_inner s) 0 [] _ l_in
                ltac:(unfold blob_length in *; lia) ltac:(lia) Hin eq_refl)
      as (l_in' & El_in & Tin & Lin & Nin).
    cbn [app] in El_in. subst l_in'.
    change (drop_chars (Z.to_nat 0) (scan_inner s)) with (scan_inner s)
      in Tin, Lin.
    rewrite Hin1 in Tin, Lin.
    destruct (IH blob (scan_i s + 1) _ _ l Hjs ltac:(lia) H Hl)
      as (l2 & El & T2 & L2 & N2).
    replace (Z.to_nat (scan_i s + 1)) with (S (Z.to_nat (scan_i s)))
      in T2, L2 by lia.
    pose proof (source_text_drop (Z.to_nat (scan_i s)) blob) as Hsub.
    exists (Seq l_in :: l2).
    split; [now rewrite El, <- app_assoc|].
    apply Ascii.eqb_eq in Htok. subst c. rewrite Hrest.
    change (source_text (String TOKEN_LOOP_START ?x))
      with (Some TOKEN_LOOP_START :: source_text x).
    rewrite source_text_app.
    change (source_text (String TOKEN_LOOP_STOP ?x))
      with (Some TOKEN_LOOP_STOP :: source_text x).
    split; [|split].
    + change (tree_text (Seq l_in :: l2))
        with (Some TOKEN_LOOP_START
              :: ((tree_text l_in ++ [Some TOKEN_LOOP_STOP]) ++ tree_text l2))%list.
      apply sublist_skip. rewrite <- app_assoc.
      apply sublist_app; [exact Tin|]. cbn [app]. apply sublist_skip.
      now transitivity (source_text (drop_chars (S (Z.to_nat (scan_i s))) blob)).
    + change (tree_leaves (Seq l_in :: l2))
        with (tree_leaves l_in ++ tree_leaves l2)%list.
      apply sublist_cons. apply sublist_app; [exact Lin|].
      apply sublist_cons.
      now transitivity (source_text (drop_chars (S (Z.to_nat (scan_i s))) blob)).
    + change (tree_leaves (Seq l_in :: l2))
        with (tree_leaves l_in ++ tree_leaves l2)%list.
      rewrite in_app_iff. tauto.
  - rewrite (js_incr_exact i) in H by lia.
    destruct (IH blob (i + 1) _ _ l Hjs ltac:(lia) H Hl)
      as (l2 & El & T2 & L2 & N2).
    rewrite Hnext in T2, L2.
    exists (Leaf (Some c) :: l2).
    split; [now rewrite El, <- app_assoc|].
    change (source_text (String c rest)) with (Some c :: source_text rest).
    split; [|split].
    + change (tree_text (Leaf (Some c) :: l2)) with (Some c :: tree_text l2).
      now apply sublist_skip.
    + change (tree_leaves (Leaf (Some c) :: l2))
        with (Some c :: tree_leaves l2).
      now apply sublist_skip.
    + change (tree_leaves (Leaf (Some c) :: l2))
        with (Some c :: tree_leaves l2).
      intros [E|E]; [|now apply N2].
      inversion E; subst c. now rewrite Ascii.eqb_refl in Htok.
Qed.



(** X6.  Every leaf is a character of the source: the leaves of the tree
    that [parse] returns, taken at every depth from left to right, are a
    subsequence of the characters of the source.  None of them is a
    loop-start, and none is [undefined]. *)
Theorem parse_leaves_are_chars (blob : string) (r : parse_result)
    (l : list node) :
  blob_length blob < two_53 -> parse blob = Some r -> res r = Some l ->
  tree_leaves l `sublist_of` source_text blob
  /\ ~ In (Some TOKEN_LOOP_START) (tree_leaves l)
  /\ ~ In None (tree_leaves l)
  /\ forallb leaf_ok l = true.
Proof.
  intros Hjs H Hl.
  destruct (for_loop_text _ blob 0 [] r l Hjs ltac:(lia) H Hl)
    as (l' & El & _ & Hleaves & Hno).
  cbn [app] in El. subst l'.
  split; [exact Hleaves|]. split; [exact Hno|]. split.
  - intros Hin. apply (sublist_In _ _ _ Hleaves) in Hin.
    unfold source_text in Hin. apply in_map_iff in Hin.
    destruct Hin as (c & Hc & _). discriminate.
  - now apply (for_loop_leaf_ok _ blob 0 [] r l Hjs ltac:(lia) H Hl).
Qed.

Lemma parse_leaves_are_chars_witness :
  tree_leaves [Seq [Leaf (Some "-"%char)]; Leaf (Some "]"%char)]
  `sublist_of` source_text "[-]+]"
  /\ ~ In (Some TOKEN_LOOP_START)
         (tree_leaves [Seq [Leaf (Some "-"%char)]; Leaf (Some "]"%char)])
  /\ ~ In None
         (tree_leaves [Seq [Leaf (Some "-"%char)]; Leaf (Some "]"%char)])
  /\ forallb leaf_ok [Seq [Leaf (Some "-"%char)]; Leaf (Some "]"%char)] = true.
Proof.
  apply (parse_leaves_are_chars "[-]+]"
           {| res := Some [Seq [Leaf (Some "-"%char)]; Leaf (Some "]"%char)];
              error := "" |}); reflexivity.
Defined.

(** *** The tree of a source with a loop *)

Lemma get_drop_chars_add (n : nat) :
  forall (s : string) (j : nat),
  String.get j (drop_chars n s) = String.get (j + n) s.
Proof.
  induction n as [|n IH]; intros s j; [now rewrite Nat.add_0_r|].
  replace (j + S n)%nat with (S (j + n)) by lia.
  destruct s as [|a s]; cbn [drop_chars String.get]; [now destruct j|].
  apply IH.
Qed.

Lemma char_at_drop_add (blob : string) (n : nat) (j : Z) :
  0 <= j -> char_at (drop_chars n blob) j = char_at blob (j + Z.of_nat n).
Proof.
  intros Hj. unfold char_at.
  destruct (Z.ltb_spec j 0); [lia|].
  destruct (Z.ltb_spec (j + Z.of_nat n) 0); [lia|].
  rewrite get_drop_chars_add. f_equal. lia.
Qed.

Lemma blob_length_drop (blob : string) (n : nat) :
  (n <= String.length blob)%nat ->
  blob_length (drop_chars n blob) = blob_length blob - Z.of_nat n.
Proof.
  intros H. unfold blob_length. rewrite length_drop_chars. lia.
Qed.

(** The scan of a suffix of the blob is the scan of the blob, with the
    indices moved by the length of what was dropped. *)
Lemma do_while_suffix (blob : string) (n : nat) (fuel : nat) :
  forall (i b : Z) (inner : string),
  blob_length blob < two_53 -> (n <= String.length blob)%nat ->
  0 <= i -> i + Z.of_nat n < blob_length blob ->
  do_while fuel (drop_chars n blob)
    {| scan_i := i; scan_balance := b; scan_inner := inner |}
  = match do_while fuel blob
            {| scan_i := i + Z.of_nat n; scan_balance := b;
               scan_inner := inner |} with
    | Some r => Some {| scan_i := scan_i r - Z.of_nat n;
                        scan_balance := scan_balance r;
                        scan_inner := scan_inner r |}
    | None => None
    end.
Proof.
  induction fuel as [|fuel IH]; intros i b inner Hjs Hn Hi Hlt; [reflexivity|].
  cbn [do_while]. unfold scan_body. cbn [scan_i scan_balance scan_inner].
  rewrite (char_at_drop_add blob n i Hi), (blob_length_drop blob n Hn).
  rewrite (js_incr_exact i), (js_incr_exact (i + Z.of_nat n)) by lia.
  set (c := char_at blob (i + Z.of_nat n)).
  assert (Hgo : forall b' inner',
    (if negb (b' =? 0) && (i + 1 <? blob_length blob - Z.of_nat n)
     then do_while fuel (drop_chars n blob)
            {| scan_i := i + 1; scan_balance := b'; scan_inner := inner' |}
     else Some {| scan_i := i + 1; scan_balance := b'; scan_inner := inner' |})
    = match (if negb (b' =? 0) && (i + Z.of_nat n + 1 <? blob_length blob)
             then do_while fuel blob
                    {| scan_i := i + Z.of_nat n + 1; scan_balance := b';
                       scan_inner := inner' |}
             else Some {| scan_i := i + Z.of_nat n + 1; scan_balance := b';
                          scan_inner := inner' |}) with
      | Some r => Some {| scan_i := scan_i r - Z.of_nat n;
                          scan_balance := scan_balance r;
                          scan_inner := scan_inner r |}
      | None => None
      end).
  { intros b' inner'.
    destruct (Z.ltb_spec (i + 1) (blob_length blob - Z.of_nat n));
      destruct (Z.ltb_spec (i + Z.of_nat n + 1) (blob_length blob));
      try lia; destruct (negb (b' =? 0)); cbn [andb scan_i scan_balance scan_inner];
      try (do 2 f_equal; lia).
    rewrite (IH (i + 1)) by lia.
    now replace (i + 1 + Z.of_nat n) with (i + Z.of_nat n + 1) by lia. }
  destruct (is_token c TOKEN_LOOP_START);
    [|destruct (is_token c TOKEN_LOOP_STOP)];
    cbn [scan_i scan_balance scan_inner]; apply Hgo.
Qed.

(** The parse of a suffix of the blob is the [for] loop on the blob from
    the index where the suffix starts. *)
Lemma for_loop_suffix (fuel : nat) :
  forall (blob : string) (n : nat) (i : Z) (acc : list node),
  blob_length blob < two_53 -> (n <= String.length blob)%nat -> 0 <= i ->
  for_loop fuel (drop_chars n blob) i acc
  = for_loop fuel blob (i + Z.of_nat n) acc.
Proof.
  induction fuel as [|fuel IH]; intros blob n i acc Hjs Hn Hi; [reflexivity|].
  cbn [for_loop]. rewrite (blob_length_drop blob n Hn).
  rewrite (char_at_drop_add blob n i Hi).
  destruct (Z.ltb_spec i (blob_length blob - Z.of_nat n));
    destruct (Z.ltb_spec (i + Z.of_nat n) (blob_length blob));
    try lia; [|reflexivity].
  destruct (is_token (char_at blob (i + Z.of_nat n)) TOKEN_LOOP_START) eqn:Htok.
  - rewrite do_while_suffix by lia.
    destruct (do_while fuel blob _) as [s|] eqn:Hs; [|reflexivity].
    destruct (do_while_open_bounds blob fuel (i + Z.of_nat n) s Hjs
                ltac:(lia) Htok Hs) as [Hrange _].
    cbn [scan_i scan_balance scan_inner].
    destruct (negb (scan_balance s =? 0)); [reflexivity|].
    destruct (for_loop fuel (scan_inner s) 0 []) as [inner|]; [|reflexivity].
    destruct (negb _); [reflexivity|].
    rewrite (js_incr_exact (scan_i s - Z.of_nat n)),
      (js_incr_exact (scan_i s)) by lia.
    rewrite IH by lia. f_equal. lia.
  - rewrite (js_incr_exact i), (js_incr_exact (i + Z.of_nat n)) by lia.
    rewrite IH by lia. f_equal. lia.
Qed.

(** The array built so far only comes before what the loop adds. *)
Lemma for_loop_acc (fuel : nat) :
  forall (blob : string) (i : Z) (acc : list node),
  for_loop fuel blob i acc
  = match for_loop fuel blob i [] with
    | Some r => Some (prepend acc r)
    | None => None
    end.
Proof.
  induction fuel as [|fuel IH]; intros blob i acc; [reflexivity|].
  cbn [for_loop].
  destruct (i <? blob_length blob).
  2:{ unfold prepend. cbn. now rewrite app_nil_r. }
  assert (Hpre : forall x j,
    for_loop fuel blob j (acc ++ [x])
    = match for_loop fuel blob j ([] ++ [x]) with
      | Some r => Some (prepend acc r)
      | None => None
      end).
  { intros x j.
    rewrite (IH blob j (acc ++ [x])%list), (IH blob j ([] ++ [x])%list).
    destruct (for_loop fuel blob j []) as [r|]; [|reflexivity].
    unfold prepend. cbn [res error]. f_equal. f_equal.
    destruct (res r); cbn [option_map]; [|reflexivity].
    now rewrite <- app_assoc. }
  destruct (is_token _ _); [|apply Hpre].
  destruct (do_while fuel blob _) as [s|]; [|reflexivity].
  destruct (negb (scan_balance s =? 0)); [reflexivity|].
  destruct (for_loop fuel (scan_inner s) 0 []) as [inner|] eqn:Hin;
    [|reflexivity].
  destruct (for_loop_well_formed _ _ _ _ _ Hin) as [->|[l_in ->]];
    cbn [error res inner_node String.eqb negb]; [reflexivity|].
  change (negb (String.eqb "" "")) with false. cbn iota. apply Hpre.
Qed.

(** Any fuel above the length of what is left gives the same result. *)
Lemma for_loop_stable (fuel fuel' : nat) (blob : string) (i : Z)
    (acc : list node) :
  blob_length blob < two_53 -> 0 <= i ->
  blob_length blob - i + 1 <= Z.of_nat fuel -> 1 <= Z.of_nat fuel ->
  blob_length blob - i + 1 <= Z.of_nat fuel' -> 1 <= Z.of_nat fuel' ->
  for_loop fuel blob i acc = for_loop fuel' blob i acc.
Proof.
  intros Hjs Hi Hf H1 Hf' H1'.
  destruct (for_loop_returns fuel blob i acc Hjs Hi Hf H1) as (r & Hr & _).
  destruct (for_loop_returns fuel' blob i acc Hjs Hi Hf' H1') as (r' & Hr' & _).
  pose proof (for_loop_mono _ (max fuel fuel') _ _ _ _ Hr ltac:(lia)) as H.
  pose proof (for_loop_mono _ (max fuel fuel') _ _ _ _ Hr' ltac:(lia)) as H'.
  congruence.
Qed.

(** The [for] loop over a stretch without loop-starts pushes its
    characters. *)
Lemma for_loop_prefix (pre : string) :
  forall (fuel : nat) (blob : string) (i : Z) (acc : list node)
         (rest : string),
  blob_length blob < two_53 -> 0 <= i ->
  drop_chars (Z.to_nat i) blob = (pre ++ rest)%string ->
  count_char TOKEN_LOOP_START pre = O ->
  for_loop (String.length pre + fuel) blob i acc
  = for_loop fuel blob (i + Z.of_nat (String.length pre))
      (acc ++ leaves_of pre)%list.
Proof.
  induction pre as [|c pre IH]; intros fuel blob i acc rest Hjs Hi Hdrop Hc.
  - cbn [String.length Nat.add leaves_of list_ascii_of_string map].
    now rewrite Z.add_0_r, app_nil_r.
  - pose proof (drop_chars_bound _ _ _ _ Hdrop ltac:(cbn; lia)) as Hlen.
    cbn [String.length] in Hlen.
    change (String c pre ++ rest)%string
      with (String c (pre ++ rest)) in Hdrop.
    pose proof (char_at_drop_chars blob i c _ Hi Hdrop) as Hch.
    pose proof (drop_chars_S _ _ _ _ Hdrop) as Hnext.
    replace (S (Z.to_nat i)) with (Z.to_nat (i + 1)) in Hnext by lia.
    cbn [count_char] in Hc.
    destruct (Ascii.eqb c TOKEN_LOOP_START) eqn:Hopen; [discriminate|].
    cbn [String.length Nat.add for_loop]. rewrite Hch. cbn [is_token].
    rewrite Hopen.
    destruct (Z.ltb_spec i (blob_length blob)); [|lia].
    rewrite (js_incr_exact i) by lia.
    rewrite (IH fuel blob (i + 1) _ rest Hjs ltac:(lia) Hnext Hc).
    unfold leaves_of. cbn [list_ascii_of_string map].
    rewrite <- app_assoc. f_equal. lia.
Qed.

(** The scan over a stretch that closes [d] loops and is followed by more
    source collects the whole stretch. *)
Lemma do_while_inner (inner : string) :
  forall (fuel : nat) (blob : string) (s : scan) (b d : nat) (rest : string),
  blob_length blob < two_53 -> 0 <= scan_i s ->
  drop_chars (Z.to_nat (scan_i s)) blob = (inner ++ rest)%string ->
  (1 <= String.length rest)%nat ->
  balanced_from d inner = true -> (1 <= b)%nat ->
  Z.of_nat b + (blob_length blob - scan_i s) < two_53 ->
  scan_balance s = Z.of_nat (b + d) ->
  do_while (String.length inner + fuel) blob s
  = do_while fuel blob
      {| scan_i := scan_i s + Z.of_nat (String.length inner);
         scan_balance := Z.of_nat b;
         scan_inner := (scan_inner s ++ inner)%string |}.
Proof.
  induction inner as [|c w IH];
    intros fuel blob s b d rest Hjs Hi Hdrop Hrest Hbal Hb Hbig Hs.
  - cbn [balanced_from] in Hbal. apply Nat.eqb_eq in Hbal. subst d.
    cbn [String.length Nat.add]. rewrite append_empty_r.
    destruct s; cbn in *. subst. do 2 f_equal; lia.
  - pose proof (drop_chars_bound _ _ _ _ Hdrop ltac:(cbn; lia)) as Hlen.
    pose proof (balanced_from_length _ _ Hbal) as Hdepth.
    cbn [String.length] in Hlen, Hdepth.
    change (String c w ++ rest)%string with (String c (w ++ rest)) in Hdrop.
    pose proof (char_at_drop_chars blob (scan_i s) c _ Hi Hdrop) as Hc.
    pose proof (drop_chars_S _ _ _ _ Hdrop) as Hnext.
    replace (S (Z.to_nat (scan_i s))) with (Z.to_nat (scan_i s + 1)) in Hnext
      by lia.
    cbn [String.length Nat.add do_while]. unfold scan_body.
    rewrite Hc, Hs. cbn [is_token].
    rewrite (js_incr_exact (scan_i s)) by lia.
    cbn [balanced_from] in Hbal.
    assert (Hfin : forall d',
      balanced_from d' w = true ->
      do_while (String.length w + fuel) blob
        {| scan_i := scan_i s + 1; scan_balance := Z.of_nat (b + d');
           scan_inner := append_char (scan_inner s) (Some c) |}
      = do_while fuel blob
          {| scan_i := scan_i s + Z.of_nat (S (String.length w));
             scan_balance := Z.of_nat b;
             scan_inner := (scan_inner s ++ String c w)%string |}).
    { intros d' Hd'.
      rewrite (IH fuel blob _ b d' rest Hjs); cbn [scan_i scan_balance scan_inner];
        try assumption; try reflexivity; try lia.
      rewrite append_char_append. do 2 f_equal. lia. }
    destruct (Ascii.eqb c TOKEN_LOOP_START).
    + rewrite (js_incr_exact (Z.of_nat (b + d))) by lia.
      cbn [scan_i scan_balance scan_inner].
      destruct (Z.ltb_spec 1 (Z.of_nat (b + d) + 1)); [|lia].
      destruct (Z.eqb_spec (Z.of_nat (b + d) + 1) 0); [lia|]. cbn [negb andb].
      destruct (Z.ltb_spec (scan_i s + 1) (blob_length blob)); [|lia].
      replace (Z.of_nat (b + d) + 1) with (Z.of_nat (b + S d)) by lia.
      now apply Hfin.
    + destruct (Ascii.eqb c TOKEN_LOOP_STOP).
      * destruct d as [|d]; [discriminate|].
        unfold js_decr. pose proof two_53_pos.
        destruct (Z.leb_spec (Z.of_nat (b + S d)) (- two_53)); [lia|].
        cbn [scan_i scan_balance scan_inner].
        destruct (Z.ltb_spec 0 (Z.of_nat (b + S d) - 1)); [|lia].
        destruct (Z.eqb_spec (Z.of_nat (b + S d) - 1) 0); [lia|].
        cbn [negb andb].
        destruct (Z.ltb_spec (scan_i s + 1) (blob_length blob)); [|lia].
        replace (Z.of_nat (b + S d) - 1) with (Z.of_nat (b + d)) by lia.
        now apply Hfin.
      * cbn [scan_i scan_balance scan_inner].
        destruct (Z.eqb_spec (Z.of_nat (b + d)) 0); [lia|]. cbn [negb andb].
        destruct (Z.ltb_spec (scan_i s + 1) (blob_length blob)); [|lia].
        now apply Hfin.
Qed.

(** The scan of a closed loop with a balanced body ends on the character
    after the matching loop-stop, with the body as inner blob. *)
Lemma do_while_closed_loop (blob : string) (fuel : nat) (i : Z)
    (inner rest : string) :
  blob_length blob < two_53 -> 0 <= i ->
  drop_chars (Z.to_nat i) blob
  = String TOKEN_LOOP_START (inner ++ String TOKEN_LOOP_STOP rest) ->
  balanced inner = true ->
  do_while (S (String.length inner + S fuel)) blob
    {| scan_i := i; scan_balance := 0; scan_inner := "" |}
  = Some {| scan_i := i + Z.of_nat (String.length inner) + 2;
            scan_balance := 0; scan_inner := inner |}.
Proof.
  intros Hjs Hi Hdrop Hbal.
  pose proof (drop_chars_bound _ blob (String TOKEN_LOOP_START "") _ Hdrop
                ltac:(cbn; lia)) as Hlen.
  rewrite length_append in Hlen. cbn [String.length] in Hlen.
  pose proof (char_at_drop_chars blob i _ _ Hi Hdrop) as Hopen.
  pose proof (drop_chars_S _ _ _ _ Hdrop) as Hnext.
  replace (S (Z.to_nat i)) with (Z.to_nat (i + 1)) in Hnext by lia.
  pose proof (drop_chars_app _ _ _ _ Hnext) as Hstop.
  replace (Z.to_nat (i + 1) + String.length inner)%nat
    with (Z.to_nat (i + 1 + Z.of_nat (String.length inner))) in Hstop by lia.
  pose proof (char_at_drop_chars blob
                (i + 1 + Z.of_nat (String.length inner)) _ _
                ltac:(lia) Hstop) as Hclose.
  rewrite do_while_first by (try lia; now rewrite Hopen).
  destruct (Z.ltb_spec (i + 1) (blob_length blob)); [|lia].
  rewrite (do_while_inner inner (S fuel) blob _ 1 0
             (String TOKEN_LOOP_STOP rest) Hjs);
    cbn [scan_i scan_balance scan_inner String.length];
    try assumption; try reflexivity; try lia.
  cbn [do_while]. unfold scan_body. cbn [scan_i scan_balance scan_inner].
  rewrite Hclose.
  change (is_token (Some TOKEN_LOOP_STOP) TOKEN_LOOP_START) with false.
  change (is_token (Some TOKEN_LOOP_STOP) TOKEN_LOOP_STOP) with true.
  cbn iota. change (js_decr (Z.of_nat 1)) with 0.
  cbn [scan_i scan_balance scan_inner].
  change (negb (0 =? 0)) with false. change (0 <? 0) with false.
  cbn [andb]. rewrite js_incr_exact by lia. do 2 f_equal. lia.
Qed.

(** X17.  The tree of a source with a loop.  For a source made of a
    stretch without loop-starts, a loop with a balanced body, and a rest,
    [parse] returns the leaves of the stretch, then the tree of the body
    as one nested sequence, then what [parse] returns on the rest less
    its first character; it fails when that parse fails.  The first
    character after a loop never reaches the tree. *)
Theorem parse_loop_shape (pre inner rest : string) (li : list node) :
  blob_length
    (pre ++ String TOKEN_LOOP_START (inner ++ String TOKEN_LOOP_STOP rest))
  < two_53 ->
  count_char TOKEN_LOOP_START pre = O -> balanced inner = true ->
  parse inner = Some {| res := Some li; error := "" |} ->
  parse (pre ++ String TOKEN_LOOP_START (inner ++ String TOKEN_LOOP_STOP rest))
  = match parse (drop_chars 1 rest) with
    | Some r => Some (prepend (leaves_of pre ++ [Seq li]) r)
    | None => None
    end.
Proof.
  set (blob := (pre ++ String TOKEN_LOOP_START
                         (inner ++ String TOKEN_LOOP_STOP rest))%string).
  intros Hjs Hpre Hbal Hinner.
  assert (Hlen : String.length blob
                 = (String.length pre
                    + S (String.length inner + S (String.length rest)))%nat).
  { unfold blob. rewrite length_append. cbn [String.length].
    now rewrite length_append. }
  assert (Hdrop0 : drop_chars (Z.to_nat 0) blob
                   = (pre ++ String TOKEN_LOOP_START
                               (inner ++ String TOKEN_LOOP_STOP rest))%string)
    by reflexivity.
  pose proof (drop_chars_app _ _ _ _ Hdrop0) as Hdrop.
  replace (Z.to_nat 0 + String.length pre)%nat
    with (Z.to_nat (0 + Z.of_nat (String.length pre))) in Hdrop by lia.
  set (P := 0 + Z.of_nat (String.length pre)) in *.
  pose proof (drop_chars_S _ _ _ _ Hdrop) as Hnext.
  pose proof (drop_chars_app _ _ _ _ Hnext) as Hstop.
  pose proof (drop_chars_S _ _ _ _ Hstop) as Hrest.
  unfold blob_length in Hjs.
  set (fuel' := (String.length inner + S (S (String.length rest)))%nat).
  unfold parse, parse_fuel.
  replace (S (String.length blob))
    with (String.length pre + S fuel')%nat by (unfold fuel'; lia).
  rewrite (for_loop_prefix pre (S fuel') blob 0 [] _
             ltac:(unfold blob_length; lia) ltac:(lia) Hdrop0 Hpre).
  fold P. cbn [for_loop app].
  rewrite (char_at_drop_chars blob P _ _ ltac:(lia) Hdrop).
  change (is_token (Some TOKEN_LOOP_START) TOKEN_LOOP_START) with true.
  cbn iota.
  destruct (Z.ltb_spec P (blob_length blob));
    [|unfold blob_length in *; lia].
  unfold fuel' at 1.
  replace (String.length inner + S (S (String.length rest)))%nat
    with (S (String.length inner + S (String.length rest))) by lia.
  rewrite (do_while_closed_loop blob (String.length rest) P inner rest
             ltac:(unfold blob_length; lia) ltac:(lia) Hdrop Hbal).
  cbn [scan_i scan_balance scan_inner]. change (negb (0 =? 0)) with false.
  cbn iota.
  rewrite (for_loop_stable fuel' (S (String.length inner)) inner 0 [])
    by (unfold blob_length, fuel' in *; lia).
  unfold parse, parse_fuel in Hinner. rewrite Hinner.
  cbn [error res inner_node]. change (negb (String.eqb "" "")) with false.
  cbn iota.
  rewrite js_incr_exact by (unfold blob_length in *; lia).
  rewrite for_loop_acc.
  destruct rest as [|c r].
  - cbn [drop_chars]. unfold fuel'.
    replace (String.length inner + S (S (String.length "")))%nat
      with (S (S (String.length inner))) by (cbn [String.length]; lia).
    cbn [for_loop String.length]. cbn [String.length] in Hlen.
    destruct (Z.ltb_spec (P + Z.of_nat (String.length inner) + 2 + 1)
                (blob_length blob)); [unfold blob_length in *; lia|].
    reflexivity.
  - cbn [drop_chars]. cbn [String.length] in *.
    pose proof (drop_chars_S _ _ _ _ Hrest) as Hr.
    replace (P + Z.of_nat (String.length inner) + 2 + 1)
      with (0 + Z.of_nat (S (S (S (Z.to_nat P) + String.length inner))))
      by lia.
    rewrite <- (for_loop_suffix fuel' blob _ 0 [])
      by (unfold blob_length; lia).
    rewrite Hr.
    rewrite (for_loop_stable fuel' (S (String.length r)) r 0 [])
      by (unfold blob_length, fuel' in *; cbn [String.length]; lia).
    reflexivity.
Qed.

Lemma parse_loop_shape_witness :
  parse ("+]" ++ String TOKEN_LOOP_START
                   ("-[>]" ++ String TOKEN_LOOP_STOP "<+."))
  = match parse (drop_chars 1 "<+.") with
    | Some r =>
        Some (prepend
                (leaves_of "+]"
                 ++ [Seq [Leaf (Some "-"%char); Seq [Leaf (Some ">"%char)]]])
                r)
    | None => None
    end.
Proof.
  apply (parse_loop_shape "+]" "-[>]" "<+."
           [Leaf (Some "-"%char); Seq [Leaf (Some ">"%char)]]);
    reflexivity.
Defined.

End ParserMore.

(** * Further properties of the evaluator *)

Module EvaluatorMore.
Import Evaluator EvaluatorSpec.

(** *** Runs and steps *)

Lemma steps_app (a : nat) :
  forall (b : nat) (blob : string) (s : state),
  steps (a + b) blob s
  = match steps a blob s with
    | Some s' => steps b blob s'
    | None => None
    end.
Proof.
  induction a as [|a IH]; intros b blob s; cbn [Nat.add steps];
    [reflexivity|].
  destruct (step blob s); [apply IH | reflexivity].
Qed.

Lemma run_S (fuel : nat) (blob : string) (s : state) :
  run (S fuel) blob s
  = match step blob s with
    | Return r => Some r
    | Continue s' => run fuel blob s'
    end.
Proof. reflexivity. Qed.

(** A run that returns has a last state, from which the step returns. *)
Lemma run_last (fuel : nat) :
  forall (blob : string) (s0 : state) (r : eval_result),
  run fuel blob s0 = Some r ->
  exists n s, (n < fuel)%nat /\ steps n blob s0 = Some s
              /\ step blob s = Return r.
Proof.
  induction fuel as [|fuel IH]; intros blob s0 r H; [discriminate|].
  cbn [run] in H. destruct (step blob s0) as [s1|r1] eqn:Hstep.
  - destruct (IH _ _ _ H) as (n & s & Hn & Hs & Hr).
    exists (S n), s. split; [lia|]. cbn [steps]. now rewrite Hstep.
  - inversion H; subst r1. exists O, s0. split; [lia|]. now split.
Qed.

(** A state reached before the run returns is passed by the run. *)
Lemma run_from_reached (n fuel : nat) (blob : string) (s : state)
    (r : eval_result) :
  steps n blob init = Some s -> eval fuel blob = Some r ->
  exists fuel', run fuel' blob s = Some r.
Proof.
  intros Hs Hr. unfold eval in Hr.
  destruct (Nat.le_gt_cases fuel n) as [Hle|Hgt].
  - rewrite (run_before_steps n _ _ _ _ Hs Hle) in Hr. discriminate.
  - replace fuel with (n + (fuel - n))%nat in Hr by lia.
    rewrite (run_steps n _ _ _ _ Hs) in Hr. eauto.
Qed.

(** A property that every step keeps holds in every state reached. *)
Lemma steps_invariant (blob : string) (P : state -> Prop) :
  (forall s s', P s -> step blob s = Continue s' -> P s') ->
  forall (n : nat) (s s' : state),
  P s -> steps n blob s = Some s' -> P s'.
Proof.
  intros Hstep. induction n as [|n IH]; intros s s' HP H; cbn [steps] in H.
  - now inversion H; subst.
  - destruct (step blob s) as [s1|] eqn:Hs1; [|discriminate].
    apply (IH s1); [now apply (Hstep s) | exact H].
Qed.

(** *** The backward scan never returns *)

(** Inside the backward scan the index is below the length of the blob:
    it is so at the loop-stop where the scan starts, and it only goes
    down. *)
Lemma backward_index_below (blob : string) (n : nat) (s : state) :
  steps n blob init = Some s -> pc s = ScanBackward ->
  i s < blob_length blob.
Proof.
  intros Hs.
  refine (steps_invariant blob
            (fun s => pc s = ScanBackward -> i s < blob_length blob)
            _ n init s _ Hs); [|discriminate].
  clear. intros s s' Hinv H. unfold step, scan_test in H.
  pose proof (js_decr_le (i s)) as Hdec.
  destruct (pc s).
  - destruct (Z.ltb_spec (i s) (blob_length blob)); [|discriminate].
    repeat match type of H with
           | (if ?b then _ else _) = _ => destruct b
           end; inversion H; cbn; try discriminate; intros _; lia.
  - repeat match type of H with
           | (if ?b then _ else _) = _ => destruct b
           end; inversion H; cbn; discriminate.
  - specialize (Hinv eq_refl).
    repeat match type of H with
           | (if ?b then _ else _) = _ => destruct b
           end; inversion H; cbn; try discriminate; intros _; lia.
Qed.

(** X7.  The backward scan never returns: in every state that [eval]
    reaches inside the backward [do ... while], the next step goes on, so
    the error return after that loop (line 135) is never taken.  When
    [eval] returns the unterminated-loop error, it does so from the forward
    scan. *)
Theorem eval_error_only_from_forward_scan (blob : string) :
  (forall n s, steps n blob init = Some s -> pc s = ScanBackward ->
               exists s', step blob s = Continue s')
  /\ (forall fuel, eval fuel blob = Some unterminated ->
       exists n s, steps n blob init = Some s /\ pc s = ScanForward
                   /\ step blob s = Return unterminated).
Proof.
  assert (Hback : forall n s, steps n blob init = Some s ->
                    pc s = ScanBackward -> exists s', step blob s = Continue s').
  { intros n s Hs Hpc. pose proof (backward_index_below blob n s Hs Hpc) as Hi.
    unfold step, scan_test. rewrite Hpc.
    pose proof (js_decr_le (i s)) as Hdec.
    destruct (Z.ltb_spec (js_decr (i s)) (blob_length blob)); [|lia].
    destruct (negb (scan_balance blob s =? 0)); cbn [andb]; eauto. }
  split; [exact Hback|].
  intros fuel H. destruct (run_last _ _ _ _ H) as (n & s & _ & Hs & Hr).
  exists n, s. split; [exact Hs|]. split; [|exact Hr].
  destruct (pc s) eqn:Hpc; [|reflexivity|].
  - unfold step in Hr. rewrite Hpc in Hr.
    repeat match type of Hr with
           | (if ?b then _ else _) = _ => destruct b
           end; discriminate.
  - destruct (Hback n s Hs Hpc) as [s' Hs']. congruence.
Qed.

Lemma eval_error_only_from_forward_scan_witness :
  exists n s, steps n "+-[+" init = Some s /\ pc s = ScanForward
              /\ step "+-[+" s = Return unterminated.
Proof.
  apply (proj2 (eval_error_only_from_forward_scan "+-[+") 10%nat).
  by_evaluation.
Defined.

(** *** Unmatched delimiters *)

Lemma char_before_not (c : ascii) (blob : string) (k : nat) (j : Z) :
  count_char c (substring 0 k blob) = O -> j < Z.of_nat k ->
  is_token (char_at blob j) c = false.
Proof.
  intros Hc Hj. unfold char_at. destruct (Z.ltb_spec j 0); [reflexivity|].
  pose proof (substring_correct1 blob 0 k (Z.to_nat j) ltac:(lia)) as Hget.
  rewrite Nat.add_0_r in Hget. rewrite <- Hget. unfold is_token.
  apply (ParserMore.get_count_zero c _ O); [exact Hc | lia].
Qed.

(** X8.  When [eval] reaches a loop-stop with the current cell above zero
    and the source has no loop-start before it, [eval] never returns: the
    backward scan goes on below index 0 for ever. *)
Theorem eval_unmatched_stop_never_returns (blob : string) (n : nat)
    (s : state) :
  steps n blob init = Some s -> pc s = ForTest ->
  0 <= i s < blob_length blob ->
  char_at blob (i s) = Some TOKEN_LOOP_STOP ->
  num_is_pos (array_get (mem s) (datPtr s)) = true ->
  count_char TOKEN_LOOP_START (substring 0 (Z.to_nat (i s)) blob) = O ->
  diverges blob.
Proof.
  intros Hs Hpc Hi Hc Hpos Hno fuel. unfold eval.
  set (s2 := {| pc := ScanBackward; i := i s - 1; balance := -1;
                datPtr := datPtr s; mem := mem s;
                programOutput := programOutput s |}).
  apply (run_diverges_after (n + 2) blob init s2).
  - rewrite steps_app, Hs. cbn [steps].
    assert (H1 : step blob s = Continue (reset_balance s ScanBackward)).
    { unfold step. rewrite Hpc, Hc, Hpos.
      destruct (Z.ltb_spec (i s) (blob_length blob)); [reflexivity | lia]. }
    rewrite H1.
    assert (H2 : step blob (reset_balance s ScanBackward) = Continue s2).
    { unfold step, scan_test, scan_balance.
      cbn [reset_balance pc i balance datPtr mem programOutput].
      rewrite Hc. change (is_token (Some TOKEN_LOOP_STOP) TOKEN_LOOP_START)
        with false.
      change (is_token (Some TOKEN_LOOP_STOP) TOKEN_LOOP_STOP) with true.
      cbn iota. change (js_decr 0) with (-1).
      change (negb (-1 =? 0)) with true. cbn [andb].
      unfold js_decr. pose proof two_53_pos.
      destruct (Z.leb_spec (i s) (- two_53)); [lia|].
      destruct (Z.ltb_spec (i s - 1) (blob_length blob)); [reflexivity | lia]. }
    now rewrite H2.
  - intros f. apply scan_backward_diverges; cbn [s2 pc balance i];
      try reflexivity; try lia.
    intros j Hj. apply (char_before_not _ _ (Z.to_nat (i s))); [exact Hno|lia].
Qed.

Lemma eval_unmatched_stop_never_returns_witness : diverges ">+.]<".
Proof.
  apply (eval_unmatched_stop_never_returns ">+.]<" 3
           {| pc := ForTest; i := 3; balance := 0; datPtr := 1;
              mem := tape_with 1 1; programOutput := [1] |});
    first [by_evaluation | reflexivity | split; [discriminate | reflexivity]].
Defined.

(** A forward scan that has an open loop-start behind it or under it, and
    no loop-stop from its index on, runs to the end of the source and
    returns the error. *)
Lemma scan_forward_unterminated (blob : string) (k : nat) :
  forall s : state,
  blob_length blob < two_53 ->
  pc s = ScanForward -> 0 <= i s < blob_length blob ->
  blob_length blob - i s = Z.of_nat k -> 0 <= balance s ->
  (1 <= balance s
   \/ is_token (char_at blob (i s)) TOKEN_LOOP_START = true) ->
  (forall j, i s <= j -> is_token (char_at blob j) TOKEN_LOOP_STOP = false) ->
  run k blob s = Some unterminated.
Proof.
  induction k as [|k IH]; intros s Hjs Hpc Hi Hk Hb Hopen Hno; [lia|].
  cbn [run]. unfold step, scan_test. rewrite Hpc.
  rewrite (js_incr_exact (i s)) by lia.
  assert (Hb' : 1 <= scan_balance blob s).
  { unfold scan_balance. rewrite (Hno (i s)) by lia.
    pose proof (ParserMore.js_incr_ge (balance s)).
    destruct (is_token (char_at blob (i s)) TOKEN_LOOP_START) eqn:Htok.
    - unfold js_incr in *. pose proof two_53_pos.
      destruct (Z.leb_spec two_53 (balance s)); lia.
    - destruct Hopen; [lia | discriminate]. }
  destruct (Z.eqb_spec (scan_balance blob s) 0); [lia|]. cbn [negb andb].
  destruct (Z.ltb_spec (i s + 1) (blob_length blob)).
  - apply IH; cbn [pc i balance]; try lia; try reflexivity.
    intros j Hj. apply Hno. lia.
  - reflexivity.
Qed.

(** X9.  When [eval] reaches a loop-start with the current cell at zero
    and the source has no loop-stop from there on, [eval] returns the
    unterminated-loop error. *)
Theorem eval_unclosed_loop_fails (blob : string) (n : nat) (s : state) :
  blob_length blob < two_53 ->
  steps n blob init = Some s -> pc s = ForTest ->
  0 <= i s < blob_length blob ->
  char_at blob (i s) = Some TOKEN_LOOP_START ->
  num_is_zero (array_get (mem s) (datPtr s)) = true ->
  count_char TOKEN_LOOP_STOP
    (Parser.drop_chars (Z.to_nat (i s)) blob) = O ->
  evaluates blob unterminated.
Proof.
  intros Hjs Hs Hpc Hi Hc Hzero Hno.
  exists (n + S (Z.to_nat (blob_length blob - i s)))%nat. unfold eval.
  rewrite (run_steps n _ _ _ _ Hs). cbn [run].
  assert (H1 : step blob s = Continue (reset_balance s ScanForward)).
  { unfold step. rewrite Hpc, Hc, Hzero.
    destruct (Z.ltb_spec (i s) (blob_length blob)); [reflexivity | lia]. }
  rewrite H1. apply scan_forward_unterminated;
    cbn [reset_balance pc i balance]; try lia; try reflexivity.
  - right. now rewrite Hc.
  - intros j Hj.
    apply (ParserMore.char_at_count_zero _ blob (i s) j); [lia | exact Hno | lia].
Qed.

Lemma eval_unclosed_loop_fails_witness : evaluates "+>[+[-" unterminated.
Proof.
  apply (eval_unclosed_loop_fails "+>[+[-" 2
           {| pc := ForTest; i := 2; balance := 0; datPtr := 1;
              mem := tape_with 0 1; programOutput := [] |});
    first [by_evaluation | reflexivity | split; [discriminate | reflexivity]].
Defined.

(** *** Sources without loops *)

(** Evaluates the comparisons of two given characters in the goal. *)
Ltac decide_tokens :=
  repeat match goal with
         | |- context [Ascii.eqb ?a ?b] =>
             let v := eval vm_compute in (Ascii.eqb a b) in
             lazymatch v with
             | true => change (Ascii.eqb a b) with true
             | false => change (Ascii.eqb a b) with false
             end
         end.

Lemma pointer_shift_cons (c : ascii) (r : string) :
  pointer_shift (String c r)
  = (if Ascii.eqb c TOKEN_RIGHT then 1 else 0)
    - (if Ascii.eqb c TOKEN_LEFT then 1 else 0) + pointer_shift r.
Proof.
  unfold pointer_shift. cbn [count_char].
  destruct (Ascii.eqb c TOKEN_RIGHT), (Ascii.eqb c TOKEN_LEFT); lia.
Qed.

Lemma run_straight_line (rest : string) :
  forall (blob : string) (s : state),
  blob_length blob < two_53 -> pc s = ForTest -> 0 <= i s ->
  Parser.drop_chars (Z.to_nat (i s)) blob = rest ->
  count_char TOKEN_LOOP_START rest = O ->
  count_char TOKEN_LOOP_STOP rest = O ->
  Z.abs (datPtr s) + Z.of_nat (String.length rest) < two_53 ->
  exists out m,
    run (S (String.length rest)) blob s
    = Some (returned (datPtr s + pointer_shift rest)
              (programOutput s ++ out)%list m)
    /\ length out = count_char TOKEN_PRINT rest.
Proof.
  induction rest as [|c r IH]; intros blob s Hjs Hpc Hi Hrest Hopen Hclose Hptr.
  - exists [], (mem s). split; [|reflexivity].
    pose proof (ParserSpec.length_drop_chars (Z.to_nat (i s)) blob) as Hl.
    rewrite Hrest in Hl. cbn [String.length] in Hl.
    cbn [run]. unfold step. rewrite Hpc.
    destruct (Z.ltb_spec (i s) (blob_length blob));
      [unfold blob_length in *; lia|].
    rewrite app_nil_r. change (pointer_shift "") with 0.
    now rewrite Z.add_0_r.
  - assert (Hlt : i s < blob_length blob).
    { pose proof (ParserSpec.length_drop_chars (Z.to_nat (i s)) blob) as Hl.
      rewrite Hrest in Hl. cbn [String.length] in Hl.
      unfold blob_length. lia. }
    destruct (ParserMore.drop_chars_cons blob (i s) ltac:(lia))
      as (c' & r' & Hrest' & Hc & Hnext).
    rewrite Hrest in Hrest'. injection Hrest' as <- <-.
    cbn [count_char String.length] in *.
    destruct (Ascii.eqb c TOKEN_LOOP_START) eqn:Eopen; [discriminate|].
    destruct (Ascii.eqb c TOKEN_LOOP_STOP) eqn:Eclose; [discriminate|].
    cbn [Nat.add] in Hopen, Hclose.
    assert (Hstep : exists s1 o,
      step blob s = Continue s1 /\ pc s1 = ForTest /\ i s1 = i s + 1
      /\ datPtr s1 = datPtr s
                     + ((if Ascii.eqb c TOKEN_RIGHT then 1 else 0)
                        - (if Ascii.eqb c TOKEN_LEFT then 1 else 0))
      /\ programOutput s1 = (programOutput s ++ o)%list
      /\ length o = if Ascii.eqb c TOKEN_PRINT then 1%nat else O).
    { unfold step. rewrite Hpc, Hc. cbn [is_token]. rewrite Eopen, Eclose.
      destruct (Z.ltb_spec (i s) (blob_length blob)); [|lia].
      assert (Hinc : js_incr (i s) = i s + 1) by (apply js_incr_exact; lia).
      assert (Hpi : js_incr (datPtr s) = datPtr s + 1)
        by (apply js_incr_exact; lia).
      assert (Hpd : js_decr (datPtr s) = datPtr s - 1).
      { unfold js_decr. destruct (Z.leb_spec (datPtr s) (- two_53)); lia. }
      destruct (Ascii.eqb c TOKEN_INCR) eqn:E1;
        [apply Ascii.eqb_eq in E1; subst c; decide_tokens;
         eexists _, []; split; [reflexivity|];
         cbn [next_iteration set_mem pc i datPtr programOutput];
         rewrite ?app_nil_r; repeat split; lia|].
      destruct (Ascii.eqb c TOKEN_DECR) eqn:E2;
        [apply Ascii.eqb_eq in E2; subst c; decide_tokens;
         eexists _, []; split; [reflexivity|];
         cbn [next_iteration set_mem pc i datPtr programOutput];
         rewrite ?app_nil_r; repeat split; lia|].
      destruct (Ascii.eqb c TOKEN_RIGHT) eqn:E3;
        [apply Ascii.eqb_eq in E3; subst c; decide_tokens;
         eexists _, []; split; [reflexivity|];
         cbn [next_iteration set_datPtr pc i datPtr programOutput];
         rewrite ?app_nil_r; repeat split; lia|].
      destruct (Ascii.eqb c TOKEN_LEFT) eqn:E4;
        [apply Ascii.eqb_eq in E4; subst c; decide_tokens;
         eexists _, []; split; [reflexivity|];
         cbn [next_iteration set_datPtr pc i datPtr programOutput];
         rewrite ?app_nil_r; repeat split; lia|].
      destruct (Ascii.eqb c TOKEN_INPUT) eqn:E5;
        [apply Ascii.eqb_eq in E5; subst c; decide_tokens;
         eexists _, []; split; [reflexivity|];
         cbn [next_iteration pc i datPtr programOutput];
         rewrite ?app_nil_r; repeat split; lia|].
      destruct (Ascii.eqb c TOKEN_PRINT) eqn:E6.
      - eexists _, [_]. split; [reflexivity|].
        cbn [next_iteration push_output pc i datPtr programOutput].
        repeat split; lia.
      - eexists _, []. split; [reflexivity|].
        cbn [next_iteration pc i datPtr programOutput].
        rewrite ?app_nil_r. repeat split; lia. }
    destruct Hstep as (s1 & o & Hs1 & Hpc1 & Hi1 & Hp1 & Ho1 & Hlo).
    destruct (IH blob s1 Hjs Hpc1) as (out & m & Hrun & Hlen);
      rewrite ?Hi1; try lia; try assumption.
    { rewrite Hp1.
      destruct (Ascii.eqb c TOKEN_RIGHT), (Ascii.eqb c TOKEN_LEFT); lia. }
    exists (o ++ out)%list, m. split.
    + rewrite run_S, Hs1, Hrun, Hp1, Ho1, pointer_shift_cons.
      now rewrite <- app_assoc, Z.add_assoc.
    + rewrite length_app, Hlo, Hlen.
      destruct (Ascii.eqb c TOKEN_PRINT); reflexivity.
Qed.

(** X10.  A source without loop delimiters is run to its end: [eval]
    returns after one step per character with an empty [error], the data
    pointer at the number of move-rights less the number of move-lefts,
    and one output character per write-output. *)
Theorem eval_straight_line (blob : string) :
  blob_length blob < two_53 ->
  count_char TOKEN_LOOP_START blob = O ->
  count_char TOKEN_LOOP_STOP blob = O ->
  exists out m,
    eval (S (String.length blob)) blob
    = Some (returned (pointer_shift blob) out m)
    /\ length out = count_char TOKEN_PRINT blob.
Proof.
  intros Hjs Hopen Hclose.
  destruct (run_straight_line blob blob init Hjs) as (out & m & Hrun & Hlen);
    try reflexivity; try assumption.
  exists out, m. split; [exact Hrun | exact Hlen].
Qed.

Lemma eval_straight_line_witness :
  exists out m,
    eval (S (String.length ">>+.<x.")) ">>+.<x."
    = Some (returned (pointer_shift ">>+.<x.") out m)
    /\ length out = count_char TOKEN_PRINT ">>+.<x.".
Proof. apply (eval_straight_line ">>+.<x."); reflexivity. Defined.

(** *** What every run keeps *)

Lemma step_output_grows (blob : string) (s s' : state) :
  step blob s = Continue s' ->
  exists o, programOutput s' = (programOutput s ++ o)%list
            /\ Forall (fun c => 0 <= c < 65536) o.
Proof.
  unfold step, scan_test. intros H.
  assert (Hcode : forall v, 0 <= fromCharCode v < 65536).
  { intros [[z|]|]; cbn [fromCharCode]; try lia.
    apply Z.mod_pos_bound. lia. }
  destruct (pc s);
    repeat match type of H with
           | (if ?b then _ else _) = _ => destruct b
           end; inversion H; cbn;
    first [ exists []; split; [now rewrite app_nil_r | constructor]
          | eexists [_]; split; [reflexivity|];
            constructor; [apply Hcode | constructor] ].
Qed.

Lemma step_return_output (blob : string) (s : state) (r : eval_result)
    (out : list Z) :
  step blob s = Return r -> stdout r = Some out -> out = programOutput s.
Proof.
  unfold step, scan_test. intros H Hout.
  destruct (pc s);
    repeat match type of H with
           | (if ?b then _ else _) = _ => destruct b
           end; inversion H; subst r; cbn in Hout; congruence.
Qed.

Lemma run_output (fuel : nat) :
  forall (blob : string) (s : state) (r : eval_result) (out : list Z),
  run fuel blob s = Some r -> stdout r = Some out ->
  programOutput s `prefix_of` out.
Proof.
  induction fuel as [|fuel IH]; intros blob s r out H Hout; [discriminate|].
  cbn [run] in H. destruct (step blob s) as [s1|r1] eqn:Hstep.
  - destruct (step_output_grows blob s s1 Hstep) as (o & Ho & _).
    destruct (IH _ _ _ _ H Hout) as [k Hk]. rewrite Ho in Hk.
    exists (o ++ k)%list. now rewrite Hk, <- app_assoc.
  - inversion H; subst r1.
    rewrite (step_return_output blob s r out Hstep Hout). reflexivity.
Qed.

(** X11.  The output is append-only: what [eval] has put out in any state
    it goes through is a prefix of the [stdout] it returns. *)
Theorem eval_output_append_only (blob : string) (n fuel : nat) (s : state)
    (r : eval_result) (out : list Z) :
  steps n blob init = Some s -> eval fuel blob = Some r ->
  stdout r = Some out ->
  programOutput s `prefix_of` out.
Proof.
  intros Hs Hr Hout. destruct (run_from_reached n fuel blob s r Hs Hr) as [f Hf].
  exact (run_output f blob s r out Hf Hout).
Qed.

Lemma eval_output_append_only_witness : [2] `prefix_of` [2; 1].
Proof.
  apply (eval_output_append_only "++.-." 3 10
           {| pc := ForTest; i := 3; balance := 0; datPtr := 0;
              mem := tape_with 0 2; programOutput := [2] |}
           (returned 0 [2; 1] (tape_with 0 1)));
    first [by_evaluation | reflexivity].
Defined.

(** X13.  The tape never shrinks: whatever the source does, the [mem] that
    [eval] returns has at least the 30000 cells it started with. *)
Theorem eval_tape_never_shrinks (blob : string) (fuel : nat)
    (r : eval_result) (m : jsarray) :
  eval fuel blob = Some r -> res_mem r = Some m ->
  (tape_length <= length (elems m))%nat.
Proof.
  intros Hr Hm. destruct (run_last _ _ _ _ Hr) as (n & s & _ & Hs & Hret).
  rewrite (step_return_mem blob s r m Hret Hm).
  refine (steps_invariant blob
            (fun s => (tape_length <= length (elems (mem s)))%nat)
            _ n init s _ Hs).
  - clear. intros s s' HP H. destruct (writes_cell blob s) eqn:Hw.
    + destruct (step_writes_mem blob s s' H Hw) as [-> | ->];
        (etransitivity; [exact HP | apply array_set_length]).
    + now rewrite (step_keeps_mem blob s s' H Hw).
  - cbn [init mem fresh_mem elems]. now rewrite length_replicate.
Qed.

Lemma eval_tape_never_shrinks_witness :
  (tape_length
   <= length (elems {| elems := elems (tape_with 0 (-1)%Z);
                       props := {[ (-2)%Z := NaN ]} |}))%nat.
Proof.
  apply (eval_tape_never_shrinks "<<+>>-." 10
           (returned 0 [65535]
              {| elems := elems (tape_with 0 (-1));
                 props := {[ -2 := NaN ]} |})).
  - by_evaluation.
  - reflexivity.
Defined.

(** *** Jumps over and back into a loop *)

Lemma js_decr_exact (x : Z) : - two_53 < x -> js_decr x = x - 1.
Proof.
  intros H. unfold js_decr. destruct (Z.leb_spec x (- two_53)); [lia | easy].
Qed.

(** The forward scan over a stretch that closes [d] loops and is followed
    by more source: the index goes to its end and the balance down by
    [d], without reaching zero on the way. *)
Lemma scan_forward_inner (blob : string) (inner : string) :
  forall (s : state) (b d : nat) (rest : string),
  blob_length blob < two_53 -> pc s = ScanForward -> 0 <= i s ->
  Parser.drop_chars (Z.to_nat (i s)) blob = (inner ++ rest)%string ->
  (1 <= String.length rest)%nat ->
  Parser.balanced_from d inner = true -> (1 <= b)%nat ->
  Z.of_nat b + (blob_length blob - i s) < two_53 ->
  balance s = Z.of_nat (b + d) ->
  steps (String.length inner) blob s
  = Some {| pc := ScanForward; i := i s + Z.of_nat (String.length inner);
            balance := Z.of_nat b; datPtr := datPtr s; mem := mem s;
            programOutput := programOutput s |}.
Proof.
  induction inner as [|c w IH];
    intros s b d rest Hjs Hpc Hi Hdrop Hrest Hbal Hb Hbig Hs.
  - cbn [Parser.balanced_from] in Hbal. apply Nat.eqb_eq in Hbal. subst d.
    cbn [steps String.length]. destruct s; cbn in *. subst.
    do 2 f_equal; lia.
  - pose proof (ParserMore.drop_chars_bound _ _ _ _ Hdrop ltac:(cbn; lia)) as Hlen.
    pose proof (ParserSpec.balanced_from_length _ _ Hbal) as Hdepth.
    cbn [String.length] in Hlen, Hdepth.
    change (String c w ++ rest)%string with (String c (w ++ rest)) in Hdrop.
    pose proof (ParserSpec.char_at_drop_chars blob (i s) c _ Hi Hdrop) as Hc.
    pose proof (ParserSpec.drop_chars_S _ _ _ _ Hdrop) as Hnext.
    replace (S (Z.to_nat (i s))) with (Z.to_nat (i s + 1)) in Hnext by lia.
    cbn [steps String.length]. unfold step, scan_test, scan_balance.
    rewrite Hpc, Hc, Hs. cbn [is_token].
    rewrite (js_incr_exact (i s)) by lia.
    destruct (Z.ltb_spec (i s + 1) (blob_length blob)); [|lia].
    cbn [Parser.balanced_from] in Hbal.
    destruct (Ascii.eqb c TOKEN_LOOP_START).
    + rewrite (js_incr_exact (Z.of_nat (b + d))) by lia.
      destruct (Z.eqb_spec (Z.of_nat (b + d) + 1) 0); [lia|]. cbn [negb andb].
      rewrite (IH _ b (S d) rest); cbn [pc i balance datPtr mem programOutput];
        try assumption; try reflexivity; try lia.
      do 2 f_equal; lia.
    + destruct (Ascii.eqb c TOKEN_LOOP_STOP).
      * destruct d as [|d]; [discriminate|].
        rewrite (js_decr_exact (Z.of_nat (b + S d)))
          by (pose proof two_53_pos; lia).
        destruct (Z.eqb_spec (Z.of_nat (b + S d) - 1) 0); [lia|].
        cbn [negb andb].
        rewrite (IH _ b d rest); cbn [pc i balance datPtr mem programOutput];
          try assumption; try reflexivity; try lia.
        do 2 f_equal; lia.
      * destruct (Z.eqb_spec (Z.of_nat (b + d)) 0); [lia|]. cbn [negb andb].
        rewrite (IH _ b d rest); cbn [pc i balance datPtr mem programOutput];
          try assumption; try reflexivity; try lia.
        do 2 f_equal; lia.
Qed.

(** X14.  The skip of a loop as the code does it: when [eval] meets a
    loop-start with the current cell at zero and the loop is closed by a
    matching loop-stop, [eval] goes on at the second character after that
    loop-stop, with the data pointer, the tape and the output as they
    were.  The character right after the loop-stop is stepped over. *)
Theorem eval_skip_lands_two_past_stop (blob : string) (s : state)
    (inner rest : string) :
  blob_length blob < two_53 -> pc s = ForTest -> 0 <= i s ->
  Parser.drop_chars (Z.to_nat (i s)) blob
  = String TOKEN_LOOP_START (inner ++ String TOKEN_LOOP_STOP rest) ->
  Parser.balanced inner = true ->
  num_is_zero (array_get (mem s) (datPtr s)) = true ->
  steps (String.length inner + 3) blob s
  = Some {| pc := ForTest; i := i s + Z.of_nat (String.length inner) + 3;
            balance := 0; datPtr := datPtr s; mem := mem s;
            programOutput := programOutput s |}.
Proof.
  intros Hjs Hpc Hi Hdrop Hbal Hzero.
  pose proof (ParserMore.drop_chars_bound _ blob (String TOKEN_LOOP_START "") _ Hdrop
                ltac:(cbn; lia)) as Hlen.
  rewrite length_append in Hlen. cbn [String.length] in Hlen.
  pose proof (ParserSpec.char_at_drop_chars blob (i s) _ _ Hi Hdrop) as Hc.
  pose proof (ParserSpec.drop_chars_S _ _ _ _ Hdrop) as Hnext.
  replace (S (Z.to_nat (i s))) with (Z.to_nat (i s + 1)) in Hnext by lia.
  pose proof (ParserMore.drop_chars_app _ _ _ _ Hnext) as Hstop.
  replace (Z.to_nat (i s + 1) + String.length inner)%nat
    with (Z.to_nat (i s + 1 + Z.of_nat (String.length inner))) in Hstop by lia.
  replace (String.length inner + 3)%nat
    with (2 + (String.length inner + 1))%nat by lia.
  rewrite steps_app. cbn [steps].
  assert (H1 : step blob s = Continue (reset_balance s ScanForward)).
  { unfold step. rewrite Hpc, Hc, Hzero.
    destruct (Z.ltb_spec (i s) (blob_length blob)); [reflexivity | lia]. }
  rewrite H1.
  assert (H2 : step blob (reset_balance s ScanForward)
               = Continue {| pc := ScanForward; i := i s + 1; balance := 1;
                             datPtr := datPtr s; mem := mem s;
                             programOutput := programOutput s |}).
  { unfold step, scan_test, scan_balance.
    cbn [reset_balance pc i balance datPtr mem programOutput].
    rewrite Hc. change (is_token (Some TOKEN_LOOP_START) TOKEN_LOOP_START)
      with true. cbn iota. change (js_incr 0) with 1.
    change (negb (1 =? 0)) with true. cbn [andb].
    rewrite (js_incr_exact (i s)) by lia.
    destruct (Z.ltb_spec (i s + 1) (blob_length blob)); [reflexivity | lia]. }
  rewrite H2, steps_app.
  rewrite (scan_forward_inner blob inner _ 1 0 (String TOKEN_LOOP_STOP rest));
    cbn [pc i balance datPtr mem programOutput String.length];
    try assumption; try lia; try reflexivity.
  cbn [steps]. unfold step, scan_test, scan_balance.
  cbn [pc i balance datPtr mem programOutput].
  rewrite (ParserSpec.char_at_drop_chars blob
             (i s + 1 + Z.of_nat (String.length inner)) _ _ ltac:(lia) Hstop).
  change (is_token (Some TOKEN_LOOP_STOP) TOKEN_LOOP_START) with false.
  change (is_token (Some TOKEN_LOOP_STOP) TOKEN_LOOP_STOP) with true.
  cbn iota. change (js_decr (Z.of_nat 1)) with 0.
  change (negb (0 =? 0)) with false. cbn [andb].
  unfold next_iteration. cbn [pc i balance datPtr mem programOutput].
  rewrite !js_incr_exact by (rewrite ?js_incr_exact; lia).
  do 2 f_equal; lia.
Qed.

Lemma eval_skip_lands_two_past_stop_witness :
  steps (String.length "-[+]" + 3) "[-[+]]+." init
  = Some {| pc := ForTest; i := 0 + Z.of_nat (String.length "-[+]") + 3;
            balance := 0; datPtr := 0; mem := fresh_mem;
            programOutput := [] |}.
Proof.
  apply (eval_skip_lands_two_past_stop "[-[+]]+." init "-[+]" "+.");
    first [by_evaluation | reflexivity | discriminate].
Defined.

(** The backward scan over a stretch that closes [d] loops: the index goes
    to the character before it and the balance down by [d], without
    reaching zero on the way. *)
Lemma scan_backward_inner (blob : string) (inner : string) :
  forall (start : Z) (s : state) (k d : nat) (rest : string),
  blob_length blob < two_53 -> pc s = ScanBackward -> 0 <= start ->
  Parser.drop_chars (Z.to_nat start) blob = (inner ++ rest)%string ->
  i s = start + Z.of_nat (String.length inner) - 1 ->
  Parser.balanced_from d inner = true -> (1 <= k)%nat ->
  Z.of_nat k + blob_length blob <= two_53 ->
  balance s = - Z.of_nat k ->
  steps (String.length inner) blob s
  = Some {| pc := ScanBackward; i := start - 1;
            balance := - Z.of_nat (k + d); datPtr := datPtr s; mem := mem s;
            programOutput := programOutput s |}.
Proof.
  induction inner as [|c w IH];
    intros start s k d rest Hjs Hpc Hstart Hdrop Hi Hbal Hk Hbig Hs.
  - cbn [Parser.balanced_from] in Hbal. apply Nat.eqb_eq in Hbal. subst d.
    cbn [steps String.length] in *. destruct s; cbn in *. subst.
    do 2 f_equal; lia.
  - pose proof (ParserMore.drop_chars_bound _ _ _ _ Hdrop ltac:(cbn; lia)) as Hlen.
    pose proof (ParserSpec.balanced_from_length _ _ Hbal) as Hdepth.
    cbn [String.length] in Hlen, Hdepth, Hi.
    change (String c w ++ rest)%string with (String c (w ++ rest)) in Hdrop.
    pose proof (ParserSpec.char_at_drop_chars blob start c _ Hstart Hdrop)
      as Hc.
    pose proof (ParserSpec.drop_chars_S _ _ _ _ Hdrop) as Hnext.
    replace (S (Z.to_nat start)) with (Z.to_nat (start + 1)) in Hnext by lia.
    cbn [String.length].
    replace (S (String.length w)) with (String.length w + 1)%nat by lia.
    rewrite steps_app. cbn [Parser.balanced_from] in Hbal.
    assert (Hd' : exists d',
      Parser.balanced_from d' w = true
      /\ (if Ascii.eqb c TOKEN_LOOP_START then js_incr (- Z.of_nat (k + d'))
          else if Ascii.eqb c TOKEN_LOOP_STOP
               then js_decr (- Z.of_nat (k + d'))
               else - Z.of_nat (k + d'))
         = - Z.of_nat (k + d)).
    { pose proof two_53_pos.
      destruct (Ascii.eqb c TOKEN_LOOP_START).
      - exists (S d). split; [exact Hbal|].
        rewrite js_incr_exact by lia. lia.
      - destruct (Ascii.eqb c TOKEN_LOOP_STOP).
        + destruct d as [|d0]; [discriminate|]. exists d0.
          split; [exact Hbal|].
          pose proof (ParserSpec.balanced_from_length _ _ Hbal).
          rewrite js_decr_exact by lia. lia.
        + now exists d. }
    destruct Hd' as (d' & Hbal' & Hnew).
    rewrite (IH (start + 1) s k d' rest); try assumption; try lia.
    cbn [steps]. unfold step, scan_test, Evaluator.scan_balance.
    cbn [pc i balance datPtr mem programOutput].
    replace (start + 1 - 1) with start by lia.
    rewrite Hc. cbn [is_token]. rewrite Hnew.
    rewrite (js_decr_exact start) by (pose proof two_53_pos; lia).
    destruct (Z.eqb_spec (- Z.of_nat (k + d)) 0); [lia|]. cbn [negb andb].
    destruct (Z.ltb_spec (start - 1) (blob_length blob)); [reflexivity | lia].
Qed.

Lemma jump_back_steps (blob : string) (s : state)
    (start : Z) (inner rest : string) :
  blob_length blob < two_53 -> pc s = ForTest -> 0 <= start ->
  Parser.drop_chars (Z.to_nat start) blob
  = String TOKEN_LOOP_START (inner ++ String TOKEN_LOOP_STOP rest) ->
  Parser.balanced inner = true ->
  i s = start + Z.of_nat (String.length inner) + 1 ->
  num_is_pos (array_get (mem s) (datPtr s)) = true ->
  steps (String.length inner + 3) blob s
  = Some {| pc := ForTest; i := start; balance := 0; datPtr := datPtr s;
            mem := mem s; programOutput := programOutput s |}.
Proof.
  intros Hjs Hpc Hstart Hdrop Hbal Hi Hpos.
  pose proof (ParserMore.drop_chars_bound _ blob (String TOKEN_LOOP_START "") _ Hdrop
                ltac:(cbn; lia)) as Hlen.
  rewrite length_append in Hlen. cbn [String.length] in Hlen.
  pose proof (ParserSpec.char_at_drop_chars blob start _ _ Hstart Hdrop)
    as Hopen.
  pose proof (ParserSpec.drop_chars_S _ _ _ _ Hdrop) as Hnext.
  replace (S (Z.to_nat start)) with (Z.to_nat (start + 1)) in Hnext by lia.
  pose proof (ParserMore.drop_chars_app _ _ _ _ Hnext) as Hstop.
  replace (Z.to_nat (start + 1) + String.length inner)%nat
    with (Z.to_nat (i s)) in Hstop by lia.
  pose proof (ParserSpec.char_at_drop_chars blob (i s) _ _ ltac:(lia) Hstop)
    as Hc.
  pose proof two_53_pos as H53.
  replace (String.length inner + 3)%nat
    with (2 + (String.length inner + 1))%nat by lia.
  rewrite steps_app. cbn [steps].
  assert (H1 : step blob s = Continue (reset_balance s ScanBackward)).
  { unfold step. rewrite Hpc, Hc, Hpos.
    destruct (Z.ltb_spec (i s) (blob_length blob)); [reflexivity | lia]. }
  rewrite H1.
  assert (H2 : step blob (reset_balance s ScanBackward)
               = Continue {| pc := ScanBackward; i := i s - 1; balance := -1;
                             datPtr := datPtr s; mem := mem s;
                             programOutput := programOutput s |}).
  { unfold step, scan_test, Evaluator.scan_balance.
    cbn [reset_balance pc i balance datPtr mem programOutput].
    rewrite Hc. change (is_token (Some TOKEN_LOOP_STOP) TOKEN_LOOP_START)
      with false.
    change (is_token (Some TOKEN_LOOP_STOP) TOKEN_LOOP_STOP) with true.
    cbn iota. change (js_decr 0) with (-1).
    change (negb (-1 =? 0)) with true. cbn [andb].
    rewrite (js_decr_exact (i s)) by lia.
    destruct (Z.ltb_spec (i s - 1) (blob_length blob)); [reflexivity | lia]. }
  rewrite H2, steps_app.
  rewrite (scan_backward_inner blob inner (start + 1) _ 1 0
             (String TOKEN_LOOP_STOP rest));
    cbn [pc i balance datPtr mem programOutput];
    try assumption; try reflexivity; try lia.
  cbn [steps]. unfold step, scan_test, Evaluator.scan_balance.
  cbn [pc i balance datPtr mem programOutput].
  replace (start + 1 - 1) with start by lia. rewrite Hopen.
  change (is_token (Some TOKEN_LOOP_START) TOKEN_LOOP_START) with true.
  cbn iota. change (js_incr (- Z.of_nat (1 + 0))) with 0.
  change (negb (0 =? 0)) with false. cbn [andb].
  unfold next_iteration. cbn [pc i balance datPtr mem programOutput].
  rewrite (js_decr_exact start) by lia.
  rewrite (js_incr_exact (start - 1)) by lia.
  do 2 f_equal; lia.
Qed.

(** X15.  The jump back into a loop: when [eval] meets a loop-stop with
    the current cell above zero and the loop-stop closes a loop-start with
    a balanced body in between, [eval] comes back to that loop-start and
    from there enters the body again, at the character after the
    loop-start, with the data pointer, the tape and the output as they
    were. *)
Theorem eval_jump_back_reenters_body (blob : string) (s : state)
    (start : Z) (inner rest : string) :
  blob_length blob < two_53 -> pc s = ForTest -> 0 <= start ->
  Parser.drop_chars (Z.to_nat start) blob
  = String TOKEN_LOOP_START (inner ++ String TOKEN_LOOP_STOP rest) ->
  Parser.balanced inner = true ->
  i s = start + Z.of_nat (String.length inner) + 1 ->
  num_is_pos (array_get (mem s) (datPtr s)) = true ->
  steps (String.length inner + 3) blob s
  = Some {| pc := ForTest; i := start; balance := 0; datPtr := datPtr s;
            mem := mem s; programOutput := programOutput s |}
  /\ steps (String.length inner + 4) blob s
     = Some {| pc := ForTest; i := start + 1; balance := 0;
               datPtr := datPtr s; mem := mem s;
               programOutput := programOutput s |}.
Proof.
  intros Hjs Hpc Hstart Hdrop Hbal Hi Hpos.
  pose proof (jump_back_steps blob s start inner rest Hjs Hpc Hstart Hdrop
                Hbal Hi Hpos) as Hback.
  split; [exact Hback|].
  replace (String.length inner + 4)%nat
    with (String.length inner + 3 + 1)%nat by lia.
  rewrite steps_app, Hback. cbn [steps].
  pose proof (ParserMore.drop_chars_bound _ blob (String TOKEN_LOOP_START "")
                _ Hdrop ltac:(cbn; lia)) as Hlen.
  cbn [String.length] in Hlen.
  match goal with
  | |- context [step blob ?x] =>
      rewrite (step_loop_start_falls_through blob x eq_refl)
  end; cbn [pc i balance datPtr mem programOutput]; try lia.
  - unfold next_iteration, reset_balance.
    cbn [pc i balance datPtr mem programOutput].
    now rewrite (js_incr_exact start) by lia.
  - exact (ParserSpec.char_at_drop_chars blob start _ _ Hstart Hdrop).
  - destruct (array_get (mem s) (datPtr s)) as [[z|]|]; try discriminate.
    cbn [num_is_pos num_is_zero] in *. apply Z.ltb_lt in Hpos.
    apply Z.eqb_neq. lia.
Qed.

Lemma eval_jump_back_reenters_body_witness :
  steps (String.length ">[-]<" + 3) "+[>[-]<]"
    {| pc := ForTest; i := 7; balance := 0; datPtr := 0;
       mem := tape_with 0 1; programOutput := [] |}
  = Some {| pc := ForTest; i := 1; balance := 0; datPtr := 0;
            mem := tape_with 0 1; programOutput := [] |}
  /\ steps (String.length ">[-]<" + 4) "+[>[-]<]"
       {| pc := ForTest; i := 7; balance := 0; datPtr := 0;
          mem := tape_with 0 1; programOutput := [] |}
     = Some {| pc := ForTest; i := 1 + 1; balance := 0; datPtr := 0;
               mem := tape_with 0 1; programOutput := [] |}.
Proof.
  apply (eval_jump_back_reenters_body "+[>[-]<]"
           {| pc := ForTest; i := 7; balance := 0; datPtr := 0;
              mem := tape_with 0 1; programOutput := [] |}
           1 ">[-]<" "");
    first [by_evaluation | reflexivity | discriminate].
Defined.

(** *** The clear loop *)

Lemma array_get_in_range (a : jsarray) (k : Z) (v : jsnum) :
  array_get a k = Some v -> is_array_index k = true ->
  (Z.to_nat k < length (elems a))%nat.
Proof.
  unfold array_get. intros H Hk. rewrite Hk in H.
  destruct (elems a !! Z.to_nat k) eqn:Hl; [|discriminate].
  now apply lookup_lt_Some in Hl.
Qed.

Lemma array_get_set_same (a : jsarray) (k : Z) (v w : jsnum) :
  array_get a k = Some w -> array_get (array_set a k v) k = Some v.
Proof.
  intros H. unfold array_get, array_set.
  destruct (is_array_index k) eqn:Hk.
  - pose proof (array_get_in_range a k w H Hk) as Hlt.
    destruct (Nat.ltb_spec (Z.to_nat k) (length (elems a))); [|lia].
    cbn [elems]. now rewrite list_lookup_insert_eq.
  - cbn [props]. now rewrite lookup_insert_eq.
Qed.

Lemma array_set_set (a : jsarray) (k : Z) (v v' w : jsnum) :
  array_get a k = Some w ->
  array_set (array_set a k v) k v' = array_set a k v'.
Proof.
  intros H. unfold array_set at 1 3.
  destruct (is_array_index k) eqn:Hk.
  - pose proof (array_get_in_range a k w H Hk) as Hlt.
    unfold array_set. rewrite Hk.
    destruct (Nat.ltb_spec (Z.to_nat k) (length (elems a))); [|lia].
    cbn [elems props]. rewrite length_insert.
    destruct (Nat.ltb_spec (Z.to_nat k) (length (elems a))); [|lia].
    now rewrite list_insert_insert_eq.
  - unfold array_set. rewrite Hk. cbn [elems props].
    now rewrite insert_insert_eq.
Qed.

(** One round of the clear loop up to its loop-stop: the loop-start lets
    the body in and the decrement takes one off the cell. *)
Lemma clear_loop_round (blob : string) (s : state) (rest : string) (c : nat) :
  blob_length blob < two_53 -> pc s = ForTest -> 0 <= i s ->
  Parser.drop_chars (Z.to_nat (i s)) blob = ("[-]" ++ rest)%string ->
  array_get (mem s) (datPtr s) = Some (Num (Z.of_nat (S c))) ->
  steps 2 blob s
  = Some {| pc := ForTest; i := i s + 2; balance := 0; datPtr := datPtr s;
            mem := array_set (mem s) (datPtr s) (Num (Z.of_nat c));
            programOutput := programOutput s |}
  /\ char_at blob (i s + 2) = Some TOKEN_LOOP_STOP
  /\ i s + 2 < blob_length blob.
Proof.
  intros Hjs Hpc Hi Hdrop Hcell.
  change ("[-]" ++ rest)%string
    with (String TOKEN_LOOP_START
            ("-" ++ String TOKEN_LOOP_STOP rest))%string in Hdrop.
  pose proof (ParserMore.drop_chars_bound _ blob (String TOKEN_LOOP_START "") _ Hdrop
                ltac:(cbn; lia)) as Hlen.
  rewrite length_append in Hlen. cbn [String.length] in Hlen.
  pose proof (ParserSpec.char_at_drop_chars blob (i s) _ _ Hi Hdrop) as Hopen.
  pose proof (ParserSpec.drop_chars_S _ _ _ _ Hdrop) as Hnext.
  replace (S (Z.to_nat (i s))) with (Z.to_nat (i s + 1)) in Hnext by lia.
  change ("-" ++ String TOKEN_LOOP_STOP rest)%string
    with (String TOKEN_DECR (String TOKEN_LOOP_STOP rest)) in Hnext.
  pose proof (ParserSpec.char_at_drop_chars blob (i s + 1) _ _
                ltac:(lia) Hnext) as Hdecr.
  pose proof (ParserSpec.drop_chars_S _ _ _ _ Hnext) as Hnext2.
  replace (S (Z.to_nat (i s + 1))) with (Z.to_nat (i s + 2)) in Hnext2 by lia.
  pose proof (ParserSpec.char_at_drop_chars blob (i s + 2) _ _
                ltac:(lia) Hnext2) as Hstop.
  pose proof two_53_pos as H53.
  split; [|split; [exact Hstop | lia]].
  cbn [steps].
  rewrite (step_loop_start_falls_through blob s Hpc ltac:(lia) Hopen)
    by (rewrite Hcell; cbn [num_is_zero]; apply Z.eqb_neq; lia).
  unfold next_iteration at 1, reset_balance.
  cbn [pc i balance datPtr mem programOutput].
  rewrite (js_incr_exact (i s)) by lia.
  unfold step. cbn [pc i balance datPtr mem programOutput].
  rewrite Hdecr, Hcell.
  change (is_token (Some TOKEN_DECR) TOKEN_INCR) with false.
  change (is_token (Some TOKEN_DECR) TOKEN_DECR) with true.
  cbn iota. cbn [num_decr].
  destruct (Z.ltb_spec (i s + 1) (blob_length blob)); [|lia].
  unfold next_iteration, set_mem.
  cbn [pc i balance datPtr mem programOutput].
  rewrite (js_incr_exact (i s + 1)) by lia. unfold js_decr.
  destruct (Z.leb_spec (Z.of_nat (S c)) (- two_53)); [lia|].
  replace (i s + 1 + 1) with (i s + 2) by lia.
  replace (Z.of_nat (S c) - 1) with (Z.of_nat c) by lia. reflexivity.
Qed.

Lemma clear_loop_steps (m : nat) :
  forall (blob : string) (s : state) (rest : string),
  blob_length blob < two_53 -> pc s = ForTest -> 0 <= i s ->
  Parser.drop_chars (Z.to_nat (i s)) blob = ("[-]" ++ rest)%string ->
  array_get (mem s) (datPtr s) = Some (Num (Z.of_nat (S m))) ->
  steps (6 * m + 3) blob s
  = Some {| pc := ForTest; i := i s + 3; balance := 0; datPtr := datPtr s;
            mem := array_set (mem s) (datPtr s) (Num 0);
            programOutput := programOutput s |}.
Proof.
  induction m as [|m IH]; intros blob s rest Hjs Hpc Hi Hdrop Hcell;
    destruct (clear_loop_round blob s rest _ Hjs Hpc Hi Hdrop Hcell)
      as (Hround & Hstop & Hlt).
  - change (6 * 0 + 3)%nat with (2 + 1)%nat. rewrite steps_app, Hround.
    cbn [steps].
    match goal with
    | |- context [step blob ?x] =>
        rewrite (step_loop_stop_falls_through blob x eq_refl)
          by (cbn [pc i balance datPtr mem programOutput]; try lia;
              try exact Hstop;
              rewrite (array_get_set_same _ _ _ _ Hcell); reflexivity)
    end.
    unfold next_iteration, reset_balance.
    cbn [pc i balance datPtr mem programOutput].
    rewrite (js_incr_exact (i s + 2)) by lia. do 2 f_equal; lia.
  - replace (6 * S m + 3)%nat with (2 + (4 + (6 * m + 3)))%nat by lia.
    rewrite steps_app, Hround, steps_app.
    change ("[-]" ++ rest)%string
      with (String TOKEN_LOOP_START
              ("-" ++ String TOKEN_LOOP_STOP rest))%string in Hdrop.
    match goal with
    | |- context [steps 4 blob ?x] =>
        change (steps 4 blob x) with (steps (String.length "-" + 3) blob x);
        rewrite (jump_back_steps blob x (i s) "-" rest Hjs eq_refl Hi Hdrop
                   eq_refl)
          by (cbn [pc i balance datPtr mem programOutput String.length];
              try lia;
              rewrite (array_get_set_same _ _ _ _ Hcell);
              cbn [num_is_pos]; apply Z.ltb_lt; lia)
    end.
    cbn [pc i balance datPtr mem programOutput].
    match goal with
    | |- context [steps (6 * m + 3) blob ?x] =>
        rewrite (IH blob x rest Hjs eq_refl);
          cbn [pc i balance datPtr mem programOutput];
          try assumption; try lia
    end.
    + now rewrite (array_set_set _ _ _ _ _ Hcell).
    + now apply (array_get_set_same _ _ _ _ Hcell).
Qed.

(** X16.  The clear loop: when [eval] meets the three characters [[-]]
    with an integer [n] above zero in the current cell, then after
    [6 n - 3] steps it is at the character after the loop with 0 in that
    cell, and the data pointer, the other cells and the output are as
    they were. *)
Theorem eval_clear_loop (blob : string) (s : state) (rest : string) (n : Z) :
  blob_length blob < two_53 -> pc s = ForTest -> 0 <= i s ->
  Parser.drop_chars (Z.to_nat (i s)) blob = ("[-]" ++ rest)%string ->
  array_get (mem s) (datPtr s) = Some (Num n) -> 1 <= n ->
  steps (Z.to_nat (6 * n - 3)) blob s
  = Some {| pc := ForTest; i := i s + 3; balance := 0; datPtr := datPtr s;
            mem := array_set (mem s) (datPtr s) (Num 0);
            programOutput := programOutput s |}.
Proof.
  intros Hjs Hpc Hi Hdrop Hcell Hn.
  replace (Z.to_nat (6 * n - 3)) with (6 * Z.to_nat (n - 1) + 3)%nat by lia.
  apply (clear_loop_steps _ blob s rest Hjs Hpc Hi Hdrop).
  rewrite Hcell. do 2 f_equal. lia.
Qed.

Lemma eval_clear_loop_witness :
  steps (Z.to_nat (6 * 2 - 3)) "++[-]>" 
    {| pc := ForTest; i := 2; balance := 0; datPtr := 0;
       mem := tape_with 0 2; programOutput := [] |}
  = Some {| pc := ForTest; i := 2 + 3; balance := 0; datPtr := 0;
            mem := array_set (tape_with 0 2) 0 (Num 0);
            programOutput := [] |}.
Proof.
  apply (eval_clear_loop "++[-]>"
           {| pc := ForTest; i := 2; balance := 0; datPtr := 0;
              mem := tape_with 0 2; programOutput := [] |} ">" 2);
    first [by_evaluation | reflexivity | discriminate].
Defined.

(** *** Loops that never end *)

Lemma balanced_all_idle (inner : string) :
  all_idle inner = true ->
  forall d, Parser.balanced_from d inner = Nat.eqb d 0.
Proof.
  induction inner as [|c r IH]; intros H d; [reflexivity|].
  cbn [all_idle] in H. apply andb_true_iff in H as [Hc Hr].
  unfold idle in Hc. cbn [existsb] in Hc. apply negb_true_iff in Hc.
  repeat (apply orb_false_iff in Hc; destruct Hc as [?E Hc]).
  cbn [Parser.balanced_from]. rewrite E3, E4. now apply IH.
Qed.

(** Idle characters are stepped over one by one; only the output may
    grow. *)
Lemma steps_idle (inner : string) :
  forall (blob : string) (s : state) (rest : string),
  blob_length blob < two_53 -> pc s = ForTest -> 0 <= i s ->
  Parser.drop_chars (Z.to_nat (i s)) blob = (inner ++ rest)%string ->
  all_idle inner = true ->
  exists out,
    steps (String.length inner) blob s
    = Some {| pc := ForTest; i := i s + Z.of_nat (String.length inner);
              balance := balance s; datPtr := datPtr s; mem := mem s;
              programOutput := (programOutput s ++ out)%list |}.
Proof.
  induction inner as [|c r IH]; intros blob s rest Hjs Hpc Hi Hdrop Hidle.
  - exists []. cbn [steps String.length]. rewrite app_nil_r, Z.add_0_r.
    destruct s; cbn in *; now subst.
  - change (String c r ++ rest)%string
      with (String c (r ++ rest)%string) in Hdrop.
    pose proof (ParserSpec.char_at_drop_chars blob (i s) _ _ Hi Hdrop) as Hc.
    pose proof (ParserSpec.length_drop_chars (Z.to_nat (i s)) blob) as Hl.
    rewrite Hdrop in Hl. cbn [String.length] in Hl.
    assert (Hlt : i s < blob_length blob) by (unfold blob_length; lia).
    pose proof (ParserSpec.drop_chars_S _ _ _ _ Hdrop) as Hnext.
    replace (S (Z.to_nat (i s))) with (Z.to_nat (i s + 1)) in Hnext by lia.
    cbn [all_idle] in Hidle. apply andb_true_iff in Hidle as [Hci Hri].
    unfold idle in Hci. cbn [existsb] in Hci. apply negb_true_iff in Hci.
    repeat (apply orb_false_iff in Hci; destruct Hci as [?E Hci]).
    assert (Hstep : exists o,
      step blob s
      = Continue {| pc := ForTest; i := i s + 1; balance := balance s;
                    datPtr := datPtr s; mem := mem s;
                    programOutput := (programOutput s ++ o)%list |}).
    { unfold step. rewrite Hpc, Hc. cbn [is_token].
      rewrite E, E0, E1, E2, E3, E4.
      destruct (Z.ltb_spec (i s) (blob_length blob)); [|lia].
      unfold next_iteration, push_output.
      cbn [pc i balance datPtr mem programOutput].
      rewrite (js_incr_exact (i s)) by lia.
      destruct (Ascii.eqb c TOKEN_INPUT);
        [exists []; now rewrite app_nil_r|].
      destruct (Ascii.eqb c TOKEN_PRINT);
        [eexists [_]; reflexivity | exists []; now rewrite app_nil_r]. }
    destruct Hstep as [o Hstep].
    match type of Hstep with
    | _ = Continue ?x =>
        destruct (IH blob x rest Hjs eq_refl ltac:(cbn [i]; lia) Hnext Hri)
          as [out Hout]
    end.
    exists (o ++ out)%list. cbn [steps String.length]. rewrite Hstep, Hout.
    cbn [pc i balance datPtr mem programOutput].
    rewrite <- app_assoc. do 2 f_equal. lia.
Qed.

(** One round of a loop with an idle body, entered with the current cell
    above zero, leads back to the loop-start with the tape and the data
    pointer as they were. *)
Lemma idle_loop_round (blob : string) (start : Z) (inner rest : string)
    (b p : Z) (m : jsarray) (out : list Z) :
  blob_length blob < two_53 -> 0 <= start ->
  Parser.drop_chars (Z.to_nat start) blob
  = String TOKEN_LOOP_START (inner ++ String TOKEN_LOOP_STOP rest) ->
  all_idle inner = true ->
  num_is_pos (array_get m p) = true ->
  exists out',
    steps (2 * String.length inner + 4) blob
      {| pc := ForTest; i := start; balance := b; datPtr := p; mem := m;
         programOutput := out |}
    = Some {| pc := ForTest; i := start; balance := 0; datPtr := p;
              mem := m; programOutput := out' |}.
Proof.
  intros Hjs Hstart Hdrop Hidle Hpos.
  pose proof (ParserMore.drop_chars_bound _ blob (String TOKEN_LOOP_START "")
                _ Hdrop ltac:(cbn; lia)) as Hlen.
  cbn [String.length] in Hlen.
  pose proof (ParserSpec.char_at_drop_chars blob start _ _ Hstart Hdrop)
    as Hopen.
  pose proof (ParserSpec.drop_chars_S _ _ _ _ Hdrop) as Hnext.
  replace (S (Z.to_nat start)) with (Z.to_nat (start + 1)) in Hnext by lia.
  replace (2 * String.length inner + 4)%nat
    with (1 + (String.length inner + (String.length inner + 3)))%nat by lia.
  rewrite steps_app. cbn [steps].
  match goal with
  | |- context [step blob ?x] =>
      rewrite (step_loop_start_falls_through blob x eq_refl)
  end; cbn [pc i balance datPtr mem programOutput]; try lia;
    try exact Hopen.
  2:{ destruct (array_get m p) as [[z|]|]; try discriminate.
      cbn [num_is_pos num_is_zero] in *. apply Z.ltb_lt in Hpos.
      apply Z.eqb_neq. lia. }
  unfold next_iteration, reset_balance.
  cbn [pc i balance datPtr mem programOutput].
  rewrite (js_incr_exact start) by lia.
  rewrite steps_app.
  match goal with
  | |- context [steps (String.length inner) blob ?x] =>
      destruct (steps_idle inner blob x _ Hjs eq_refl
                  ltac:(cbn [i]; lia) Hnext Hidle) as [o Ho]
  end.
  rewrite Ho. cbn [pc i balance datPtr mem programOutput].
  exists (out ++ o)%list.
  match goal with
  | |- steps _ blob ?x = _ =>
      rewrite (jump_back_steps blob x start inner rest Hjs eq_refl Hstart
                 Hdrop)
  end; cbn [pc i balance datPtr mem programOutput];
    try reflexivity; try lia; try exact Hpos.
  unfold Parser.balanced. now rewrite (balanced_all_idle inner Hidle).
Qed.

Lemma idle_loop_diverges (blob : string) (start : Z) (inner rest : string)
    (p : Z) (m : jsarray) :
  blob_length blob < two_53 -> 0 <= start ->
  Parser.drop_chars (Z.to_nat start) blob
  = String TOKEN_LOOP_START (inner ++ String TOKEN_LOOP_STOP rest) ->
  all_idle inner = true ->
  num_is_pos (array_get m p) = true ->
  forall (fuel : nat) (b : Z) (out : list Z),
  run fuel blob {| pc := ForTest; i := start; balance := b; datPtr := p;
                   mem := m; programOutput := out |}
  = None.
Proof.
  intros Hjs Hstart Hdrop Hidle Hpos fuel.
  induction fuel as [fuel IH] using lt_wf_ind. intros b out.
  destruct (idle_loop_round blob start inner rest b p m out Hjs Hstart Hdrop
              Hidle Hpos) as [out' Hround].
  destruct (Nat.le_gt_cases fuel (2 * String.length inner + 4)) as [Hle|Hgt].
  - exact (run_before_steps _ _ _ _ _ Hround Hle).
  - replace fuel
      with ((2 * String.length inner + 4)
            + (fuel - (2 * String.length inner + 4)))%nat by lia.
    rewrite (run_steps _ _ _ _ _ Hround). apply IH. lia.
Qed.

(** X12.  A loop that cannot end: when [eval] reaches a loop-start with the
    current cell above zero, and the body up to the loop-stop holds none of
    [+ - < > [ ]], then [eval] never returns.  A body of write-outputs,
    read-inputs and other characters, or an empty one, is such a body. *)
Theorem eval_idle_loop_never_returns (blob : string) (n : nat) (s : state)
    (inner rest : string) :
  blob_length blob < two_53 ->
  steps n blob init = Some s -> pc s = ForTest -> 0 <= i s ->
  Parser.drop_chars (Z.to_nat (i s)) blob
  = String TOKEN_LOOP_START (inner ++ String TOKEN_LOOP_STOP rest) ->
  all_idle inner = true ->
  num_is_pos (array_get (mem s) (datPtr s)) = true ->
  diverges blob.
Proof.
  intros Hjs Hs Hpc Hi Hdrop Hidle Hpos. unfold diverges, eval.
  apply (run_diverges_after n blob init s Hs). intros fuel.
  destruct s as [l k b p m out]. cbn [pc i mem datPtr] in *. subst l.
  exact (idle_loop_diverges blob k inner rest p m Hjs Hi Hdrop Hidle Hpos
           fuel b out).
Qed.

Lemma eval_idle_loop_never_returns_witness : diverges "+[.,]-".
Proof.
  apply (eval_idle_loop_never_returns "+[.,]-" 1
           {| pc := ForTest; i := 1; balance := 0; datPtr := 0;
              mem := tape_with 0 1; programOutput := [] |} ".," "-");
    first [by_evaluation | reflexivity | discriminate].
Defined.

(** *** The move loop *)

Lemma array_get_set_ne (a : jsarray) (k j : Z) (v w : jsnum) :
  array_get a k = Some w -> j <> k ->
  array_get (array_set a k v) j = array_get a j.
Proof.
  intros H Hne. unfold array_get, array_set.
  destruct (is_array_index k) eqn:Hk.
  - pose proof (array_get_in_range a k w H Hk) as Hlt.
    apply is_array_index_nonneg in Hk.
    destruct (Nat.ltb_spec (Z.to_nat k) (length (elems a))); [|lia].
    cbn [elems props]. destruct (is_array_index j) eqn:Hj; [|reflexivity].
    apply is_array_index_nonneg in Hj.
    rewrite list_lookup_insert_ne by lia. reflexivity.
  - cbn [elems props]. destruct (is_array_index j); [reflexivity|].
    rewrite lookup_insert_ne by congruence. reflexivity.
Qed.

Lemma array_set_existing_length (a : jsarray) (k : Z) (v w : jsnum) :
  array_get a k = Some w ->
  length (elems (array_set a k v)) = length (elems a).
Proof.
  intros H. unfold array_set. destruct (is_array_index k) eqn:Hk;
    [|reflexivity].
  pose proof (array_get_in_range a k w H Hk) as Hlt.
  destruct (Nat.ltb_spec (Z.to_nat k) (length (elems a))); [|lia].
  cbn [elems]. now rewrite length_insert.
Qed.

Lemma step_incr (blob : string) (s : state) :
  pc s = ForTest -> i s < blob_length blob ->
  char_at blob (i s) = Some TOKEN_INCR ->
  step blob s
  = Continue (next_iteration
      (set_mem s (array_set (mem s) (datPtr s)
                    (num_incr (array_get (mem s) (datPtr s)))))).
Proof.
  intros Hpc Hi Hc. unfold step. rewrite Hpc, Hc.
  destruct (Z.ltb_spec (i s) (blob_length blob)); [reflexivity | lia].
Qed.

Lemma step_decr (blob : string) (s : state) :
  pc s = ForTest -> i s < blob_length blob ->
  char_at blob (i s) = Some TOKEN_DECR ->
  step blob s
  = Continue (next_iteration
      (set_mem s (array_set (mem s) (datPtr s)
                    (num_decr (array_get (mem s) (datPtr s)))))).
Proof.
  intros Hpc Hi Hc. unfold step. rewrite Hpc, Hc.
  destruct (Z.ltb_spec (i s) (blob_length blob)); [reflexivity | lia].
Qed.

Lemma step_right (blob : string) (s : state) :
  pc s = ForTest -> i s < blob_length blob ->
  char_at blob (i s) = Some TOKEN_RIGHT ->
  step blob s = Continue (next_iteration (set_datPtr s (js_incr (datPtr s)))).
Proof.
  intros Hpc Hi Hc. unfold step. rewrite Hpc, Hc.
  destruct (Z.ltb_spec (i s) (blob_length blob)); [reflexivity | lia].
Qed.

Lemma step_left (blob : string) (s : state) :
  pc s = ForTest -> i s < blob_length blob ->
  char_at blob (i s) = Some TOKEN_LEFT ->
  step blob s = Continue (next_iteration (set_datPtr s (js_decr (datPtr s)))).
Proof.
  intros Hpc Hi Hc. unfold step. rewrite Hpc, Hc.
  destruct (Z.ltb_spec (i s) (blob_length blob)); [reflexivity | lia].
Qed.

(** Rewrites the next step of the goal with a single-step lemma and brings
    the state it leads to into the form of a record. *)
Ltac next_step lem Hc :=
  match goal with
  | |- context [step ?blob ?x] =>
      rewrite (lem blob x eq_refl);
        [|cbn [pc i balance datPtr mem programOutput]; try lia
         |cbn [pc i balance datPtr mem programOutput];
          first [exact Hc | idtac]..]
  end;
  [unfold next_iteration, set_mem, set_datPtr, reset_balance;
   cbn [pc i balance datPtr mem programOutput]|..].

(** One round of the move loop up to its loop-stop: one is added to the
    cell on the right and one is taken off the current cell. *)
Lemma move_loop_round (blob : string) (s : state) (rest : string)
    (c : nat) (z : Z) :
  blob_length blob < two_53 -> pc s = ForTest -> 0 <= i s ->
  Parser.drop_chars (Z.to_nat (i s)) blob = ("[>+<-]" ++ rest)%string ->
  - two_53 < datPtr s < two_53 ->
  array_get (mem s) (datPtr s) = Some (Num (Z.of_nat (S c))) ->
  array_get (mem s) (datPtr s + 1) = Some (Num z) -> z < two_53 ->
  steps 5 blob s
  = Some {| pc := ForTest; i := i s + 5; balance := 0; datPtr := datPtr s;
            mem := array_set
                     (array_set (mem s) (datPtr s + 1) (Num (z + 1)))
                     (datPtr s) (Num (Z.of_nat c));
            programOutput := programOutput s |}
  /\ char_at blob (i s + 5) = Some TOKEN_LOOP_STOP
  /\ i s + 5 < blob_length blob.
Proof.
  intros Hjs Hpc Hi Hdrop Hptr Hcell Hright Hz.
  pose proof (ParserMore.drop_chars_bound _ blob "[>+<-]" _ Hdrop
                ltac:(cbn; lia)) as Hlen.
  cbn [String.length] in Hlen.
  assert (Hch : forall j, 0 <= j ->
            char_at blob (i s + j) = char_at ("[>+<-]" ++ rest) j).
  { intros j Hj. rewrite <- Hdrop, ParserMore.char_at_drop_add by lia.
    f_equal. lia. }
  pose proof (Hch 0 ltac:(lia)) as H0. rewrite Z.add_0_r in H0.
  pose proof (Hch 1 ltac:(lia)) as H1.
  pose proof (Hch 2 ltac:(lia)) as H2.
  pose proof (Hch 3 ltac:(lia)) as H3.
  pose proof (Hch 4 ltac:(lia)) as H4.
  pose proof (Hch 5 ltac:(lia)) as H5.
  change (char_at ("[>+<-]" ++ rest) 0) with (Some TOKEN_LOOP_START) in H0.
  change (char_at ("[>+<-]" ++ rest) 1) with (Some TOKEN_RIGHT) in H1.
  change (char_at ("[>+<-]" ++ rest) 2) with (Some TOKEN_INCR) in H2.
  change (char_at ("[>+<-]" ++ rest) 3) with (Some TOKEN_LEFT) in H3.
  change (char_at ("[>+<-]" ++ rest) 4) with (Some TOKEN_DECR) in H4.
  change (char_at ("[>+<-]" ++ rest) 5) with (Some TOKEN_LOOP_STOP) in H5.
  pose proof two_53_pos as H53.
  split; [|split; [exact H5 | lia]].
  cbn [steps].
  rewrite (step_loop_start_falls_through blob s Hpc ltac:(lia) H0)
    by (rewrite Hcell; cbn [num_is_zero]; apply Z.eqb_neq; lia).
  unfold next_iteration at 1, reset_balance.
  cbn [pc i balance datPtr mem programOutput].
  rewrite (js_incr_exact (i s)) by lia.
  next_step step_right H1.
  rewrite (js_incr_exact (i s + 1)), (js_incr_exact (datPtr s)) by lia.
  replace (i s + 1 + 1) with (i s + 2) by lia.
  next_step step_incr H2.
  rewrite Hright. cbn [num_incr].
  rewrite (js_incr_exact (i s + 2)), (js_incr_exact z) by lia.
  replace (i s + 2 + 1) with (i s + 3) by lia.
  next_step step_left H3.
  rewrite (js_incr_exact (i s + 3)), (js_decr_exact (datPtr s + 1)) by lia.
  replace (i s + 3 + 1) with (i s + 4) by lia.
  replace (datPtr s + 1 - 1) with (datPtr s) by lia.
  next_step step_decr H4.
  rewrite (array_get_set_ne _ _ _ _ _ Hright) by lia. rewrite Hcell.
  cbn [num_decr].
  rewrite (js_incr_exact (i s + 4)), (js_decr_exact (Z.of_nat (S c))) by lia.
  replace (i s + 4 + 1) with (i s + 5) by lia.
  replace (Z.of_nat (S c) - 1) with (Z.of_nat c) by lia. reflexivity.
Qed.

Lemma move_loop_steps (c : nat) :
  forall (blob : string) (s : state) (rest : string) (z : Z),
  blob_length blob < two_53 -> pc s = ForTest -> 0 <= i s ->
  Parser.drop_chars (Z.to_nat (i s)) blob = ("[>+<-]" ++ rest)%string ->
  - two_53 < datPtr s < two_53 ->
  array_get (mem s) (datPtr s) = Some (Num (Z.of_nat (S c))) ->
  array_get (mem s) (datPtr s + 1) = Some (Num z) ->
  z + Z.of_nat (S c) <= two_53 ->
  exists m',
    steps (12 * c + 6) blob s
    = Some {| pc := ForTest; i := i s + 6; balance := 0; datPtr := datPtr s;
              mem := m'; programOutput := programOutput s |}
    /\ array_get m' (datPtr s) = Some (Num 0)
    /\ array_get m' (datPtr s + 1) = Some (Num (z + Z.of_nat (S c)))
    /\ (forall j, j <> datPtr s -> j <> datPtr s + 1 ->
                  array_get m' j = array_get (mem s) j)
    /\ length (elems m') = length (elems (mem s)).
Proof.
  induction c as [|c IH];
    intros blob s rest z Hjs Hpc Hi Hdrop Hptr Hcell Hright Hsum;
    destruct (move_loop_round blob s rest _ z Hjs Hpc Hi Hdrop Hptr Hcell
                Hright ltac:(lia)) as (Hround & Hstop & Hlt);
    pose proof two_53_pos as H53;
    assert (Hcell1 : exists w,
              array_get (array_set (mem s) (datPtr s + 1) (Num (z + 1)))
                (datPtr s) = Some w)
      by (rewrite (array_get_set_ne _ _ _ _ _ Hright) by lia; eauto);
    destruct Hcell1 as [w Hcell1].
  - eexists. split; [|split; [|split; [|split]]].
    + change (12 * 0 + 6)%nat with (5 + 1)%nat. rewrite steps_app, Hround.
      cbn [steps].
      match goal with
      | |- context [step blob ?x] =>
          rewrite (step_loop_stop_falls_through blob x eq_refl)
            by (cbn [pc i balance datPtr mem programOutput]; try lia;
                try exact Hstop;
                rewrite (array_get_set_same _ _ _ _ Hcell1); reflexivity)
      end.
      unfold next_iteration, reset_balance.
      cbn [pc i balance datPtr mem programOutput].
      rewrite (js_incr_exact (i s + 5)) by lia.
      replace (i s + 5 + 1) with (i s + 6) by lia. reflexivity.
    + exact (array_get_set_same _ _ _ _ Hcell1).
    + rewrite (array_get_set_ne _ _ _ _ _ Hcell1) by lia.
      rewrite (array_get_set_same _ _ _ _ Hright). reflexivity.
    + intros j Hj Hj1.
      rewrite (array_get_set_ne _ _ _ _ _ Hcell1) by exact Hj.
      now rewrite (array_get_set_ne _ _ _ _ _ Hright) by exact Hj1.
    + rewrite (array_set_existing_length _ _ _ _ Hcell1).
      exact (array_set_existing_length _ _ _ _ Hright).
  - set (m1 := array_set (array_set (mem s) (datPtr s + 1) (Num (z + 1)))
                 (datPtr s) (Num (Z.of_nat (S c)))) in *.
    set (s1 := {| pc := ForTest; i := i s; balance := 0; datPtr := datPtr s;
                  mem := m1; programOutput := programOutput s |}).
    assert (Hget : array_get m1 (datPtr s) = Some (Num (Z.of_nat (S c))))
      by exact (array_get_set_same _ _ _ _ Hcell1).
    assert (Hget1 : array_get m1 (datPtr s + 1) = Some (Num (z + 1))).
    { unfold m1. rewrite (array_get_set_ne _ _ _ _ _ Hcell1) by lia.
      exact (array_get_set_same _ _ _ _ Hright). }
    destruct (IH blob s1 rest (z + 1) Hjs eq_refl Hi Hdrop Hptr Hget Hget1
                ltac:(lia)) as (m' & Hrun & Hp & Hq & Hother & Hlen).
    cbn [s1 pc i balance datPtr mem programOutput] in *.
    exists m'. split; [|split; [|split; [|split]]].
    + replace (12 * S c + 6)%nat with (5 + (7 + (12 * c + 6)))%nat by lia.
      rewrite steps_app, Hround, steps_app.
      change ("[>+<-]" ++ rest)%string
        with (String TOKEN_LOOP_START
                (">+<-" ++ String TOKEN_LOOP_STOP rest))%string in Hdrop.
      match goal with
      | |- context [steps 7 blob ?x] =>
          change (steps 7 blob x)
            with (steps (String.length ">+<-" + 3) blob x);
          rewrite (jump_back_steps blob x (i s) ">+<-" rest Hjs eq_refl Hi
                     Hdrop eq_refl)
            by (cbn [pc i balance datPtr mem programOutput String.length];
                try lia;
                fold m1; rewrite Hget; cbn [num_is_pos]; apply Z.ltb_lt; lia)
      end.
      cbn [pc i balance datPtr mem programOutput]. exact Hrun.
    + exact Hp.
    + rewrite Hq. do 2 f_equal. lia.
    + intros j Hj Hj1. rewrite (Hother j Hj Hj1). unfold m1.
      rewrite (array_get_set_ne _ _ _ _ _ Hcell1) by exact Hj.
      now rewrite (array_get_set_ne _ _ _ _ _ Hright) by exact Hj1.
    + rewrite Hlen. unfold m1.
      rewrite (array_set_existing_length _ _ _ _ Hcell1).
      exact (array_set_existing_length _ _ _ _ Hright).
Qed.

(** X18.  The move loop: when [eval] meets the six characters [[>+<-]]
    with an integer [n] above zero in the current cell and an integer [z]
    in the cell on its right, then after [12 n - 6] steps it is at the
    character after the loop, with 0 in the current cell, [z + n] in the
    cell on its right, and every other cell, the length of the tape, the
    data pointer and the output as they were. *)
Theorem eval_move_loop (blob : string) (s : state) (rest : string)
    (n z : Z) :
  blob_length blob < two_53 -> pc s = ForTest -> 0 <= i s ->
  Parser.drop_chars (Z.to_nat (i s)) blob = ("[>+<-]" ++ rest)%string ->
  - two_53 < datPtr s < two_53 ->
  array_get (mem s) (datPtr s) = Some (Num n) -> 1 <= n ->
  array_get (mem s) (datPtr s + 1) = Some (Num z) -> z + n <= two_53 ->
  exists m',
    steps (Z.to_nat (12 * n - 6)) blob s
    = Some {| pc := ForTest; i := i s + 6; balance := 0; datPtr := datPtr s;
              mem := m'; programOutput := programOutput s |}
    /\ array_get m' (datPtr s) = Some (Num 0)
    /\ array_get m' (datPtr s + 1) = Some (Num (z + n))
    /\ (forall j, j <> datPtr s -> j <> datPtr s + 1 ->
                  array_get m' j = array_get (mem s) j)
    /\ length (elems m') = length (elems (mem s)).
Proof.
  intros Hjs Hpc Hi Hdrop Hptr Hcell Hn Hright Hsum.
  replace (Z.to_nat (12 * n - 6)) with (12 * Z.to_nat (n - 1) + 6)%nat by lia.
  destruct (move_loop_steps (Z.to_nat (n - 1)) blob s rest z Hjs Hpc Hi Hdrop
              Hptr) as (m' & Hrun & Hp & Hq & Hother & Hlen);
    [rewrite Hcell; do 2 f_equal; lia | exact Hright | lia |].
  replace (Z.of_nat (S (Z.to_nat (n - 1)))) with n in Hq by lia.
  exists m'. split; [exact Hrun|]. split; [exact Hp|]. split; [exact Hq|].
  split; [exact Hother | exact Hlen].
Qed.

Lemma eval_move_loop_witness :
  exists m',
    steps (Z.to_nat (12 * 2 - 6)) "++>+++<[>+<-]."
      {| pc := ForTest; i := 7; balance := 0; datPtr := 0;
         mem := array_set (tape_with 0 2) 1 (Num 3); programOutput := [] |}
    = Some {| pc := ForTest; i := 7 + 6; balance := 0; datPtr := 0;
              mem := m'; programOutput := [] |}
    /\ array_get m' 0 = Some (Num 0)
    /\ array_get m' (0 + 1) = Some (Num (3 + 2))
    /\ (forall j, j <> 0 -> j <> 0 + 1 ->
                  array_get m' j
                  = array_get (array_set (tape_with 0 2) 1 (Num 3)) j)
    /\ length (elems m')
       = length (elems (array_set (tape_with 0 2) 1 (Num 3))).
Proof.
  apply (eval_move_loop "++>+++<[>+<-]."
           {| pc := ForTest; i := 7; balance := 0; datPtr := 0;
              mem := array_set (tape_with 0 2) 1 (Num 3);
              programOutput := [] |} "." 2 3);
    first [by_evaluation | reflexivity | discriminate
          | split; reflexivity].
Defined.

(** *** Cells are integers *)

Lemma cell_shift_cons (c : ascii) (r : string) :
  cell_shift (String c r)
  = (if Ascii.eqb c TOKEN_INCR then 1 else 0)
    - (if Ascii.eqb c TOKEN_DECR then 1 else 0) + cell_shift r.
Proof.
  unfold cell_shift. cbn [count_char].
  destruct (Ascii.eqb c TOKEN_INCR), (Ascii.eqb c TOKEN_DECR); lia.
Qed.

Lemma run_cell_arithmetic (rest : string) :
  forall (blob : string) (s : state) (v : Z),
  blob_length blob < two_53 -> pc s = ForTest -> 0 <= i s ->
  Parser.drop_chars (Z.to_nat (i s)) blob = rest ->
  count_char TOKEN_LOOP_START rest = O ->
  count_char TOKEN_LOOP_STOP rest = O ->
  count_char TOKEN_LEFT rest = O ->
  count_char TOKEN_RIGHT rest = O ->
  array_get (mem s) (datPtr s) = Some (Num v) ->
  Z.abs v + Z.of_nat (String.length rest) < two_53 ->
  exists out m,
    run (S (String.length rest)) blob s
    = Some (returned (datPtr s) (programOutput s ++ out)%list m)
    /\ array_get m (datPtr s) = Some (Num (v + cell_shift rest))
    /\ (forall j, j <> datPtr s -> array_get m j = array_get (mem s) j).
Proof.
  induction rest as [|c r IH];
    intros blob s v Hjs Hpc Hi Hrest Hopen Hclose Hleft Hright Hcell Hv.
  - exists [], (mem s).
    pose proof (ParserSpec.length_drop_chars (Z.to_nat (i s)) blob) as Hl.
    rewrite Hrest in Hl. cbn [String.length] in Hl.
    cbn [run]. unfold step. rewrite Hpc.
    destruct (Z.ltb_spec (i s) (blob_length blob));
      [unfold blob_length in *; lia|].
    rewrite app_nil_r. change (cell_shift "") with 0. rewrite Z.add_0_r.
    split; [reflexivity|]. split; [exact Hcell | reflexivity].
  - assert (Hlt : i s < blob_length blob).
    { pose proof (ParserSpec.length_drop_chars (Z.to_nat (i s)) blob) as Hl.
      rewrite Hrest in Hl. cbn [String.length] in Hl.
      unfold blob_length. lia. }
    destruct (ParserMore.drop_chars_cons blob (i s) ltac:(lia))
      as (c' & r' & Hrest' & Hc & Hnext).
    rewrite Hrest in Hrest'. injection Hrest' as <- <-.
    cbn [count_char String.length] in *.
    destruct (Ascii.eqb c TOKEN_LOOP_START) eqn:Eopen; [discriminate|].
    destruct (Ascii.eqb c TOKEN_LOOP_STOP) eqn:Eclose; [discriminate|].
    destruct (Ascii.eqb c TOKEN_LEFT) eqn:Eleft; [discriminate|].
    destruct (Ascii.eqb c TOKEN_RIGHT) eqn:Eright; [discriminate|].
    cbn [Nat.add] in Hopen, Hclose, Hleft, Hright.
    assert (Hstep : exists s1 o,
      step blob s = Continue s1 /\ pc s1 = ForTest /\ i s1 = i s + 1
      /\ datPtr s1 = datPtr s
      /\ programOutput s1 = (programOutput s ++ o)%list
      /\ array_get (mem s1) (datPtr s)
         = Some (Num (v + ((if Ascii.eqb c TOKEN_INCR then 1 else 0)
                           - (if Ascii.eqb c TOKEN_DECR then 1 else 0))))
      /\ (forall j, j <> datPtr s ->
                    array_get (mem s1) j = array_get (mem s) j)).
    { unfold step. rewrite Hpc, Hc, Hcell. cbn [is_token num_incr num_decr].
      rewrite Eopen, Eclose, Eleft, Eright.
      destruct (Z.ltb_spec (i s) (blob_length blob)); [|lia].
      assert (Hinc : js_incr (i s) = i s + 1) by (apply js_incr_exact; lia).
      assert (Hvi : js_incr v = v + 1) by (apply js_incr_exact; lia).
      assert (Hvd : js_decr v = v - 1) by (apply js_decr_exact; lia).
      destruct (Ascii.eqb c TOKEN_INCR) eqn:E1;
        [apply Ascii.eqb_eq in E1; subst c; decide_tokens;
         eexists _, []; split; [reflexivity|];
         cbn [next_iteration set_mem pc i datPtr mem programOutput];
         rewrite ?app_nil_r, Hvi, (array_get_set_same _ _ _ _ Hcell);
         split; [reflexivity|]; split; [lia|]; split; [reflexivity|];
         split; [reflexivity|]; split; [do 2 f_equal; lia|];
         intros j Hj; now apply (array_get_set_ne _ _ _ _ _ Hcell)|].
      destruct (Ascii.eqb c TOKEN_DECR) eqn:E2;
        [apply Ascii.eqb_eq in E2; subst c; decide_tokens;
         eexists _, []; split; [reflexivity|];
         cbn [next_iteration set_mem pc i datPtr mem programOutput];
         rewrite ?app_nil_r, Hvd, (array_get_set_same _ _ _ _ Hcell);
         split; [reflexivity|]; split; [lia|]; split; [reflexivity|];
         split; [reflexivity|]; split; [do 2 f_equal; lia|];
         intros j Hj; now apply (array_get_set_ne _ _ _ _ _ Hcell)|].
      replace (v + (0 - 0)) with v by lia.
      destruct (Ascii.eqb c TOKEN_INPUT);
        [eexists _, []; split; [reflexivity|];
         cbn [next_iteration pc i datPtr mem programOutput];
         rewrite ?app_nil_r; repeat split; first [lia | exact Hcell]|].
      destruct (Ascii.eqb c TOKEN_PRINT).
      - eexists _, [_]. split; [reflexivity|].
        cbn [next_iteration push_output pc i datPtr mem programOutput].
        repeat split; first [lia | exact Hcell].
      - eexists _, []. split; [reflexivity|].
        cbn [next_iteration pc i datPtr mem programOutput].
        rewrite ?app_nil_r. repeat split; first [lia | exact Hcell]. }
    destruct Hstep as (s1 & o & Hs1 & Hpc1 & Hi1 & Hp1 & Ho1 & Hcell1 & Hoth).
    rewrite <- Hp1 in Hcell1.
    destruct (IH blob s1 _ Hjs Hpc1 ltac:(lia)
                ltac:(rewrite Hi1; exact Hnext) Hopen Hclose Hleft Hright
                Hcell1) as (out & m & Hrun & Hget & Hother).
    { destruct (Ascii.eqb c TOKEN_INCR), (Ascii.eqb c TOKEN_DECR); lia. }
    exists (o ++ out)%list, m. split; [|split].
    + rewrite run_S, Hs1, Hrun, Hp1, Ho1. now rewrite <- app_assoc.
    + rewrite Hp1 in Hget. rewrite Hget, cell_shift_cons. do 2 f_equal. lia.
    + intros j Hj. rewrite Hp1 in Hother. rewrite (Hother j Hj).
      now apply Hoth.
Qed.

(** X19.  Cells are integers, not bytes: a source without move-lefts,
    move-rights and loop delimiters is run to its end, and the object
    [eval] returns has in cell 0 the number of increments less the number
    of decrements, be it negative or above 255; the other cells are as in
    the fresh tape and the data pointer is 0. *)
Theorem eval_cell_arithmetic (blob : string) :
  blob_length blob < two_53 ->
  count_char TOKEN_LOOP_START blob = O ->
  count_char TOKEN_LOOP_STOP blob = O ->
  count_char TOKEN_LEFT blob = O ->
  count_char TOKEN_RIGHT blob = O ->
  exists out m,
    eval (S (String.length blob)) blob = Some (returned 0 out m)
    /\ array_get m 0 = Some (Num (cell_shift blob))
    /\ (forall j, j <> 0 -> array_get m j = array_get fresh_mem j).
Proof.
  intros Hjs Hopen Hclose Hleft Hright.
  destruct (run_cell_arithmetic blob blob init 0 Hjs eq_refl ltac:(cbn; lia)
              eq_refl Hopen Hclose Hleft Hright)
    as (out & m & Hrun & Hget & Hother).
  - exact (fresh_mem_get 0 ltac:(lia)).
  - unfold blob_length in Hjs. cbn [Z.abs]. lia.
  - exists out, m. split; [exact Hrun|]. split; [exact Hget | exact Hother].
Qed.

Lemma eval_cell_arithmetic_witness :
  exists out m,
    eval (S (String.length "-.-,-+")) "-.-,-+" = Some (returned 0 out m)
    /\ array_get m 0 = Some (Num (cell_shift "-.-,-+"))
    /\ (forall j, j <> 0 -> array_get m j = array_get fresh_mem j).
Proof. apply (eval_cell_arithmetic "-.-,-+"); reflexivity. Defined.

End EvaluatorMore.
